(** * Aura performance substrate: task pipeline and intelligent cache

    A shallow embedding of [backend/performance/async_pipeline.py] and
    [backend/performance/intelligent_cache.py].

    Conventions of the embedding.
    - Python [float] clock readings ([time.time()]) and scores are rationals
      ([Q]); every operation reads the clock once and receives that reading
      as its [now] argument.
    - Python [int] counters are [Z].
    - Plain dictionaries whose iteration order is never observed are [gmap]s;
      the [OrderedDict] of the hot tier and the insertion-ordered dictionary
      of prefetch callbacks are association lists.
    - [PipelineTask] objects are mutable and shared between the queues, the
      [active_tasks] and [completed_tasks] dictionaries and the worker that
      runs them: they live in a heap and are referred to by location.
    - Exceptions are values of [exn]; a computation that may raise returns
      an [outcome] together with the (possibly already mutated) state.
    - Coroutines run atomically between two suspension points. *)

From Stdlib Require Import ZArith NArith QArith Qminmax Lia Lqa String Ascii
  Sorted DecimalString.
From stdpp Require Import gmap strings list.

Local Open Scope Z_scope.

(** ** Python values and exceptions shared by both engines *)

Inductive pyvalue :=
| PyNone
| PyInt (z : Z)
| PyBool (b : bool)
| PyStr (s : string).

Inductive exn :=
| RuntimeError (msg : string)
| ValueError (msg : string)
| KeyError (key : string)
| TimeoutError (msg : string)
| ZeroDivisionError
| CancelledError
| WorkError (msg : string).

Inductive outcome (A : Type) :=
| Ok (a : A)
| Raise (e : exn).
Arguments Ok {A} a.
Arguments Raise {A} e.

(** [list.remove(x)]: drops the first occurrence, [ValueError] when absent. *)
Fixpoint list_remove (x : string) (l : list string) : option (list string) :=
  match l with
  | [] => None
  | y :: l' =>
      if String.eqb y x then Some l'
      else match list_remove x l' with
           | Some r => Some (y :: r)
           | None => None
           end
  end.

(** ** The state-and-exception monad of the methods of both engines *)

Definition SE (S A : Type) : Type := S -> outcome A * S.

Definition ret {S A} (a : A) : SE S A := fun s => (Ok a, s).
Definition raise {S A} (e : exn) : SE S A := fun s => (Raise e, s).
Definition bind {S A B} (m : SE S A) (k : A -> SE S B) : SE S B :=
  fun s => match m s with
           | (Ok a, s') => k a s'
           | (Raise e, s') => (Raise e, s')
           end.
Definition gets {S A} (f : S -> A) : SE S A := fun s => (Ok (f s), s).
Definition modify {S} (f : S -> S) : SE S unit := fun s => (Ok tt, f s).

Notation "'let*' x ':=' m 'in' k" := (bind m (fun x => k))
  (at level 10, x name, m at level 100, k at level 200).
Notation "m ';;' k" := (bind m (fun _ => k))
  (at level 100, k at level 200, right associativity).

(** [for x in l: body x] *)
Fixpoint for_each {S A} (l : list A) (body : A -> SE S unit) : SE S unit :=
  match l with
  | [] => ret tt
  | x :: l' => body x ;; for_each l' body
  end.

(** [try: body finally: fin]: [fin] runs on the state [body] leaves behind;
    an exception of [fin] replaces the one of [body]. *)
Definition try_finally {S A} (body : SE S A) (fin : SE S unit) : SE S A :=
  fun s => match body s with
           | (r, s1) =>
               match fin s1 with
               | (Ok _, s2) => (r, s2)
               | (Raise e, s2) => (Raise e, s2)
               end
           end.

(* ===================================================================== *)
(** ** The asynchronous pipeline ([async_pipeline.py])                    *)
(* ===================================================================== *)
Module Pipeline.

Inductive TaskPriority := LOW | NORMAL | HIGH | CRITICAL.

Inductive TaskStatus := PENDING | RUNNING | COMPLETED | FAILED | CANCELLED.

#[global] Instance TaskPriority_eq_dec : EqDecision TaskPriority.
Proof. solve_decision. Defined.

#[global] Instance TaskStatus_eq_dec : EqDecision TaskStatus.
Proof. solve_decision. Defined.

Abbreviation loc := nat.

(** [PipelineTask].  [t_func] names the opaque callable (its positional and
    keyword arguments travel with it); [t_callback] names the optional
    completion callback. *)
Record PipelineTask := mkTask {
  t_id : string;
  t_func : string;
  t_priority : TaskPriority;
  t_timeout : Q;
  t_retry_count : Z;
  t_max_retries : Z;
  t_status : TaskStatus;
  t_created_at : Q;
  t_started_at : option Q;
  t_completed_at : option Q;
  t_result : pyvalue;
  t_error : option exn;
  t_dependencies : list string;
  t_callback : option string
}.

Definition with_status (st : TaskStatus) (t : PipelineTask) : PipelineTask :=
  mkTask (t_id t) (t_func t) (t_priority t) (t_timeout t) (t_retry_count t)
    (t_max_retries t) st (t_created_at t) (t_started_at t) (t_completed_at t)
    (t_result t) (t_error t) (t_dependencies t) (t_callback t).

Definition with_started_at (x : option Q) (t : PipelineTask) : PipelineTask :=
  mkTask (t_id t) (t_func t) (t_priority t) (t_timeout t) (t_retry_count t)
    (t_max_retries t) (t_status t) (t_created_at t) x (t_completed_at t)
    (t_result t) (t_error t) (t_dependencies t) (t_callback t).

Definition with_completed_at (x : option Q) (t : PipelineTask) : PipelineTask :=
  mkTask (t_id t) (t_func t) (t_priority t) (t_timeout t) (t_retry_count t)
    (t_max_retries t) (t_status t) (t_created_at t) (t_started_at t) x
    (t_result t) (t_error t) (t_dependencies t) (t_callback t).

Definition with_result (v : pyvalue) (t : PipelineTask) : PipelineTask :=
  mkTask (t_id t) (t_func t) (t_priority t) (t_timeout t) (t_retry_count t)
    (t_max_retries t) (t_status t) (t_created_at t) (t_started_at t)
    (t_completed_at t) v (t_error t) (t_dependencies t) (t_callback t).

Definition with_error (e : option exn) (t : PipelineTask) : PipelineTask :=
  mkTask (t_id t) (t_func t) (t_priority t) (t_timeout t) (t_retry_count t)
    (t_max_retries t) (t_status t) (t_created_at t) (t_started_at t)
    (t_completed_at t) (t_result t) e (t_dependencies t) (t_callback t).

Definition with_retry_count (n : Z) (t : PipelineTask) : PipelineTask :=
  mkTask (t_id t) (t_func t) (t_priority t) (t_timeout t) n
    (t_max_retries t) (t_status t) (t_created_at t) (t_started_at t)
    (t_completed_at t) (t_result t) (t_error t) (t_dependencies t)
    (t_callback t).

(** The counters of [PipelineMetrics] that the pipeline itself maintains
    (the averages and the process statistics sampled by [_collect_metrics]
    are outside the model). *)
Record PipelineMetrics := mkMetrics {
  total_tasks : Z;
  m_completed_tasks : Z;
  failed_tasks : Z;
  peak_concurrent_tasks : Z;
  queue_size : Z
}.

(** [self.task_queues]: one deque per priority class. *)
Record Queues := mkQueues {
  q_critical : list loc;
  q_high : list loc;
  q_normal : list loc;
  q_low : list loc
}.

Definition queue_of (p : TaskPriority) (q : Queues) : list loc :=
  match p with
  | CRITICAL => q_critical q
  | HIGH => q_high q
  | NORMAL => q_normal q
  | LOW => q_low q
  end.

Definition set_queue (p : TaskPriority) (l : list loc) (q : Queues) : Queues :=
  match p with
  | CRITICAL => mkQueues l (q_high q) (q_normal q) (q_low q)
  | HIGH => mkQueues (q_critical q) l (q_normal q) (q_low q)
  | NORMAL => mkQueues (q_critical q) (q_high q) l (q_low q)
  | LOW => mkQueues (q_critical q) (q_high q) (q_normal q) l
  end.

(** An [asyncio.Task] wrapping one run of a task's work: whether it has
    finished, and whether [cancel()] has been requested on it. *)
Record Future := mkFuture {
  fut_done : bool;
  fut_cancel_requested : bool
}.

(** [AsyncPipeline].  Besides the attributes of the Python object the state
    carries the heap of task objects and three ghost fields: the tasks held
    by workers suspended in [await future], the log of work invocations and
    the log of callback invocations. *)
Record AsyncPipeline := mkPipeline {
  is_running : bool;
  task_queues : Queues;
  active_tasks : gmap string loc;
  task_futures : gmap string Future;
  completed_tasks : gmap string loc;
  dependency_graph : gmap string (list string);
  reverse_dependencies : gmap string (list string);
  metrics : PipelineMetrics;
  heap : list PipelineTask;
  awaiting : list loc;
  exec_log : list string;
  callback_log : list (string * pyvalue)
}.

Definition init : AsyncPipeline :=
  mkPipeline false (mkQueues [] [] [] []) ∅ ∅ ∅ ∅ ∅
    (mkMetrics 0 0 0 0 0) [] [] [] [].

Definition set_is_running (b : bool) (s : AsyncPipeline) : AsyncPipeline :=
  mkPipeline b (task_queues s) (active_tasks s) (task_futures s)
    (completed_tasks s) (dependency_graph s) (reverse_dependencies s)
    (metrics s) (heap s) (awaiting s) (exec_log s) (callback_log s).

Definition set_task_queues (q : Queues) (s : AsyncPipeline) : AsyncPipeline :=
  mkPipeline (is_running s) q (active_tasks s) (task_futures s)
    (completed_tasks s) (dependency_graph s) (reverse_dependencies s)
    (metrics s) (heap s) (awaiting s) (exec_log s) (callback_log s).

Definition set_active_tasks (a : gmap string loc) (s : AsyncPipeline)
  : AsyncPipeline :=
  mkPipeline (is_running s) (task_queues s) a (task_futures s)
    (completed_tasks s) (dependency_graph s) (reverse_dependencies s)
    (metrics s) (heap s) (awaiting s) (exec_log s) (callback_log s).

Definition set_task_futures (f : gmap string Future) (s : AsyncPipeline)
  : AsyncPipeline :=
  mkPipeline (is_running s) (task_queues s) (active_tasks s) f
    (completed_tasks s) (dependency_graph s) (reverse_dependencies s)
    (metrics s) (heap s) (awaiting s) (exec_log s) (callback_log s).

Definition set_completed_tasks (c : gmap string loc) (s : AsyncPipeline)
  : AsyncPipeline :=
  mkPipeline (is_running s) (task_queues s) (active_tasks s) (task_futures s)
    c (dependency_graph s) (reverse_dependencies s)
    (metrics s) (heap s) (awaiting s) (exec_log s) (callback_log s).

Definition set_dependency_graph (g : gmap string (list string))
  (s : AsyncPipeline) : AsyncPipeline :=
  mkPipeline (is_running s) (task_queues s) (active_tasks s) (task_futures s)
    (completed_tasks s) g (reverse_dependencies s)
    (metrics s) (heap s) (awaiting s) (exec_log s) (callback_log s).

Definition set_reverse_dependencies (r : gmap string (list string))
  (s : AsyncPipeline) : AsyncPipeline :=
  mkPipeline (is_running s) (task_queues s) (active_tasks s) (task_futures s)
    (completed_tasks s) (dependency_graph s) r
    (metrics s) (heap s) (awaiting s) (exec_log s) (callback_log s).

Definition set_metrics (m : PipelineMetrics) (s : AsyncPipeline)
  : AsyncPipeline :=
  mkPipeline (is_running s) (task_queues s) (active_tasks s) (task_futures s)
    (completed_tasks s) (dependency_graph s) (reverse_dependencies s)
    m (heap s) (awaiting s) (exec_log s) (callback_log s).

Definition set_heap (h : list PipelineTask) (s : AsyncPipeline)
  : AsyncPipeline :=
  mkPipeline (is_running s) (task_queues s) (active_tasks s) (task_futures s)
    (completed_tasks s) (dependency_graph s) (reverse_dependencies s)
    (metrics s) h (awaiting s) (exec_log s) (callback_log s).

Definition set_awaiting (w : list loc) (s : AsyncPipeline) : AsyncPipeline :=
  mkPipeline (is_running s) (task_queues s) (active_tasks s) (task_futures s)
    (completed_tasks s) (dependency_graph s) (reverse_dependencies s)
    (metrics s) (heap s) w (exec_log s) (callback_log s).

Definition set_exec_log (w : list string) (s : AsyncPipeline) : AsyncPipeline :=
  mkPipeline (is_running s) (task_queues s) (active_tasks s) (task_futures s)
    (completed_tasks s) (dependency_graph s) (reverse_dependencies s)
    (metrics s) (heap s) (awaiting s) w (callback_log s).

Definition set_callback_log (w : list (string * pyvalue)) (s : AsyncPipeline)
  : AsyncPipeline :=
  mkPipeline (is_running s) (task_queues s) (active_tasks s) (task_futures s)
    (completed_tasks s) (dependency_graph s) (reverse_dependencies s)
    (metrics s) (heap s) (awaiting s) (exec_log s) w.

Abbreviation M := (SE AsyncPipeline).

(** Reading and writing the object at a location. *)
Definition read_task (l : loc) : M PipelineTask :=
  fun s => match heap s !! l with
           | Some t => (Ok t, s)
           | None => (Raise (RuntimeError "dangling task reference"), s)
           end.

Definition update_task (l : loc) (f : PipelineTask -> PipelineTask) : M unit :=
  let* t := read_task l in
  modify (fun s => set_heap (<[l := f t]> (heap s)) s).

(** [_queue_task] *)
Definition _queue_task (l : loc) : M unit :=
  let* t := read_task l in
  modify (fun s =>
    set_task_queues
      (set_queue (t_priority t)
         (queue_of (t_priority t) (task_queues s) ++ [l]) (task_queues s)) s) ;;
  modify (fun s => set_active_tasks (<[t_id t := l]> (active_tasks s)) s) ;;
  modify (fun s =>
    let m := metrics s in
    set_metrics (mkMetrics (total_tasks m) (m_completed_tasks m)
                   (failed_tasks m) (peak_concurrent_tasks m)
                   (queue_size m + 1)) s).

(** The dependency loop of [submit_task]: at the first dependency that is
    not in [completed_tasks] the task is registered under that dependency
    and the method returns; [false] means the loop ran to its end. *)
Fixpoint submit_dependency_loop (task_id : string) (l : loc)
    (all_deps rest : list string) : M bool :=
  match rest with
  | [] => ret false
  | dep_id :: rest' =>
      let* completed := gets completed_tasks in
      match completed !! dep_id with
      | None =>
          modify (fun s =>
            let r := reverse_dependencies s in
            let r1 := match r !! dep_id with
                      | None => <[dep_id := []]> r
                      | Some _ => r
                      end in
            let old := default [] (r1 !! dep_id) in
            set_reverse_dependencies (<[dep_id := old ++ [task_id]]> r1) s) ;;
          modify (fun s =>
            set_dependency_graph (<[task_id := all_deps]> (dependency_graph s)) s) ;;
          modify (fun s =>
            set_active_tasks (<[task_id := l]> (active_tasks s)) s) ;;
          ret true
      | Some _ => submit_dependency_loop task_id l all_deps rest'
      end
  end.

(** [submit_task] *)
Definition submit_task (task_id func : string) (priority : TaskPriority)
    (timeout : Q) (max_retries : Z) (dependencies : option (list string))
    (callback : option string) (now : Q) : M string :=
  let* running := gets is_running in
  if negb running then raise (RuntimeError "Pipeline is not running") else
  let* active := gets active_tasks in
  let* completed := gets completed_tasks in
  if bool_decide (is_Some (active !! task_id))
     || bool_decide (is_Some (completed !! task_id))
  then raise (ValueError task_id) else
  let task := mkTask task_id func priority timeout 0 max_retries PENDING now
                None None PyNone None (default [] dependencies) callback in
  let* l := gets (fun s => length (heap s)) in
  modify (fun s => set_heap (heap s ++ [task]) s) ;;
  let* registered :=
    submit_dependency_loop task_id l (t_dependencies task)
      (t_dependencies task) in
  if registered then ret task_id else
  _queue_task l ;;
  modify (fun s =>
    let m := metrics s in
    set_metrics (mkMetrics (total_tasks m + 1) (m_completed_tasks m)
                   (failed_tasks m) (peak_concurrent_tasks m)
                   (queue_size m)) s) ;;
  ret task_id.

(** [_get_next_task] *)
Fixpoint get_next_from (ps : list TaskPriority) : M (option loc) :=
  match ps with
  | [] => ret None
  | priority :: ps' =>
      let* queue := gets (fun s => queue_of priority (task_queues s)) in
      match queue with
      | l :: queue' =>
          modify (fun s =>
            set_task_queues (set_queue priority queue' (task_queues s)) s) ;;
          modify (fun s =>
            let m := metrics s in
            set_metrics (mkMetrics (total_tasks m) (m_completed_tasks m)
                           (failed_tasks m) (peak_concurrent_tasks m)
                           (queue_size m - 1)) s) ;;
          ret (Some l)
      | [] => get_next_from ps'
      end
  end.

Definition _get_next_task : M (option loc) :=
  get_next_from [CRITICAL; HIGH; NORMAL; LOW].

(** [_handle_task_failure] *)
Definition _handle_task_failure (l : loc) (now : Q) : M unit :=
  update_task l (fun t => with_retry_count (t_retry_count t + 1) t) ;;
  let* t := read_task l in
  if t_retry_count t <=? t_max_retries t then
    update_task l (with_status PENDING) ;;
    update_task l (with_started_at None) ;;
    _queue_task l
  else
    update_task l (with_status FAILED) ;;
    update_task l (with_completed_at (Some now)) ;;
    modify (fun s =>
      let m := metrics s in
      set_metrics (mkMetrics (total_tasks m) (m_completed_tasks m)
                     (failed_tasks m + 1) (peak_concurrent_tasks m)
                     (queue_size m)) s).

(** [_process_dependencies] *)
Definition _process_dependencies (completed_task_id : string) : M unit :=
  let* rev := gets reverse_dependencies in
  match rev !! completed_task_id with
  | None => ret tt
  | Some dependents =>
      for_each dependents (fun dependent_task_id =>
        let* graph := gets dependency_graph in
        match graph !! dependent_task_id with
        | None => ret tt
        | Some deps =>
            match list_remove completed_task_id deps with
            | None => raise (ValueError "list.remove(x): x not in list")
            | Some deps' =>
                modify (fun s =>
                  set_dependency_graph
                    (<[dependent_task_id := deps']> (dependency_graph s)) s) ;;
                match deps' with
                | _ :: _ => ret tt
                | [] =>
                    modify (fun s =>
                      set_dependency_graph
                        (delete dependent_task_id (dependency_graph s)) s) ;;
                    let* active := gets active_tasks in
                    match active !! dependent_task_id with
                    | None => ret tt
                    | Some l =>
                        let* task := read_task l in
                        match t_status task with
                        | PENDING => _queue_task l
                        | _ => ret tt
                        end
                    end
                end
            end
        end)
  end.

(** How one run of a task's work ends, as seen at [result = await future]:
    it returns a value, [asyncio.wait_for] times out, it raises an
    [Exception], or the future was cancelled ([CancelledError] is not an
    [Exception] and is caught by neither [except] clause). *)
Inductive work_result :=
| Returned (v : pyvalue)
| TimedOut
| Raised (e : exn)
| WasCancelled.

(** [_execute_task], up to the suspension at [await future]: the task is
    marked RUNNING, the future that runs its work is created and recorded. *)
Definition execute_task_begin (l : loc) (now : Q) : M unit :=
  update_task l (with_status RUNNING) ;;
  update_task l (with_started_at (Some now)) ;;
  let* t := read_task l in
  modify (fun s => set_exec_log (exec_log s ++ [t_id t]) s) ;;
  modify (fun s =>
    set_task_futures (<[t_id t := mkFuture false false]> (task_futures s)) s) ;;
  modify (fun s => set_awaiting (awaiting s ++ [l]) s).

(** The [finally] block of [_execute_task]. *)
Definition execute_task_finally (l : loc) : M unit :=
  let* t := read_task l in
  modify (fun s => set_task_futures (delete (t_id t) (task_futures s)) s) ;;
  let* t := read_task l in
  match t_status t with
  | COMPLETED | FAILED =>
      modify (fun s =>
        set_completed_tasks (<[t_id t := l]> (completed_tasks s)) s) ;;
      modify (fun s => set_active_tasks (delete (t_id t) (active_tasks s)) s) ;;
      _process_dependencies (t_id t)
  | _ => ret tt
  end ;;
  modify (fun s =>
    let m := metrics s in
    let active_count := Z.of_nat (size (active_tasks s)) in
    if peak_concurrent_tasks m <? active_count then
      set_metrics (mkMetrics (total_tasks m) (m_completed_tasks m)
                     (failed_tasks m) active_count (queue_size m)) s
    else s).

(** [_execute_task], from the resumption after [await future] on. *)
Definition execute_task_resume (l : loc) (r : work_result) (now : Q) : M unit :=
  try_finally
    (match r with
     | Returned v =>
         update_task l (with_result v) ;;
         update_task l (with_status COMPLETED) ;;
         update_task l (with_completed_at (Some now)) ;;
         modify (fun s =>
           let m := metrics s in
           set_metrics (mkMetrics (total_tasks m) (m_completed_tasks m + 1)
                          (failed_tasks m) (peak_concurrent_tasks m)
                          (queue_size m)) s) ;;
         let* t := read_task l in
         match t_callback t with
         | Some cb =>
             modify (fun s =>
               set_callback_log (callback_log s ++ [(cb, t_result t)]) s)
         | None => ret tt
         end
     | TimedOut =>
         let* t := read_task l in
         update_task l (with_error (Some (TimeoutError (t_id t)))) ;;
         _handle_task_failure l now
     | Raised e =>
         update_task l (with_error (Some e)) ;;
         _handle_task_failure l now
     | WasCancelled => raise CancelledError
     end)
    (execute_task_finally l).



(** [cancel_task] *)
Definition cancel_task (task_id : string) : M bool :=
  let* futures := gets task_futures in
  match futures !! task_id with
  | Some future =>
      if negb (fut_done future) then
        modify (fun s =>
          set_task_futures
            (<[task_id := mkFuture (fut_done future) true]> (task_futures s)) s) ;;
        let* active := gets active_tasks in
        match active !! task_id with
        | Some l => update_task l (with_status CANCELLED)
        | None => ret tt
        end ;;
        ret true
      else ret false
  | None => ret false
  end.

(** [get_task_status] *)
Definition get_task_status (task_id : string) (s : AsyncPipeline)
  : option TaskStatus :=
  match active_tasks s !! task_id with
  | Some l => t_status <$> heap s !! l
  | None =>
      match completed_tasks s !! task_id with
      | Some l => t_status <$> heap s !! l
      | None => None
      end
  end.

(** [start] (spawning the workers is the scheduler's business: their turns
    are the operations below). *)
Definition start (s : AsyncPipeline) : AsyncPipeline :=
  if is_running s then s else set_is_running true s.

(** *** Traces of pipeline operations *)

Inductive op :=
| OpSubmit (task_id func : string) (priority : TaskPriority) (timeout : Q)
    (max_retries : Z) (dependencies : option (list string))
    (callback : option string) (now : Q)
| OpDraw (now : Q)
  (* a worker draws the next task and suspends awaiting its future *)
| OpWorkDone (task_id : string)
  (* the future of a running task finishes; its worker has not resumed yet *)
| OpResume (l : loc) (r : work_result) (now : Q)
  (* the worker awaiting the task at [l] resumes with the work's result *)
| OpCancel (task_id : string).

Fixpoint remove_first (l : loc) (ls : list loc) : list loc :=
  match ls with
  | [] => []
  | x :: ls' => if Nat.eqb x l then ls' else x :: remove_first l ls'
  end.

Definition apply_op (o : op) (s : AsyncPipeline) : AsyncPipeline :=
  match o with
  | OpSubmit task_id func priority timeout max_retries deps callback now =>
      snd (submit_task task_id func priority timeout max_retries deps
             callback now s)
  | OpDraw now =>
      match _get_next_task s with
      | (Ok (Some l), s1) => snd (execute_task_begin l now s1)
      | (_, s1) => s1
      end
  | OpWorkDone task_id =>
      match task_futures s !! task_id with
      | Some f =>
          set_task_futures
            (<[task_id := mkFuture true (fut_cancel_requested f)]>
               (task_futures s)) s
      | None => s
      end
  | OpResume l r now =>
      if bool_decide (l ∈ awaiting s) then
        snd (execute_task_resume l r now
               (set_awaiting (remove_first l (awaiting s)) s))
      else s
  | OpCancel task_id => snd (cancel_task task_id s)
  end.

Definition run (ops : list op) (s : AsyncPipeline) : AsyncPipeline :=
  fold_left (fun s o => apply_op o s) ops s.

End Pipeline.

(* ===================================================================== *)
(** ** The intelligent cache ([intelligent_cache.py])                     *)
(* ===================================================================== *)
Module Cache.

Inductive CacheStrategy := LRU | LFU | TTL | ADAPTIVE.

Inductive CacheLevel := MEMORY | DISK | DISTRIBUTED.

(** [a < b] and [a > b] on floats. *)
Definition Qltb (a b : Q) : bool := negb (Qle_bool b a).
Definition Qgtb (a b : Q) : bool := Qltb b a.

(** Python's [/]: [ZeroDivisionError] on a zero divisor. *)
Definition py_div (a b : Q) : outcome Q :=
  if Qeq_bool b 0 then Raise ZeroDivisionError else Ok (a / b)%Q.

(** [CacheEntry] (its [metadata] is the constant [{'level': 'memory'}]). *)
Record CacheEntry := mkEntry {
  e_key : string;
  e_value : pyvalue;
  e_created_at : Q;
  e_accessed_at : Q;
  e_access_count : Z;
  e_ttl : option Q;
  e_size_bytes : Z
}.

(** [CacheEntry.is_expired] *)
Definition is_expired (now : Q) (e : CacheEntry) : bool :=
  match e_ttl e with
  | None => false
  | Some ttl => Qgtb (now - e_created_at e) ttl
  end.

(** [CacheEntry.touch] *)
Definition touch (now : Q) (e : CacheEntry) : CacheEntry :=
  mkEntry (e_key e) (e_value e) (e_created_at e) now (e_access_count e + 1)
    (e_ttl e) (e_size_bytes e).

(** [CacheStats] (the access-time average and the process and disk usage
    gauges are measurements of the host and are outside the model). *)
Record CacheStats := mkStats {
  hits : Z;
  misses : Z;
  evictions : Z;
  size_bytes : Z;
  entry_count : Z;
  hit_rate : Q
}.

(** The configuration read by [__init__]. *)
Record Config := mkConfig {
  max_memory_mb : Z;
  default_ttl : option Q;
  strategy : CacheStrategy;
  enable_disk_cache : bool;
  prefetch_enabled : bool
}.

(** The content of one [<key>.cache] file. *)
Record DiskData := mkDisk {
  d_value : pyvalue;
  d_created_at : Q;
  d_ttl : option Q
}.

(** What awaiting a prefetch callback on a key yields. *)
Definition callback := string -> outcome pyvalue.

(** [IntelligentCache]: [memory_cache] is the [OrderedDict] of the hot tier,
    [disk] the directory of cache files, [prefetch_callbacks] the
    (insertion-ordered) dictionary of callbacks.  [prefetch_log] is a ghost
    field: the (pattern, key) pairs whose callback has been invoked. *)
Record IntelligentCache := mkCache {
  memory_cache : list (string * CacheEntry);
  access_times : gmap string (list Q);
  access_patterns : gmap string Z;
  stats : CacheStats;
  disk : gmap string DiskData;
  prefetch_queue : list string;
  prefetch_callbacks : list (string * callback);
  prefetch_log : list (string * string)
}.

Definition empty_stats : CacheStats := mkStats 0 0 0 0 0 0.

Definition init : IntelligentCache :=
  mkCache [] ∅ ∅ empty_stats ∅ [] [] [].

Definition set_memory_cache (m : list (string * CacheEntry))
  (c : IntelligentCache) : IntelligentCache :=
  mkCache m (access_times c) (access_patterns c) (stats c) (disk c)
    (prefetch_queue c) (prefetch_callbacks c) (prefetch_log c).

Definition set_access (t : gmap string (list Q)) (p : gmap string Z)
  (c : IntelligentCache) : IntelligentCache :=
  mkCache (memory_cache c) t p (stats c) (disk c)
    (prefetch_queue c) (prefetch_callbacks c) (prefetch_log c).

Definition set_stats (st : CacheStats) (c : IntelligentCache)
  : IntelligentCache :=
  mkCache (memory_cache c) (access_times c) (access_patterns c) st (disk c)
    (prefetch_queue c) (prefetch_callbacks c) (prefetch_log c).

Definition set_disk_files (d : gmap string DiskData) (c : IntelligentCache)
  : IntelligentCache :=
  mkCache (memory_cache c) (access_times c) (access_patterns c) (stats c) d
    (prefetch_queue c) (prefetch_callbacks c) (prefetch_log c).

Definition set_prefetch_queue (q : list string) (c : IntelligentCache)
  : IntelligentCache :=
  mkCache (memory_cache c) (access_times c) (access_patterns c) (stats c)
    (disk c) q (prefetch_callbacks c) (prefetch_log c).

Definition set_prefetch_callbacks (cbs : list (string * callback))
  (c : IntelligentCache) : IntelligentCache :=
  mkCache (memory_cache c) (access_times c) (access_patterns c) (stats c)
    (disk c) (prefetch_queue c) cbs (prefetch_log c).

Definition set_prefetch_log (l : list (string * string))
  (c : IntelligentCache) : IntelligentCache :=
  mkCache (memory_cache c) (access_times c) (access_patterns c) (stats c)
    (disk c) (prefetch_queue c) (prefetch_callbacks c) l.

Definition with_hits (n : Z) (st : CacheStats) : CacheStats :=
  mkStats n (misses st) (evictions st) (size_bytes st) (entry_count st)
    (hit_rate st).
Definition with_misses (n : Z) (st : CacheStats) : CacheStats :=
  mkStats (hits st) n (evictions st) (size_bytes st) (entry_count st)
    (hit_rate st).
Definition with_evictions (n : Z) (st : CacheStats) : CacheStats :=
  mkStats (hits st) (misses st) n (size_bytes st) (entry_count st)
    (hit_rate st).
Definition with_size_bytes (n : Z) (st : CacheStats) : CacheStats :=
  mkStats (hits st) (misses st) (evictions st) n (entry_count st)
    (hit_rate st).
Definition with_entry_count (n : Z) (st : CacheStats) : CacheStats :=
  mkStats (hits st) (misses st) (evictions st) (size_bytes st) n
    (hit_rate st).
Definition with_hit_rate (r : Q) (st : CacheStats) : CacheStats :=
  mkStats (hits st) (misses st) (evictions st) (size_bytes st)
    (entry_count st) r.

(** *** Insertion-ordered dictionaries *)
Section OrderedDict.
Context {V : Type}.

(** [d[k]] / [k in d] *)
Fixpoint od_get (k : string) (d : list (string * V)) : option V :=
  match d with
  | [] => None
  | (k', v) :: d' => if String.eqb k' k then Some v else od_get k d'
  end.

(** [del d[k]] *)
Fixpoint od_del (k : string) (d : list (string * V)) : list (string * V) :=
  match d with
  | [] => []
  | (k', v) :: d' => if String.eqb k' k then d' else (k', v) :: od_del k d'
  end.

(** [d[k] = v]: an existing key keeps its position, a new one goes last. *)
Fixpoint od_set (k : string) (v : V) (d : list (string * V))
  : list (string * V) :=
  match d with
  | [] => [(k, v)]
  | (k', v') :: d' =>
      if String.eqb k' k then (k', v) :: d' else (k', v') :: od_set k v d'
  end.

(** [d.move_to_end(k)] *)
Definition od_move_to_end (k : string) (d : list (string * V))
  : list (string * V) :=
  match od_get k d with
  | Some v => od_del k d ++ [(k, v)]
  | None => d
  end.
End OrderedDict.

(** [sorted(l, key=...)]: a stable sort, [leb] comparing the keys. *)
Fixpoint insert_sorted {A} (leb : A -> A -> bool) (x : A) (l : list A)
  : list A :=
  match l with
  | [] => [x]
  | y :: l' => if leb x y then x :: y :: l' else y :: insert_sorted leb x l'
  end.

Definition sorted {A} (leb : A -> A -> bool) (l : list A) : list A :=
  foldr (insert_sorted leb) [] l.

(** The fallback [SecurityValidator] defined in the module itself (neither
    of the two imported validators provides [sanitize_filename]). *)
Definition sanitize_filename (filename : string) : string := filename.

Definition hot_bytes (c : IntelligentCache) : Z :=
  foldr (fun p acc => e_size_bytes (snd p) + acc) 0 (memory_cache c).

Section WithConfig.
Variable cfg : Config.
(** [len(pickle.dumps(value))], [None] when pickling raises. *)
Variable pickle_dumps_len : pyvalue -> option N.

Definition max_bytes : Z := max_memory_mb cfg * 1024 * 1024.

(** [_update_hit_rate] *)
Definition _update_hit_rate (c : IntelligentCache) : IntelligentCache :=
  let st := stats c in
  let total_requests := hits st + misses st in
  if 0 <? total_requests then
    set_stats (with_hit_rate
                 (inject_Z (hits st) / inject_Z total_requests * 100)%Q st) c
  else c.

(** [_record_access_pattern] *)
Definition _record_access_pattern (key : string) (now : Q)
    (c : IntelligentCache) : IntelligentCache :=
  let times := default [] (access_times c !! key) ++ [now] in
  let cutoff_time := (now - 3600)%Q in
  let recent := filter (fun t => Is_true (Qgtb t cutoff_time)) times in
  set_access (<[key := recent]> (access_times c))
    (<[key := Z.of_nat (length recent)]> (access_patterns c)) c.

(** [_set_disk] *)
Definition _set_disk (key : string) (value : pyvalue) (ttl : option Q)
    (now : Q) (c : IntelligentCache) : bool * IntelligentCache :=
  if negb (enable_disk_cache cfg) then (false, c)
  else (true, set_disk_files (<[key := mkDisk value now ttl]> (disk c)) c).

(** [_get_from_disk]; [PyNone] is Python's [None]. *)
Definition _get_from_disk (key : string) (now : Q) (c : IntelligentCache)
  : pyvalue * IntelligentCache :=
  if negb (enable_disk_cache cfg) then (PyNone, c)
  else match disk c !! key with
       | None => (PyNone, c)
       | Some cache_data =>
           match d_ttl cache_data with
           | Some ttl =>
               let age := (now - d_created_at cache_data)%Q in
               if Qgtb age ttl
               then (PyNone, set_disk_files (delete key (disk c)) c)
               else (d_value cache_data, c)
           | None => (d_value cache_data, c)
           end
       end.

(** [_would_exceed_memory_limit] *)
Definition _would_exceed_memory_limit (additional_bytes : Z)
    (c : IntelligentCache) : bool :=
  max_bytes <? size_bytes (stats c) + additional_bytes.

(** The three statements that remove one entry during an eviction. *)
Definition evict_one (key : string) (entry : CacheEntry)
    (c : IntelligentCache) : IntelligentCache :=
  let c1 := set_memory_cache (od_del key (memory_cache c)) c in
  let c2 := set_stats (with_size_bytes
              (size_bytes (stats c1) - e_size_bytes entry) (stats c1)) c1 in
  set_stats (with_evictions (evictions (stats c2) + 1) (stats c2)) c2.

(** The first loop of [_evict_lru]: the keys to remove. *)
Fixpoint lru_keys_to_remove (items : list (string * CacheEntry))
    (freed_bytes needed_bytes : Z) : list string :=
  match items with
  | [] => []
  | (key, entry) :: items' =>
      let freed_bytes := freed_bytes + e_size_bytes entry in
      key :: (if needed_bytes <=? freed_bytes then []
              else lru_keys_to_remove items' freed_bytes needed_bytes)
  end.

(** [_evict_lru] *)
Definition _evict_lru (needed_bytes : Z) (now : Q) (c : IntelligentCache)
  : IntelligentCache :=
  let keys_to_remove := lru_keys_to_remove (memory_cache c) 0 needed_bytes in
  fold_left (fun c key =>
    match od_get key (memory_cache c) with
    | Some entry =>
        let c1 := if enable_disk_cache cfg && (1 <? e_access_count entry)
                  then snd (_set_disk key (e_value entry) (e_ttl entry) now c)
                  else c in
        evict_one key entry c1
    | None => c
    end) keys_to_remove c.

(** The eviction loop shared by [_evict_lfu], [_evict_ttl] and
    [_evict_adaptive]: walk the sorted entries, optionally saving an entry
    to disk before deleting it, until enough bytes are freed. *)
Fixpoint evict_sorted {A} (entry_of : A -> string * CacheEntry)
    (save : A -> bool) (sorted_entries : list A)
    (freed_bytes needed_bytes : Z) (now : Q) (c : IntelligentCache)
  : IntelligentCache :=
  match sorted_entries with
  | [] => c
  | x :: rest =>
      let '(key, entry) := entry_of x in
      let c1 := if save x
                then snd (_set_disk key (e_value entry) (e_ttl entry) now c)
                else c in
      let c2 := evict_one key entry c1 in
      let freed_bytes := freed_bytes + e_size_bytes entry in
      if needed_bytes <=? freed_bytes then c2
      else evict_sorted entry_of save rest freed_bytes needed_bytes now c2
  end.

(** [_evict_lfu] *)
Definition _evict_lfu (needed_bytes : Z) (now : Q) (c : IntelligentCache)
  : IntelligentCache :=
  let sorted_entries :=
    sorted (fun x y : string * CacheEntry =>
              e_access_count (snd x) <=? e_access_count (snd y))
      (memory_cache c) in
  evict_sorted (fun x => x)
    (fun x => enable_disk_cache cfg && (1 <? e_access_count (snd x)))
    sorted_entries 0 needed_bytes now c.

(** [_evict_ttl] *)
Definition ttl_sort_key (current_time : Q) (x : string * CacheEntry) : Q :=
  (e_created_at (snd x) + default 0 (e_ttl (snd x)) - current_time)%Q.

Definition _evict_ttl (needed_bytes : Z) (now : Q) (c : IntelligentCache)
  : IntelligentCache :=
  let entries_with_ttl :=
    filter (fun x : string * CacheEntry => e_ttl (snd x) <> None)
      (memory_cache c) in
  let sorted_entries :=
    sorted (fun x y => Qle_bool (ttl_sort_key now x) (ttl_sort_key now y))
      entries_with_ttl in
  evict_sorted (fun x => x) (fun _ => false)
    sorted_entries 0 needed_bytes now c.

(** [max((... for e in values), default=1)] *)
Definition max_default (l : list Z) : Z :=
  match l with
  | [] => 1
  | x :: l' => fold_left Z.max l' x
  end.

(** The composite score computed in the first loop of [_evict_adaptive],
    with the weights of [adaptive_weights]. *)
Definition adaptive_score (current_time : Q)
    (cache : list (string * CacheEntry)) (entry : CacheEntry) : outcome Q :=
  match py_div 1 (1 + (current_time - e_accessed_at entry) / 3600)%Q with
  | Raise e => Raise e
  | Ok recency =>
  let max_access := max_default (map (fun p => e_access_count (snd p)) cache) in
  match py_div (inject_Z (e_access_count entry)) (inject_Z max_access) with
  | Raise e => Raise e
  | Ok frequency =>
  let max_size := max_default (map (fun p => e_size_bytes (snd p)) cache) in
  match py_div (inject_Z (e_size_bytes entry)) (inject_Z max_size) with
  | Raise e => Raise e
  | Ok size_ratio =>
  let size_score := (1 - size_ratio)%Q in
  match
    match e_ttl entry with
    | Some ttl =>
        let remaining_ttl :=
          Qmax 0 (ttl - (current_time - e_created_at entry))%Q in
        match py_div remaining_ttl ttl with
        | Raise e => Raise e
        | Ok r => Ok (Qmin 1 r)
        end
    | None => Ok 1%Q
    end
  with
  | Raise e => Raise e
  | Ok ttl_score =>
      Ok ((4 # 10) * recency + (3 # 10) * frequency
          + (2 # 10) * size_score + (1 # 10) * ttl_score)%Q
  end end end end.

Fixpoint score_entries (current_time : Q)
    (cache items : list (string * CacheEntry))
  : outcome (list (string * CacheEntry * Q)) :=
  match items with
  | [] => Ok []
  | (key, entry) :: items' =>
      match adaptive_score current_time cache entry with
      | Raise e => Raise e
      | Ok score =>
          match score_entries current_time cache items' with
          | Raise e => Raise e
          | Ok scored => Ok ((key, entry, score) :: scored)
          end
      end
  end.

(** [_evict_adaptive] *)
Definition _evict_adaptive (needed_bytes : Z) (now : Q)
  : SE IntelligentCache unit :=
  fun c =>
    match score_entries now (memory_cache c) (memory_cache c) with
    | Raise e => (Raise e, c)
    | Ok scored_entries =>
        let sorted_entries :=
          sorted (fun x y : string * CacheEntry * Q =>
                    Qle_bool (snd x) (snd y)) scored_entries in
        (Ok tt,
         evict_sorted fst
           (fun x => enable_disk_cache cfg
                     && (2 <? e_access_count (snd (fst x)))
                     && Qgtb (snd x) (3 # 10))
           sorted_entries 0 needed_bytes now c)
    end.

(** [_evict_entries] *)
Definition _evict_entries (needed_bytes : Z) (now : Q)
  : SE IntelligentCache unit :=
  match strategy cfg with
  | LRU => modify (_evict_lru needed_bytes now)
  | LFU => modify (_evict_lfu needed_bytes now)
  | TTL => modify (_evict_ttl needed_bytes now)
  | ADAPTIVE => _evict_adaptive needed_bytes now
  end.

(** The size charged for a value: its pickled length, 1024 when pickling
    fails. *)
Definition entry_size (value : pyvalue) : Z :=
  match pickle_dumps_len value with
  | Some n => Z.of_N n
  | None => 1024
  end.

(** [_set_memory] *)
Definition _set_memory (key : string) (value : pyvalue) (ttl : option Q)
    (now : Q) : SE IntelligentCache bool :=
  let size := entry_size value in
  let* exceeds := gets (_would_exceed_memory_limit size) in
  (if exceeds then _evict_entries size now else ret tt) ;;
  let entry := mkEntry key value now now 0 ttl size in
  modify (fun c =>
    match od_get key (memory_cache c) with
    | Some old_entry =>
        set_stats (with_size_bytes
                     (size_bytes (stats c) - e_size_bytes old_entry)
                     (stats c)) c
    | None => c
    end) ;;
  modify (fun c => set_memory_cache (od_set key entry (memory_cache c)) c) ;;
  modify (fun c =>
    set_stats (with_size_bytes (size_bytes (stats c) + size) (stats c)) c) ;;
  modify (fun c =>
    set_stats (with_entry_count (Z.of_nat (length (memory_cache c)))
                 (stats c)) c) ;;
  modify (_record_access_pattern key now) ;;
  ret true.

(** [_find_related_keys] *)
Fixpoint common_prefix_len (a b : string) : nat :=
  match a, b with
  | String c1 a', String c2 b' =>
      if Ascii.eqb c1 c2 then S (common_prefix_len a' b') else O
  | _, _ => O
  end.

Definition _find_related_keys (key : string) (c : IntelligentCache)
  : list string :=
  filter (fun cache_key =>
            Is_true (negb (String.eqb cache_key key)
                     && (String.length key
                         <? 2 * common_prefix_len key cache_key)%nat))
    (map fst (memory_cache c)).

(** [_schedule_prefetch] *)
Definition _schedule_prefetch (key : string) (c : IntelligentCache)
  : IntelligentCache :=
  if negb (prefetch_enabled cfg) then c
  else
    fold_left (fun c related_key =>
      match od_get related_key (memory_cache c) with
      | None => set_prefetch_queue (prefetch_queue c ++ [related_key]) c
      | Some _ => c
      end) (take 3 (_find_related_keys key c)) c.

(** [if self.enable_disk_cache: disk_value = await self._get_from_disk(key)];
    without the disk tier there is no disk value. *)
Definition disk_lookup (key : string) (now : Q) : SE IntelligentCache pyvalue :=
  fun c =>
    if enable_disk_cache cfg
    then let '(v, c') := _get_from_disk key now c in (Ok v, c')
    else (Ok PyNone, c).

(** The body of [get], inside its [try]. *)
Definition get_body (key : string) (default_value : pyvalue) (now : Q)
  : SE IntelligentCache pyvalue :=
  let key := sanitize_filename key in
  let* cache := gets memory_cache in
  match od_get key cache with
  | Some entry =>
      if is_expired now entry then
        modify (fun c => set_memory_cache (od_del key (memory_cache c)) c) ;;
        modify (fun c =>
          set_stats (with_misses (misses (stats c) + 1) (stats c)) c) ;;
        ret default_value
      else
        let entry := touch now entry in
        modify (fun c =>
          set_memory_cache (od_set key entry (memory_cache c)) c) ;;
        modify (fun c =>
          set_memory_cache (od_move_to_end key (memory_cache c)) c) ;;
        modify (_record_access_pattern key now) ;;
        modify (fun c =>
          set_stats (with_hits (hits (stats c) + 1) (stats c)) c) ;;
        modify _update_hit_rate ;;
        ret (e_value entry)
  | None =>
      let* disk_value := disk_lookup key now in
      match disk_value with
      | PyNone =>
          modify (fun c =>
            set_stats (with_misses (misses (stats c) + 1) (stats c)) c) ;;
          modify _update_hit_rate ;;
          (if prefetch_enabled cfg then modify (_schedule_prefetch key)
           else ret tt) ;;
          ret default_value
      | _ =>
          _set_memory key disk_value (default_ttl cfg) now ;;
          modify (fun c =>
            set_stats (with_hits (hits (stats c) + 1) (stats c)) c) ;;
          modify _update_hit_rate ;;
          ret disk_value
      end
  end.

(** [get]: any exception is logged and the default returned. *)
Definition get (key : string) (default_value : pyvalue) (now : Q)
    (c : IntelligentCache) : pyvalue * IntelligentCache :=
  match get_body key default_value now c with
  | (Ok v, c') => (v, c')
  | (Raise _, c') => (default_value, c')
  end.

(** [set]: any exception is logged and [False] returned. *)
Definition set (key : string) (value : pyvalue) (ttl : option Q)
    (level : CacheLevel) (now : Q) (c : IntelligentCache)
  : bool * IntelligentCache :=
  let key := sanitize_filename key in
  let ttl := match ttl with
             | None => default_ttl cfg
             | Some _ => ttl
             end in
  match level with
  | MEMORY | DISTRIBUTED =>
      match _set_memory key value ttl now c with
      | (Ok b, c') => (b, c')
      | (Raise _, c') => (false, c')
      end
  | DISK => _set_disk key value ttl now c
  end.

(** [delete] *)
Definition delete (key : string) (c : IntelligentCache)
  : bool * IntelligentCache :=
  let key := sanitize_filename key in
  let c1 :=
    match od_get key (memory_cache c) with
    | Some entry =>
        let c1 := set_memory_cache (od_del key (memory_cache c)) c in
        let c2 := set_stats (with_size_bytes
                    (size_bytes (stats c1) - e_size_bytes entry)
                    (stats c1)) c1 in
        set_stats (with_entry_count (Z.of_nat (length (memory_cache c2)))
                     (stats c2)) c2
    | None => c
    end in
  let c2 := if enable_disk_cache cfg
            then set_disk_files (base.delete key (disk c1)) c1
            else c1 in
  (true, c2).

(** [clear] *)
Definition clear (c : IntelligentCache) : IntelligentCache :=
  let c1 := set_stats empty_stats
              (set_access ∅ ∅ (set_memory_cache [] c)) in
  if enable_disk_cache cfg then set_disk_files ∅ c1 else c1.

(** [_cleanup_expired_entries] *)
Definition _cleanup_expired_entries (now : Q) (c : IntelligentCache)
  : IntelligentCache :=
  let expired_keys :=
    map fst (filter (fun p : string * CacheEntry =>
                       Is_true (is_expired now (snd p))) (memory_cache c)) in
  fold_left (fun c key =>
    match od_get key (memory_cache c) with
    | Some entry => evict_one key entry c
    | None => c
    end) expired_keys c.

(** [register_prefetch_callback] *)
Definition register_prefetch_callback (pattern : string) (cb : callback)
    (c : IntelligentCache) : IntelligentCache :=
  set_prefetch_callbacks (od_set pattern cb (prefetch_callbacks c)) c.

(** [pattern in key] on strings: [pattern] occurs somewhere in [key]. *)
Fixpoint str_contains (pattern key : string) : bool :=
  String.prefix pattern key
  || match key with
     | EmptyString => false
     | String _ key' => str_contains pattern key'
     end.

(** The [for pattern, callback in ...] loop of [_prefetch_worker] for one
    key taken from the queue. *)
Fixpoint prefetch_dispatch (callbacks : list (string * callback))
    (key : string) (now : Q) (c : IntelligentCache) : IntelligentCache :=
  match callbacks with
  | [] => c
  | (pattern, cb) :: callbacks' =>
      if str_contains pattern key then
        let c := set_prefetch_log (prefetch_log c ++ [(pattern, key)]) c in
        match cb key with
        | Ok PyNone => c
        | Ok value => snd (set key value None MEMORY now c)
        | Raise _ => c
        end
      else prefetch_dispatch callbacks' key now c
  end.

(** One turn of the loop of [_prefetch_worker]; waiting on an empty queue
    times out and the loop continues. *)
Definition prefetch_worker_turn (now : Q) (c : IntelligentCache)
  : IntelligentCache :=
  match prefetch_queue c with
  | [] => c
  | key :: queue' =>
      prefetch_dispatch (prefetch_callbacks c) key now
        (set_prefetch_queue queue' c)
  end.

(** *** Traces of cache operations *)
Inductive op :=
| OpSet (key : string) (value : pyvalue) (ttl : option Q)
    (level : CacheLevel) (now : Q)
| OpGet (key : string) (default_value : pyvalue) (now : Q)
| OpDelete (key : string)
| OpCleanup (now : Q)
| OpClear.

Definition apply_op (o : op) (c : IntelligentCache) : IntelligentCache :=
  match o with
  | OpSet key value ttl level now => snd (set key value ttl level now c)
  | OpGet key default_value now => snd (get key default_value now c)
  | OpDelete key => snd (delete key c)
  | OpCleanup now => _cleanup_expired_entries now c
  | OpClear => clear c
  end.

Definition run (ops : list op) (c : IntelligentCache) : IntelligentCache :=
  fold_left (fun c o => apply_op o c) ops c.

End WithConfig.

End Cache.

(* ===================================================================== *)
(** ** The rest of the pipeline's interface                               *)
(* ===================================================================== *)
Module PipelineTools.
Import Pipeline.

(** The loop of [stop] over [self.task_futures.items()]. *)
Fixpoint stop_loop (items : list (string * Future)) : M unit :=
  match items with
  | [] => ret tt
  | (task_id, future) :: items' =>
      (if negb (fut_done future) then
         modify (fun s =>
           set_task_futures
             (<[task_id := mkFuture (fut_done future) true]> (task_futures s))
             s) ;;
         let* active := gets active_tasks in
         match active !! task_id with
         | Some l => update_task l (with_status CANCELLED)
         | None => raise (KeyError task_id)
         end
       else ret tt) ;;
      stop_loop items'
  end.

(** [stop], up to the point where it waits for the workers to finish.
    [items] is [self.task_futures.items()] in the order in which the
    dictionary yields it, an order the [gmap] of the model does not keep. *)
Definition stop (items : list (string * Future)) : M unit :=
  let* running := gets is_running in
  if negb running then ret tt else
  modify (set_is_running false) ;;
  stop_loop items.

(** [get_metrics] *)
Definition get_metrics : M PipelineMetrics :=
  modify (fun s =>
    let q := task_queues s in
    let total_queued :=
      Z.of_nat (length (q_critical q)) + Z.of_nat (length (q_high q))
      + Z.of_nat (length (q_normal q)) + Z.of_nat (length (q_low q)) in
    let m := metrics s in
    set_metrics (mkMetrics (total_tasks m) (m_completed_tasks m)
                   (failed_tasks m) (peak_concurrent_tasks m) total_queued)
      s) ;;
  gets metrics.

(** [clear_completed_tasks] *)
Definition clear_completed_tasks (s : AsyncPipeline) : AsyncPipeline :=
  set_completed_tasks ∅ s.

(** What one iteration of a polling loop comes to: the method returns, it
    raises, it executes [raise None] (a [TypeError]), or it sleeps and goes
    round again. *)
Inductive polled (A : Type) :=
| Return (a : A)
| Raises (e : exn)
| RaisesNone
| Sleeps.
Arguments Return {A} a.
Arguments Raises {A} e.
Arguments RaisesNone {A}.
Arguments Sleeps {A}.

(** [if timeout and (time.time() - start_time) > timeout] *)
Definition timed_out (timeout : option Q) (start_time now : Q) : bool :=
  match timeout with
  | None => false
  | Some t => negb (Qeq_bool t 0) && Cache.Qgtb (now - start_time) t
  end.

(** One iteration of the loop of [wait_for_task], run at time [now] in the
    state [s]. *)
Definition wait_for_task_poll (task_id : string) (timeout : option Q)
    (start_time now : Q) (s : AsyncPipeline) : polled pyvalue :=
  match completed_tasks s !! task_id with
  | Some l =>
      match heap s !! l with
      | None => Raises (RuntimeError "dangling task reference")
      | Some task =>
          match t_status task with
          | COMPLETED => Return (t_result task)
          | FAILED =>
              match t_error task with
              | Some e => Raises e
              | None => RaisesNone
              end
          | _ => Raises (RuntimeError task_id)
          end
      end
  | None =>
      if timed_out timeout start_time now
      then Raises (TimeoutError task_id)
      else Sleeps
  end.

(** A polling loop over the successive moments at which it wakes up, each
    with the state it finds; [Sleeps] when it is still asleep after the
    last of them. *)
Fixpoint polling {A} (poll : Q -> AsyncPipeline -> polled A)
    (wakeups : list (Q * AsyncPipeline)) : polled A :=
  match wakeups with
  | [] => Sleeps
  | (now, s) :: rest =>
      match poll now s with
      | Sleeps => polling poll rest
      | r => r
      end
  end.

(** [wait_for_task] *)
Definition wait_for_task (task_id : string) (timeout : option Q)
    (start_time : Q) (wakeups : list (Q * AsyncPipeline)) : polled pyvalue :=
  polling (wait_for_task_poll task_id timeout start_time) wakeups.

(** [any(self.task_queues.values())] *)
Definition any_queued (q : Queues) : bool :=
  match q_critical q, q_high q, q_normal q, q_low q with
  | [], [], [], [] => false
  | _, _, _, _ => true
  end.

(** One iteration of the loop of [wait_for_all], followed, when the loop
    ends, by the collection of the results. *)
Definition wait_for_all_poll (timeout : option Q) (start_time now : Q)
    (s : AsyncPipeline) : polled (gmap string pyvalue) :=
  if negb (bool_decide (active_tasks s = ∅)) || any_queued (task_queues s)
  then
    if timed_out timeout start_time now
    then Raises (TimeoutError "Timeout waiting for all tasks")
    else Sleeps
  else
    Return (omap (fun l =>
                    match heap s !! l with
                    | Some task =>
                        match t_status task with
                        | COMPLETED => Some (t_result task)
                        | _ => None
                        end
                    | None => None
                    end) (completed_tasks s)).

(** [wait_for_all] *)
Definition wait_for_all (timeout : option Q) (start_time : Q)
    (wakeups : list (Q * AsyncPipeline)) : polled (gmap string pyvalue) :=
  polling (wait_for_all_poll timeout start_time) wakeups.

(** [range(0, stop, step)] for [stop >= 0] *)
Definition py_range (stop step : Z) : outcome (list Z) :=
  if step =? 0 then Raise (ValueError "range() arg 3 must not be zero")
  else if step <? 0 then Ok []
  else Ok (map (fun k => Z.of_nat k * step)
             (seq 0 (Z.to_nat ((stop + step - 1) / step)))).

(** [str(n)] for an integer *)
Definition str_of_int (n : Z) : string := NilZero.string_of_int (Z.to_int n).

Section ProcessBatch.
Context {A : Type}.

(** [items[i:i + batch_size]] for [0 <= i] and [0 < batch_size] *)
Definition slice (items : list A) (i batch_size : Z) : list A :=
  take (Z.to_nat batch_size) (drop (Z.to_nat i) items).

(** The first loop of [process_batch]: one task per batch.
    [processor_func] names, for each batch, the call of the processor on
    that batch; [clock] gives the time at which the batch starting at
    index [i] is submitted. *)
Fixpoint submit_batches (items : list A) (processor_func : list A -> string)
    (batch_size : Z) (priority : TaskPriority) (clock : Z -> Q)
    (indices : list Z) : M (list string) :=
  match indices with
  | [] => ret []
  | i :: indices' =>
      let batch := slice items i batch_size in
      let task_id := ("batch_" ++ str_of_int (i / batch_size))%string in
      let* _ := submit_task task_id (processor_func batch) priority 30 3
                  None None (clock i) in
      let* task_ids := submit_batches items processor_func batch_size
                         priority clock indices' in
      ret (task_id :: task_ids)
  end.

(** [process_batch], up to the point where it starts waiting for the
    results. *)
Definition process_batch (items : list A) (processor_func : list A -> string)
    (batch_size : Z) (priority : TaskPriority) (clock : Z -> Q)
  : M (list string) :=
  match py_range (Z.of_nat (length items)) batch_size with
  | Raise e => raise e
  | Ok indices =>
      submit_batches items processor_func batch_size priority clock indices
  end.

End ProcessBatch.
End PipelineTools.

(* ===================================================================== *)
(** ** The cache's reports and the caching helpers                        *)
(* ===================================================================== *)
Module CacheTools.
Import Cache.

(** [get_stats]: refreshes [entry_count] and hands out the statistics. *)
Definition get_stats (c : IntelligentCache) : CacheStats * IntelligentCache :=
  let c' := set_stats (with_entry_count (Z.of_nat (length (memory_cache c)))
                         (stats c)) c in
  (stats c', c').

(** The dictionary returned by [get_memory_usage]. *)
Record MemoryUsage := mkUsage {
  total_entries : Z;
  total_size_bytes : Z;
  total_size_mb : Q;
  average_entry_size : Q;
  largest_entry_size : Z;
  smallest_entry_size : Z;
  memory_limit_mb : Z;
  memory_usage_percent : Q
}.

(** [max(l)] and [min(l)] of a non-empty list. *)
Definition list_max (x : Z) (l : list Z) : Z := fold_left Z.max l x.
Definition list_min (x : Z) (l : list Z) : Z := fold_left Z.min l x.

(** [sum(l)] *)
Definition list_sum (l : list Z) : Z := fold_left Z.add l 0.

(** [get_memory_usage] *)
Definition get_memory_usage (cfg : Config) (c : IntelligentCache)
  : outcome MemoryUsage :=
  let entry_sizes := map (fun p => e_size_bytes (snd p)) (memory_cache c) in
  let total := size_bytes (stats c) in
  let average :=
    match entry_sizes with
    | [] => 0%Q
    | _ :: _ => (inject_Z (list_sum entry_sizes)
                 / inject_Z (Z.of_nat (length entry_sizes)))%Q
    end in
  let largest :=
    match entry_sizes with [] => 0 | x :: l => list_max x l end in
  let smallest :=
    match entry_sizes with [] => 0 | x :: l => list_min x l end in
  match py_div (inject_Z total) (inject_Z (max_memory_mb cfg * 1024 * 1024))
  with
  | Raise e => Raise e
  | Ok ratio =>
      Ok (mkUsage (Z.of_nat (length (memory_cache c))) total
            (inject_Z total / 1024 / 1024)%Q average largest smallest
            (max_memory_mb cfg) (ratio * 100)%Q)
  end.

(** [str(v)] *)
Definition py_str (v : pyvalue) : string :=
  match v with
  | PyNone => "None"
  | PyInt z => NilZero.string_of_int (Z.to_int z)
  | PyBool true => "True"
  | PyBool false => "False"
  | PyStr s => s
  end.

(** [sep.join(parts)] *)
Fixpoint str_join (sep : string) (parts : list string) : string :=
  match parts with
  | [] => ""
  | [p] => p
  | p :: rest => p ++ sep ++ str_join sep rest
  end.

Section KeyFromParams.
(** [hashlib.sha256(s.encode()).hexdigest()] *)
Variable sha256_hexdigest : string -> string.

(** [cache_key_from_params]; [sorted(kwargs.items())]
    orders the items by their keys, which are distinct. *)
Definition cache_key_from_params (args : list pyvalue)
    (kwargs : list (string * pyvalue)) : string :=
  let key_parts :=
    map py_str args
    ++ map (fun kv => (fst kv ++ "=" ++ py_str (snd kv))%string)
         (sorted (fun x y => String.leb (fst x) (fst y)) kwargs) in
  let key_string := str_join "|" key_parts in
  if (200 <? String.length key_string)%nat
  then sha256_hexdigest key_string
  else key_string.

Variable cfg : Config.
Variable pickle_dumps_len : pyvalue -> option N.

(** The [async_wrapper] that [cached(cache, ttl, key_prefix)] puts around a
    function named [func_name].  [func] is what calling the wrapped function
    on the arguments does; the [bool] tells whether it was called.  The
    lookup happens at time [now], the store, after the function has run, at
    time [later]. *)
Definition cached (ttl : option Q) (key_prefix func_name : string)
    (func : list pyvalue -> list (string * pyvalue) -> outcome pyvalue)
    (args : list pyvalue) (kwargs : list (string * pyvalue)) (now later : Q)
    (c : IntelligentCache) : outcome pyvalue * bool * IntelligentCache :=
  let cache_key :=
    (key_prefix ++ func_name ++ "_" ++ cache_key_from_params args kwargs)%string
  in
  let '(result, c1) := get cfg pickle_dumps_len cache_key PyNone now c in
  match result with
  | PyNone =>
      match func args kwargs with
      | Raise e => (Raise e, true, c1)
      | Ok result =>
          let '(_, c2) :=
            set cfg pickle_dumps_len cache_key result ttl MEMORY later c1 in
          (Ok result, true, c2)
      end
  | _ => (Ok result, false, c1)
  end.

End KeyFromParams.
End CacheTools.

(* ===================================================================== *)
(** ** Properties of the pipeline                                         *)
(* ===================================================================== *)
Module PipelineSpec.
Import Pipeline.

(** The order in which queued tasks are drawn. *)
Definition all_queued (q : Queues) : list loc :=
  q_critical q ++ q_high q ++ q_normal q ++ q_low q.



(** *** Symbolic execution of the monadic code *)







(** *** Drawing from the queues *)

Lemma get_next_task_head s :
  fst (_get_next_task s) = Ok (head (all_queued (task_queues s)))
  /\ all_queued (task_queues (snd (_get_next_task s)))
     = tail (all_queued (task_queues s)).
Proof.
  destruct s as [r [qc qh qn ql] a f c g rv m h w e cb].
  unfold _get_next_task, all_queued.
  destruct qc; [destruct qh; [destruct qn; [destruct ql|]|]|]; cbn; auto.
Qed.





(** *** Retries *)









(** *** Cancellation *)







(** *** Dependencies of a task that fails or is cancelled *)








(** *** A Hoare logic for the state-and-exception monad

    [hoare P m Q E]: started in a state satisfying [P], [m] ends either
    normally with a result and state satisfying [Q] or with an exception in
    a state satisfying [E]. *)

Definition hoare {S A} (P : S -> Prop) (m : SE S A) (Q : A -> S -> Prop)
    (E : S -> Prop) : Prop :=
  forall s, P s ->
    match m s with
    | (Ok a, s') => Q a s'
    | (Raise _, s') => E s'
    end.

(** [m] keeps the invariant [I], whether it returns or raises. *)
Definition keeps {S A} (I : S -> Prop) (m : SE S A) : Prop :=
  hoare I m (fun _ => I) I.

Lemma hoare_ret {S A} (a : A) (Q : A -> S -> Prop) E :
  hoare (Q a) (ret a) Q E.
Proof. intros s H. exact H. Qed.

Lemma hoare_raise {S A} e (Q : A -> S -> Prop) (E : S -> Prop) :
  hoare E (raise e) Q E.
Proof. intros s H. exact H. Qed.

Lemma hoare_gets {S A} (f : S -> A) (Q : A -> S -> Prop) E :
  hoare (fun s => Q (f s) s) (gets f) Q E.
Proof. intros s H. exact H. Qed.

Lemma hoare_modify {S} (f : S -> S) (Q : unit -> S -> Prop) E :
  hoare (fun s => Q tt (f s)) (modify f) Q E.
Proof. intros s H. exact H. Qed.

Lemma hoare_bind {S A B} (P : S -> Prop) (m : SE S A) (R : A -> S -> Prop)
    (k : A -> SE S B) (Q : B -> S -> Prop) E :
  hoare P m R E -> (forall a, hoare (R a) (k a) Q E) ->
  hoare P (bind m k) Q E.
Proof.
  intros Hm Hk s HP. unfold bind. specialize (Hm s HP).
  destruct (m s) as [[a|e] s']; [apply Hk, Hm | exact Hm].
Qed.

Lemma hoare_pre {S A} (P P' : S -> Prop) (m : SE S A) Q E :
  (forall s, P' s -> P s) -> hoare P m Q E -> hoare P' m Q E.
Proof. intros HPP Hm s HP. apply Hm, HPP, HP. Qed.

Lemma hoare_post {S A} (P : S -> Prop) (m : SE S A)
    (Q Q' : A -> S -> Prop) E :
  (forall a s, Q a s -> Q' a s) -> hoare P m Q E -> hoare P m Q' E.
Proof.
  intros HQ Hm s HP. specialize (Hm s HP).
  destruct (m s) as [[a|e] s']; [apply HQ, Hm | exact Hm].
Qed.

Lemma keeps_ret {S A} (I : S -> Prop) (a : A) : keeps I (ret a).
Proof. intros s H. exact H. Qed.

Lemma keeps_raise {S A} (I : S -> Prop) e : keeps I (@raise S A e).
Proof. intros s H. exact H. Qed.

Lemma keeps_gets {S A} (I : S -> Prop) (f : S -> A) : keeps I (gets f).
Proof. intros s H. exact H. Qed.

Lemma keeps_modify {S} (I : S -> Prop) (f : S -> S) :
  (forall s, I s -> I (f s)) -> keeps I (modify f).
Proof. intros Hf s H. apply Hf, H. Qed.

Lemma keeps_bind {S A B} (I : S -> Prop) (m : SE S A) (k : A -> SE S B) :
  keeps I m -> (forall a, keeps I (k a)) -> keeps I (bind m k).
Proof. intros Hm Hk. eapply hoare_bind; [exact Hm | exact Hk]. Qed.

(** Reading the state and continuing with what was read. *)
Lemma keeps_bind_gets {S A B} (I : S -> Prop) (f : S -> A)
    (k : A -> SE S B) :
  (forall a, hoare (fun s => I s /\ a = f s) (k a) (fun _ => I) I) ->
  keeps I (bind (gets f) k).
Proof.
  intros Hk s HI. unfold bind, gets. apply (Hk (f s)). auto.
Qed.

Lemma keeps_for_each {S A} (I : S -> Prop) (l : list A)
    (body : A -> SE S unit) :
  (forall x, keeps I (body x)) -> keeps I (for_each l body).
Proof.
  intros Hb. induction l as [|x l IH]; cbn.
  - apply keeps_ret.
  - apply keeps_bind; [apply Hb | intros _; exact IH].
Qed.

Lemma keeps_try_finally {S A} (I : S -> Prop) (body : SE S A)
    (fin : SE S unit) :
  keeps I body -> keeps I fin -> keeps I (try_finally body fin).
Proof.
  intros Hb Hf s HI. unfold try_finally. specialize (Hb s HI).
  destruct (body s) as [[a|e] s1]; specialize (Hf s1 Hb);
    destruct (fin s1) as [[u|e'] s2]; exact Hf.
Qed.

Lemma keeps_state {S A} (I : S -> Prop) (m : SE S A) s :
  keeps I m -> I s -> I (snd (m s)).
Proof.
  intros Hm HI. specialize (Hm s HI). destruct (m s) as [[a|e] s']; exact Hm.
Qed.

Lemma hoare_modify_pre {S} (P : S -> Prop) (f : S -> S)
    (Q : unit -> S -> Prop) E :
  (forall s, P s -> Q tt (f s)) -> hoare P (modify f) Q E.
Proof. intros H s HP. apply H, HP. Qed.

Lemma keeps_weaken {S A} (I P : S -> Prop) (m : SE S A) :
  (forall s, P s -> I s) -> keeps I m -> hoare P m (fun _ => I) I.
Proof. intros HPI Hm. eapply hoare_pre; [exact HPI | exact Hm]. Qed.

(** *** The dependency indexes record declared edges only *)



(** Field updates that leave identities and declared dependencies alone. *)
Definition keeps_identity (f : PipelineTask -> PipelineTask) : Prop :=
  forall t, t_id (f t) = t_id t /\ t_dependencies (f t) = t_dependencies t.






Lemma identity_with_status st : keeps_identity (with_status st).
Proof. intros t. split; reflexivity. Qed.
Lemma identity_with_started_at x : keeps_identity (with_started_at x).
Proof. intros t. split; reflexivity. Qed.
Lemma identity_with_completed_at x : keeps_identity (with_completed_at x).
Proof. intros t. split; reflexivity. Qed.
Lemma identity_with_result x : keeps_identity (with_result x).
Proof. intros t. split; reflexivity. Qed.
Lemma identity_with_error x : keeps_identity (with_error x).
Proof. intros t. split; reflexivity. Qed.
Lemma identity_with_retry_count (g : PipelineTask -> Z) :
  keeps_identity (fun t => with_retry_count (g t) t).
Proof. intros t. split; reflexivity. Qed.

Create HintDb edges.

#[local] Hint Resolve identity_with_status identity_with_started_at
  identity_with_completed_at identity_with_result identity_with_error
  identity_with_retry_count : edges.



















(** *** A task that depends on itself *)





Lemma elem_of_all_queued_push p q l l' :
  l' ∈ all_queued (set_queue p (queue_of p q ++ [l]) q)
  <-> l' ∈ all_queued q \/ l' = l.
Proof.
  destruct q as [qc qh qn ql], p; unfold all_queued; cbn;
    rewrite ?elem_of_app, ?list_elem_of_singleton; tauto.
Qed.

Lemma elem_of_all_queued_pop p q l rest l' :
  queue_of p q = l :: rest ->
  l' ∈ all_queued (set_queue p rest q) -> l' ∈ all_queued q.
Proof.
  destruct q as [qc qh qn ql], p; unfold all_queued; cbn; intros ->;
    rewrite ?elem_of_app, ?elem_of_cons; tauto.
Qed.



















Lemma elem_of_remove_first l x ls : x ∈ remove_first l ls -> x ∈ ls.
Proof.
  induction ls as [|y ls IH]; cbn; [auto|].
  destruct (Nat.eqb y l).
  - intros H. apply elem_of_cons. now right.
  - intros H. apply elem_of_cons in H as [->|H]; apply elem_of_cons;
      [now left | right; auto].
Qed.



(** The state in which [submit_task] leaves a task that it registers under
    its first dependency [d] that is not in [completed_tasks]. *)
Definition registered_under (d task_id : string) (l : loc)
    (all_deps : list string) (s : AsyncPipeline) : AsyncPipeline :=
  let r := reverse_dependencies s in
  let r1 := match r !! d with
            | None => <[d := []]> r
            | Some _ => r
            end in
  set_active_tasks (<[task_id := l]> (active_tasks s))
    (set_dependency_graph (<[task_id := all_deps]> (dependency_graph s))
       (set_reverse_dependencies
          (<[d := default [] (r1 !! d) ++ [task_id]]> r1) s)).

Lemma submit_dependency_loop_registers task_id l all_deps rest s :
  (exists d, d ∈ rest /\ completed_tasks s !! d = None) ->
  exists d, d ∈ rest /\ completed_tasks s !! d = None
            /\ submit_dependency_loop task_id l all_deps rest s
               = (Ok true, registered_under d task_id l all_deps s).
Proof.
  induction rest as [|dep_id rest IH]; intros (d & Hd & Hc).
  - apply elem_of_nil in Hd. contradiction.
  - cbn [submit_dependency_loop]. unfold bind at 1. unfold gets at 1.
    destruct (completed_tasks s !! dep_id) as [l0|] eqn:Hdep.
    + apply elem_of_cons in Hd as [->|Hd]; [congruence|].
      destruct IH as (d' & Hd' & Hc' & Hloop); [eauto|].
      exists d'. split; [apply elem_of_cons; now right|]. auto.
    + exists dep_id. split; [apply elem_of_cons; now left|].
      split; [exact Hdep | reflexivity].
Qed.

Lemma submit_task_unresolved s task_id func priority timeout max_retries
    deps callback now :
  is_running s = true ->
  active_tasks s !! task_id = None ->
  completed_tasks s !! task_id = None ->
  (exists d, d ∈ deps /\ completed_tasks s !! d = None) ->
  let task := mkTask task_id func priority timeout 0 max_retries PENDING now
                None None PyNone None deps callback in
  exists d, d ∈ deps /\ completed_tasks s !! d = None
    /\ submit_task task_id func priority timeout max_retries (Some deps)
         callback now s
       = (Ok task_id,
          registered_under d task_id (length (heap s)) deps
            (set_heap (heap s ++ [task]) s)).
Proof.
  intros Hrun Ha Hc Hd task.
  destruct (submit_dependency_loop_registers task_id (length (heap s)) deps
              deps (set_heap (heap s ++ [task]) s) Hd)
    as (d & Hin & Hcd & Hloop).
  exists d. split; [exact Hin|]. split; [exact Hcd|].
  unfold submit_task. unfold bind at 1. unfold gets at 1.
  rewrite Hrun. cbn [negb].
  unfold bind at 1. unfold gets at 1. unfold bind at 1. unfold gets at 1.
  rewrite Ha, Hc.
  rewrite !bool_decide_eq_false_2 by (intros [? ?]; discriminate).
  cbn [orb].
  unfold bind at 1. unfold gets at 1. unfold bind at 1. unfold modify at 1.
  unfold bind at 1. cbn [t_dependencies default]. unfold id. fold task.
  rewrite Hloop. reflexivity.
Qed.




End PipelineSpec.

(* ===================================================================== *)
(** ** Properties of the cache                                            *)
(* ===================================================================== *)
Module CacheSpec.
Import Cache.

Section Hits.
Variable cfg : Config.
Variable pickle_dumps_len : pyvalue -> option N.

Ltac cunfold :=
  unfold get, get_body, set, _set_memory, disk_lookup, sanitize_filename,
    bind, gets, modify, ret, raise.

(** *** Ordered dictionaries *)

Lemma od_get_set {V} k (v : V) d : od_get k (od_set k v d) = Some v.
Proof.
  induction d as [|[k' v'] d IH]; cbn.
  - now rewrite String.eqb_refl.
  - destruct (String.eqb_spec k' k); cbn.
    + subst. now rewrite String.eqb_refl.
    + destruct (String.eqb_spec k' k); congruence.
Qed.

Lemma disk_lookup_absent key now c :
  enable_disk_cache cfg = false \/ disk c !! key = None ->
  disk_lookup cfg key now c = (Ok PyNone, c).
Proof.
  intros Hd. unfold disk_lookup, _get_from_disk.
  destruct (enable_disk_cache cfg); cbn; [|reflexivity].
  destruct Hd as [|Hd]; [discriminate|]. now rewrite Hd.
Qed.

(** *** Hits and misses *)

Lemma get_hit key default_value now c entry :
  od_get key (memory_cache c) = Some entry ->
  is_expired now entry = false ->
  let r := get cfg pickle_dumps_len key default_value now c in
  fst r = e_value entry
  /\ hits (stats (snd r)) = hits (stats c) + 1
  /\ misses (stats (snd r)) = misses (stats c).
Proof.
  intros H He. cunfold. cbn. rewrite H, He. cbn. unfold _update_hit_rate. cbn.
  match goal with |- context [if ?b then _ else _] => destruct b end;
    cbn; auto.
Qed.

Lemma schedule_prefetch_stats key c :
  stats (_schedule_prefetch cfg key c) = stats c.
Proof.
  unfold _schedule_prefetch. destruct (prefetch_enabled cfg); cbn; auto.
  generalize (take 3 (_find_related_keys key c)). intros l.
  revert c. induction l as [|x l IH]; intros c; cbn; auto.
  rewrite IH. destruct (od_get x (memory_cache c)); reflexivity.
Qed.

Lemma get_miss key default_value now c :
  od_get key (memory_cache c) = None ->
  enable_disk_cache cfg = false \/ disk c !! key = None ->
  let r := get cfg pickle_dumps_len key default_value now c in
  fst r = default_value
  /\ hits (stats (snd r)) = hits (stats c)
  /\ misses (stats (snd r)) = misses (stats c) + 1.
Proof.
  intros H Hd. cunfold. cbn. rewrite H.
  fold (disk_lookup cfg key now c). rewrite (disk_lookup_absent _ _ _ Hd).
  cbn. unfold _update_hit_rate. cbn.
  destruct (prefetch_enabled cfg); cbn;
    rewrite ?schedule_prefetch_stats; cbn;
    match goal with |- context [if ?b then _ else _] => destruct b end;
    cbn; auto.
Qed.

(** C10: when the hot tier holds an unexpired entry for [key] whose value
    equals the caller's default (for instance a stored [None] with the
    default left at [None]), [get] returns that default, exactly the value
    it returns on a miss of the same key (absent from the hot tier and from
    the disk tier); the two calls differ in the statistics: the hit
    increments [hits] and leaves [misses], the miss increments [misses] and
    leaves [hits]. *)
Theorem get_hit_equal_to_default_looks_like_miss
    key default_value now c_hit c_miss entry :
  od_get key (memory_cache c_hit) = Some entry ->
  is_expired now entry = false ->
  e_value entry = default_value ->
  od_get key (memory_cache c_miss) = None ->
  enable_disk_cache cfg = false \/ disk c_miss !! key = None ->
  let hit := get cfg pickle_dumps_len key default_value now c_hit in
  let miss := get cfg pickle_dumps_len key default_value now c_miss in
  fst hit = default_value
  /\ fst miss = default_value
  /\ fst hit = fst miss
  /\ hits (stats (snd hit)) = hits (stats c_hit) + 1
  /\ misses (stats (snd hit)) = misses (stats c_hit)
  /\ hits (stats (snd miss)) = hits (stats c_miss)
  /\ misses (stats (snd miss)) = misses (stats c_miss) + 1.
Proof.
  intros Hh He Hv Hm Hd hit miss.
  destruct (get_hit key default_value now c_hit entry Hh He) as (A1 & A2 & A3).
  destruct (get_miss key default_value now c_miss Hm Hd) as (B1 & B2 & B3).
  subst hit miss. rewrite A1, B1, Hv. repeat split; assumption.
Qed.

End Hits.

(** A small configuration used in the examples: a budget of 1 MiB, a
    default TTL of one hour, no disk tier. *)
Definition demo_config (st : CacheStrategy) : Config :=
  mkConfig 1 (Some 3600%Q) st false true.

(** A size function for the examples: strings are charged their length,
    integers their magnitude, everything else 4 bytes. *)
Definition demo_size (v : pyvalue) : option N :=
  match v with
  | PyStr s => Some (N.of_nat (String.length s))
  | PyInt z => Some (Z.to_N z)
  | _ => Some 4%N
  end.

Lemma get_hit_equal_to_default_looks_like_miss_witness :
  let c_hit :=
    snd (set (demo_config LRU) demo_size "k" PyNone None MEMORY 0 init) in
  let hit := get (demo_config LRU) demo_size "k" PyNone 1 c_hit in
  let miss := get (demo_config LRU) demo_size "k" PyNone 1 init in
  fst hit = PyNone /\ fst miss = PyNone
  /\ hits (stats (snd hit)) = 1 /\ misses (stats (snd miss)) = 1.
Proof.
  intros c_hit hit miss.
  destruct (get_hit_equal_to_default_looks_like_miss (demo_config LRU)
              demo_size "k" PyNone 1 c_hit init
              (mkEntry "k" PyNone 0 0 0 (Some 3600%Q) 4))
    as (H1 & H2 & _ & H4 & _ & _ & H7);
    try (vm_compute; reflexivity).
  - left. reflexivity.
  - repeat split; assumption.
Defined.

(** *** Expiry *)
Section Expiry.
Variable cfg : Config.
Variable pickle_dumps_len : pyvalue -> option N.

Ltac cunfold :=
  unfold get, get_body, set, _set_memory, disk_lookup, sanitize_filename,
    bind, gets, modify, ret, raise.

Lemma set_memory_stores key value ttl now c c' b :
  _set_memory cfg pickle_dumps_len key value ttl now c = (Ok b, c') ->
  b = true
  /\ od_get key (memory_cache c')
     = Some (mkEntry key value now now 0 ttl
               (entry_size pickle_dumps_len value)).
Proof.
  cunfold. cbn.
  destruct (_would_exceed_memory_limit cfg _ c).
  - destruct (_evict_entries cfg _ now c) as [[u|e] c1]; cbn; [|discriminate].
    intros [= <- <-]. cbn. split; [reflexivity | apply od_get_set].
  - cbn. intros [= <- <-]. cbn. split; [reflexivity | apply od_get_set].
Qed.


Lemma get_expired key default_value now c entry :
  od_get key (memory_cache c) = Some entry ->
  is_expired now entry = true ->
  fst (get cfg pickle_dumps_len key default_value now c) = default_value.
Proof. intros H He. cunfold. cbn. now rewrite H, He. Qed.

Lemma get_fresh key default_value now c entry :
  od_get key (memory_cache c) = Some entry ->
  is_expired now entry = false ->
  fst (get cfg pickle_dumps_len key default_value now c) = e_value entry.
Proof. intros H He. cunfold. cbn. now rewrite H, He. Qed.


Lemma Qgtb_false a b : Qgtb a b = false <-> (a <= b)%Q.
Proof.
  unfold Qgtb, Qltb. rewrite negb_false_iff. apply Qle_bool_iff.
Qed.


End Expiry.



(** *** Prefetching *)
Section Prefetch.
Variable cfg : Config.
Variable pickle_dumps_len : pyvalue -> option N.

(** [set] and the evictions it triggers never invoke a callback. *)
Lemma evict_one_log key entry c :
  prefetch_log (evict_one key entry c) = prefetch_log c.
Proof. reflexivity. Qed.

Lemma set_disk_log key value ttl now c :
  prefetch_log (snd (_set_disk cfg key value ttl now c)) = prefetch_log c.
Proof. unfold _set_disk. destruct (enable_disk_cache cfg); reflexivity. Qed.

Lemma evict_lru_log needed now c :
  prefetch_log (_evict_lru cfg needed now c) = prefetch_log c.
Proof.
  unfold _evict_lru.
  generalize (lru_keys_to_remove (memory_cache c) 0 needed). intros keys.
  revert c. induction keys as [|k keys IH]; intros c; cbn; [reflexivity|].
  rewrite IH. destruct (od_get k (memory_cache c)); [|reflexivity].
  rewrite evict_one_log.
  destruct (enable_disk_cache cfg && (1 <? e_access_count c0));
    [apply set_disk_log | reflexivity].
Qed.

Lemma evict_sorted_log {A} (entry_of : A -> string * CacheEntry) save l
    freed needed now c :
  prefetch_log (evict_sorted cfg entry_of save l freed needed now c)
  = prefetch_log c.
Proof.
  revert freed c. induction l as [|x l IH]; intros freed c; cbn;
    [reflexivity|].
  destruct (entry_of x) as [key entry].
  assert (H : prefetch_log
                (evict_one key entry
                   (if save x
                    then snd (_set_disk cfg key (e_value entry) (e_ttl entry)
                                now c)
                    else c)) = prefetch_log c).
  { rewrite evict_one_log. destruct (save x);
      [apply set_disk_log | reflexivity]. }
  destruct (needed <=? freed + e_size_bytes entry); [exact H|].
  rewrite IH. exact H.
Qed.

Lemma evict_entries_log needed now c :
  prefetch_log (snd (_evict_entries cfg needed now c)) = prefetch_log c.
Proof.
  unfold _evict_entries, modify, _evict_lfu, _evict_ttl, _evict_adaptive.
  destruct (strategy cfg); cbn;
    [apply evict_lru_log | apply evict_sorted_log | apply evict_sorted_log |].
  destruct (score_entries _ _ _); cbn; [apply evict_sorted_log | reflexivity].
Qed.

Lemma set_log key value ttl level now c :
  prefetch_log (snd (set cfg pickle_dumps_len key value ttl level now c))
  = prefetch_log c.
Proof.
  unfold set, sanitize_filename. cbv zeta.
  assert (Hm : forall t,
    prefetch_log (snd (_set_memory cfg pickle_dumps_len key value t now c))
    = prefetch_log c).
  { intros t. unfold _set_memory, bind, gets, modify, ret.
    destruct (_would_exceed_memory_limit cfg _ c); cbn.
    - pose proof (evict_entries_log (entry_size pickle_dumps_len value) now c)
        as He.
      destruct (_evict_entries cfg _ now c) as [[u|e] c1]; cbn in *; auto.
      destruct (od_get key (memory_cache c1)); cbn; auto.
    - destruct (od_get key (memory_cache c)); cbn; auto. }
  destruct level.
  - specialize (Hm (match ttl with None => default_ttl cfg | Some _ => ttl end)).
    destruct (_set_memory _ _ _ _ _ _ _) as [[b|e] c1]; exact Hm.
  - apply set_disk_log.
  - specialize (Hm (match ttl with None => default_ttl cfg | Some _ => ttl end)).
    destruct (_set_memory _ _ _ _ _ _ _) as [[b|e] c1]; exact Hm.
Qed.

(** [pattern in key] is substring containment. *)
Lemma append_cons a (p b : string) :
  (String a p ++ b)%string = String a (p ++ b)%string.
Proof. reflexivity. Qed.

Lemma append_nil (b : string) : ("" ++ b)%string = b.
Proof. reflexivity. Qed.

Lemma prefix_app p k :
  String.prefix p k = true <-> exists b, k = (p ++ b)%string.
Proof.
  revert k. induction p as [|a p IH]; intros k.
  - split; [intros _; exists k; reflexivity
           | intros _; destruct k; reflexivity].
  - destruct k as [|a' k]; cbn.
    + split; [discriminate | intros [b Hb]; discriminate].
    + destruct (Ascii.ascii_dec a a') as [->|Hne].
      * rewrite IH. split; intros [b Hb]; exists b;
          rewrite append_cons in *; congruence.
      * split; [discriminate
               | intros [b Hb]; rewrite append_cons in Hb; congruence].
Qed.

Lemma str_contains_substring p k :
  str_contains p k = true <-> exists a b, k = (a ++ p ++ b)%string.
Proof.
  induction k as [|x k IH]; cbn [str_contains].
  - rewrite orb_false_r, prefix_app. split.
    + intros [b Hb]. exists ""%string, b. exact Hb.
    + intros (a & b & Hab). destruct a as [|y a];
        [rewrite append_nil in Hab; eauto
        | rewrite append_cons in Hab; discriminate].
  - rewrite orb_true_iff, prefix_app, IH. split.
    + intros [[b Hb] | (a & b & Hab)].
      * exists ""%string, b. exact Hb.
      * exists (String x a), b. rewrite append_cons. congruence.
    + intros (a & b & Hab). destruct a as [|y a].
      * left. rewrite append_nil in Hab. eauto.
      * right. rewrite append_cons in Hab. exists a, b. congruence.
Qed.

(** C8 (as the code has it): a registered pattern matches a prefetched key
    when it occurs anywhere in the key (substring containment, not prefix).
    Registration keeps the callbacks in the order in which their patterns
    were first registered (registering a pattern again replaces its
    callback in place).  For a prefetched key only the first matching
    pattern counts: its callback is the only one invoked; if it returns a
    value other than [None] that value is stored under the key with [set],
    and if it returns [None] or raises nothing is stored.  No callback after
    it is invoked, whatever the first one returned, and with no matching
    pattern nothing happens. *)
Theorem prefetch_first_substring_match_only callbacks key now c :
  (forall pattern, str_contains pattern key = true
                   <-> exists a b, key = (a ++ pattern ++ b)%string)
  /\ (forall pattern cb c0,
        prefetch_callbacks (register_prefetch_callback pattern cb c0)
        = od_set pattern cb (prefetch_callbacks c0))
  /\ match List.find (fun pc => str_contains (fst pc) key) callbacks with
     | None => prefetch_dispatch cfg pickle_dumps_len callbacks key now c = c
     | Some (pattern, cb) =>
         let c1 := set_prefetch_log (prefetch_log c ++ [(pattern, key)]) c in
         prefetch_dispatch cfg pickle_dumps_len callbacks key now c
         = match cb key with
           | Ok PyNone => c1
           | Ok value =>
               snd (set cfg pickle_dumps_len key value None MEMORY now c1)
           | Raise _ => c1
           end
         /\ prefetch_log
              (prefetch_dispatch cfg pickle_dumps_len callbacks key now c)
            = prefetch_log c ++ [(pattern, key)]
     end.
Proof.
  split; [intros pattern; apply str_contains_substring|].
  split; [reflexivity|].
  induction callbacks as [|[pattern cb] callbacks IH];
    cbn [List.find prefetch_dispatch fst]; [reflexivity|].
  destruct (str_contains pattern key); [|exact IH].
  split; [reflexivity|].
  destruct (cb key) as [[]|]; try reflexivity; now rewrite set_log.
Qed.

End Prefetch.

(** C8, as stated, fails: ["ser:"] is not a prefix of ["user:42"] but occurs
    in it, so its callback is invoked; it returns [None], and the callback
    registered for the prefix ["user:"], which would produce a value, is
    never invoked: nothing is stored under the key. *)
Lemma prefetch_prefix_and_fallthrough_counterexample :
  let cfg := demo_config LRU in
  let c0 :=
    register_prefetch_callback "user:" (fun k => Ok (PyStr k))
      (register_prefetch_callback "ser:" (fun _ => Ok PyNone) init) in
  let c1 :=
    prefetch_worker_turn cfg demo_size 0
      (set_prefetch_queue ["user:42"%string] c0) in
  String.prefix "ser:" "user:42" = false
  /\ String.prefix "user:" "user:42" = true
  /\ prefetch_log c1 = [("ser:", "user:42")]%string
  /\ od_get "user:42" (memory_cache c1) = None.
Proof. vm_compute. repeat split; reflexivity. Qed.

Lemma prefetch_first_substring_match_only_witness :
  let callbacks : list (string * callback) :=
    [("ser:"%string, fun _ => Ok PyNone);
     ("user:"%string, fun k => Ok (PyStr k))] in
  prefetch_log
    (prefetch_dispatch (demo_config LRU) demo_size callbacks "user:42" 0 init)
  = [("ser:", "user:42")]%string.
Proof.
  intros callbacks.
  pose proof (prefetch_first_substring_match_only (demo_config LRU) demo_size
                callbacks "user:42" 0 init) as (_ & _ & H).
  change (List.find (fun pc => str_contains (fst pc) "user:42") callbacks)
    with (Some ("ser:"%string, fun _ : string => @Ok pyvalue PyNone)) in H.
  destruct H as [_ H]. exact H.
Defined.

(** *** The memory budget *)

(** The bytes charged to a list of entries ([hot_bytes] of a cache is that
    of its [memory_cache]). *)
Fixpoint sum_sizes (d : list (string * CacheEntry)) : Z :=
  match d with
  | [] => 0
  | p :: d' => e_size_bytes (snd p) + sum_sizes d'
  end.

Lemma hot_bytes_sum c : hot_bytes c = sum_sizes (memory_cache c).
Proof.
  unfold hot_bytes. induction (memory_cache c) as [|p d IH]; cbn;
    [reflexivity | now rewrite IH].
Qed.

Definition keys {V} (d : list (string * V)) : list string := map fst d.

Section OrderedDictFacts.
Context {V : Type}.
Implicit Types (d : list (string * V)) (k : string) (v : V).

Lemma od_get_elem k v d : od_get k d = Some v -> (k, v) ∈ d.
Proof.
  induction d as [|[k' v'] d IH]; cbn; [discriminate|].
  destruct (String.eqb_spec k' k) as [->|Hne].
  - intros [= ->]. apply elem_of_cons. now left.
  - intros H. apply elem_of_cons. right. auto.
Qed.

Lemma od_get_None k d : od_get k d = None <-> k ∉ keys d.
Proof.
  induction d as [|[k' v'] d IH]; cbn.
  - split; [intros _ H; apply elem_of_nil in H; exact H | reflexivity].
  - rewrite not_elem_of_cons. destruct (String.eqb_spec k' k) as [->|Hne].
    + split; [discriminate | intros [H _]; congruence].
    + rewrite IH. split; [intros H; split; [congruence | exact H] | tauto].
Qed.

Lemma od_get_nodup k v d : NoDup (keys d) -> (k, v) ∈ d -> od_get k d = Some v.
Proof.
  induction d as [|[k' v'] d IH]; cbn; intros Hnd Hin.
  - apply elem_of_nil in Hin. contradiction.
  - apply NoDup_cons in Hnd as [Hk Hnd].
    apply elem_of_cons in Hin as [Heq|Hin].
    + injection Heq as -> ->. now rewrite String.eqb_refl.
    + destruct (String.eqb_spec k' k) as [->|Hne]; [|auto].
      exfalso. apply Hk. apply (list_elem_of_fmap_2 fst _ _ Hin).
Qed.

Lemma od_del_elem k d p : p ∈ od_del k d -> p ∈ d.
Proof.
  induction d as [|[k' v'] d IH]; cbn; [auto|].
  destruct (String.eqb k' k).
  - intros H. apply elem_of_cons. now right.
  - intros H. apply elem_of_cons in H as [->|H]; apply elem_of_cons;
      [now left | right; auto].
Qed.

Lemma od_del_keys k d k' : k' ∈ keys (od_del k d) -> k' ∈ keys d.
Proof.
  intros H. apply list_elem_of_fmap in H as (p & -> & Hp).
  apply list_elem_of_fmap_2. eapply od_del_elem; eauto.
Qed.

Lemma od_del_nodup k d : NoDup (keys d) -> NoDup (keys (od_del k d)).
Proof.
  induction d as [|[k' v'] d IH]; cbn; [auto|]. intros Hnd.
  apply NoDup_cons in Hnd as [Hk Hnd].
  destruct (String.eqb k' k); [exact Hnd|].
  cbn. apply NoDup_cons. split; [|auto].
  intros H. apply Hk. eapply od_del_keys; eauto.
Qed.

Lemma od_get_del_ne k k' d : k' <> k -> od_get k' (od_del k d) = od_get k' d.
Proof.
  intros Hne. induction d as [|[k0 v0] d IH]; cbn; [reflexivity|].
  destruct (String.eqb_spec k0 k) as [->|H0].
  - destruct (String.eqb_spec k k'); [congruence | reflexivity].
  - cbn. now rewrite IH.
Qed.

Lemma od_get_del_eq k d : NoDup (keys d) -> od_get k (od_del k d) = None.
Proof.
  induction d as [|[k0 v0] d IH]; cbn; [reflexivity|]. intros Hnd.
  apply NoDup_cons in Hnd as [Hk Hnd].
  destruct (String.eqb_spec k0 k) as [->|H0].
  - now apply od_get_None.
  - cbn. destruct (String.eqb_spec k0 k); [congruence | auto].
Qed.

Lemma od_del_absent k d : od_get k d = None -> od_del k d = d.
Proof.
  induction d as [|[k0 v0] d IH]; cbn; [reflexivity|].
  destruct (String.eqb k0 k); [discriminate|]. intros H. now rewrite IH.
Qed.

Lemma od_del_keys_ne k d k' :
  k' ∈ keys d -> k' <> k -> k' ∈ keys (od_del k d).
Proof.
  intros Hin Hne. induction d as [|[k0 v0] d IH]; cbn in *; [exact Hin|].
  apply elem_of_cons in Hin as [->|Hin].
  - destruct (String.eqb_spec k0 k); [congruence|].
    cbn. apply elem_of_cons. now left.
  - destruct (String.eqb k0 k); [exact Hin|].
    cbn. apply elem_of_cons. right. auto.
Qed.

Lemma od_set_elem k v d p : p ∈ od_set k v d -> p = (k, v) \/ p ∈ d.
Proof.
  induction d as [|[k0 v0] d IH]; cbn.
  - intros H. apply list_elem_of_singleton in H. now left.
  - destruct (String.eqb_spec k0 k) as [->|H0]; intros H;
      apply elem_of_cons in H as [->|H].
    + now left.
    + right. apply elem_of_cons. now right.
    + right. apply elem_of_cons. now left.
    + destruct (IH H) as [->|H']; [now left|].
      right. apply elem_of_cons. now right.
Qed.

Lemma od_set_keys k v d k' : k' ∈ keys (od_set k v d) -> k' = k \/ k' ∈ keys d.
Proof.
  intros H. apply list_elem_of_fmap in H as (p & -> & Hp).
  apply od_set_elem in Hp as [->|Hp]; [now left|].
  right. now apply list_elem_of_fmap_2.
Qed.

Lemma od_set_nodup k v d : NoDup (keys d) -> NoDup (keys (od_set k v d)).
Proof.
  induction d as [|[k0 v0] d IH]; cbn; intros Hnd.
  - apply NoDup_cons. split; [apply not_elem_of_nil | apply NoDup_nil_2].
  - apply NoDup_cons in Hnd as [Hk Hnd].
    destruct (String.eqb_spec k0 k) as [->|H0]; cbn.
    + apply NoDup_cons. auto.
    + apply NoDup_cons. split; [|auto].
      intros H. apply od_set_keys in H as [->|H]; [congruence | auto].
Qed.

Lemma od_del_or k v d p :
  od_get k d = Some v -> p ∈ d -> p ∈ od_del k d \/ p = (k, v).
Proof.
  induction d as [|[k0 v0] d IH]; cbn; [discriminate|].
  destruct (String.eqb_spec k0 k) as [->|H0].
  - intros [= ->] Hin. apply elem_of_cons in Hin as [->|Hin]; auto.
  - intros Hg Hin. apply elem_of_cons in Hin as [->|Hin].
    + left. apply elem_of_cons. now left.
    + destruct (IH Hg Hin) as [H| ->]; [left|right; auto].
      apply elem_of_cons. now right.
Qed.

Lemma od_move_to_end_elem k d p : p ∈ od_move_to_end k d <-> p ∈ d.
Proof.
  unfold od_move_to_end. destruct (od_get k d) as [v|] eqn:Hg; [|tauto].
  rewrite elem_of_app, list_elem_of_singleton. split.
  - intros [H| ->]; [eapply od_del_elem; eauto | now apply od_get_elem].
  - now apply od_del_or.
Qed.

Lemma od_move_to_end_nodup k d :
  NoDup (keys d) -> NoDup (keys (od_move_to_end k d)).
Proof.
  intros Hnd. unfold od_move_to_end.
  destruct (od_get k d) as [v|] eqn:Hg; [|exact Hnd].
  unfold keys. rewrite map_app. cbn. apply NoDup_app.
  split; [now apply od_del_nodup|]. split; [|apply NoDup_singleton].
  intros k' Hk' Hin. apply list_elem_of_singleton in Hin as ->.
  apply (proj1 (od_get_None k (od_del k d))); [|exact Hk'].
  now apply od_get_del_eq.
Qed.
End OrderedDictFacts.

Lemma sum_sizes_app d1 d2 : sum_sizes (d1 ++ d2) = sum_sizes d1 + sum_sizes d2.
Proof. induction d1 as [|p d1 IH]; cbn; [reflexivity | rewrite IH; lia]. Qed.

Lemma sum_sizes_del k e d :
  od_get k d = Some e -> sum_sizes (od_del k d) = sum_sizes d - e_size_bytes e.
Proof.
  induction d as [|[k0 e0] d IH]; cbn; [discriminate|].
  destruct (String.eqb k0 k).
  - intros [= ->]. lia.
  - intros H. cbn. rewrite (IH H). lia.
Qed.

Lemma sum_sizes_set k e d :
  sum_sizes (od_set k e d)
  = sum_sizes d
    - match od_get k d with Some old => e_size_bytes old | None => 0 end
    + e_size_bytes e.
Proof.
  induction d as [|[k0 e0] d IH]; cbn; [lia|].
  destruct (String.eqb k0 k); cbn; [lia | rewrite IH; lia].
Qed.

Lemma sum_sizes_move_to_end k d :
  sum_sizes (od_move_to_end k d) = sum_sizes d.
Proof.
  unfold od_move_to_end. destruct (od_get k d) as [e|] eqn:Hg; [|reflexivity].
  rewrite sum_sizes_app, (sum_sizes_del _ _ _ Hg). cbn. lia.
Qed.

Lemma sum_sizes_nonneg d :
  (forall p, p ∈ d -> 0 <= e_size_bytes (snd p)) -> 0 <= sum_sizes d.
Proof.
  induction d as [|p d IH]; cbn; intros H; [lia|].
  assert (0 <= e_size_bytes (snd p)) by (apply H, elem_of_cons; now left).
  assert (0 <= sum_sizes d)
    by (apply IH; intros q Hq; apply H, elem_of_cons; now right).
  lia.
Qed.

Lemma od_del_elem_ne {V} (k : string) (d : list (string * V)) p :
  p ∈ d -> fst p <> k -> p ∈ od_del k d.
Proof.
  intros Hin Hne. induction d as [|[k0 v0] d IH]; cbn in *; [exact Hin|].
  apply elem_of_cons in Hin as [->|Hin].
  - cbn in Hne. destruct (String.eqb_spec k0 k); [congruence|].
    apply elem_of_cons. now left.
  - destruct (String.eqb k0 k); [exact Hin|].
    apply elem_of_cons. right. auto.
Qed.

Lemma sorted_insert_perm {A} (leb : A -> A -> bool) x l :
  insert_sorted leb x l ≡ₚ x :: l.
Proof.
  induction l as [|y l IH]; cbn; [reflexivity|].
  destruct (leb x y); [reflexivity|].
  rewrite IH. apply Permutation_swap.
Qed.

Lemma sorted_perm {A} (leb : A -> A -> bool) l : sorted leb l ≡ₚ l.
Proof.
  induction l as [|x l IH]; cbn; [reflexivity|].
  rewrite sorted_insert_perm. now rewrite IH.
Qed.

Section Budget.
Variable cfg : Config.
Variable pickle_dumps_len : pyvalue -> option N.

Abbreviation entry_size := (entry_size pickle_dumps_len).
Abbreviation max_bytes := (max_bytes cfg).

Lemma entry_size_nonneg v : 0 <= entry_size v.
Proof. unfold Cache.entry_size. destruct (pickle_dumps_len v); lia. Qed.

(** One entry leaves the hot tier, saved to disk first when [save]. *)
Definition evict_step (save : bool) (key : string) (entry : CacheEntry)
    (now : Q) (c : IntelligentCache) : IntelligentCache :=
  evict_one key entry
    (if save then snd (_set_disk cfg key (e_value entry) (e_ttl entry) now c)
     else c).

(** What an eviction does to the cache [c], leaving [c']: it only removes
    entries, the byte counter drops by the bytes removed, and a file
    appearing on disk holds the value of a removed entry. *)
Record evicts (c c' : IntelligentCache) : Prop := {
  ev_nodup : NoDup (keys (memory_cache c'));
  ev_subset : forall p, p ∈ memory_cache c' -> p ∈ memory_cache c;
  ev_counter : sum_sizes (memory_cache c) - sum_sizes (memory_cache c')
               = size_bytes (stats c) - size_bytes (stats c');
  ev_disk : forall k d, disk c' !! k = Some d ->
            disk c !! k = Some d
            \/ exists p, p ∈ memory_cache c /\ d_value d = e_value (snd p)
}.

Lemma evicts_refl c : NoDup (keys (memory_cache c)) -> evicts c c.
Proof. intros H. split; [exact H | auto | lia | auto]. Qed.

Lemma evicts_trans c1 c2 c3 : evicts c1 c2 -> evicts c2 c3 -> evicts c1 c3.
Proof.
  intros [A1 A2 A3 A4] [B1 B2 B3 B4]. split; auto.
  - lia.
  - intros k d Hd. destruct (B4 k d Hd) as [H|(p & Hp & Hv)]; [auto|].
    right. exists p. auto.
Qed.

Lemma evict_step_evicts save key entry now c :
  NoDup (keys (memory_cache c)) ->
  od_get key (memory_cache c) = Some entry ->
  let c' := evict_step save key entry now c in
  evicts c c'
  /\ memory_cache c' = od_del key (memory_cache c)
  /\ sum_sizes (memory_cache c')
     = sum_sizes (memory_cache c) - e_size_bytes entry.
Proof.
  intros Hnd Hg c'.
  assert (Hmem : memory_cache c' = od_del key (memory_cache c)).
  { subst c'. unfold evict_step, evict_one, _set_disk.
    destruct save, (enable_disk_cache cfg); reflexivity. }
  assert (Hst : size_bytes (stats c')
                = size_bytes (stats c) - e_size_bytes entry).
  { subst c'. unfold evict_step, evict_one, _set_disk.
    destruct save, (enable_disk_cache cfg); reflexivity. }
  assert (Hsum : sum_sizes (memory_cache c')
                 = sum_sizes (memory_cache c) - e_size_bytes entry)
    by (rewrite Hmem; now apply sum_sizes_del).
  split; [|auto]. split.
  - rewrite Hmem. now apply od_del_nodup.
  - intros p. rewrite Hmem. apply od_del_elem.
  - lia.
  - intros k d. subst c'. unfold evict_step, evict_one, _set_disk.
    destruct save, (enable_disk_cache cfg); cbn; auto.
    destruct (decide (k = key)) as [->|Hne].
    + rewrite lookup_insert_eq. intros [= <-]. right.
      exists (key, entry). split; [now apply od_get_elem | reflexivity].
    + rewrite lookup_insert_ne by congruence. auto.
Qed.

(** The loop of [evict_sorted] in terms of [evict_step]. *)
Lemma evict_sorted_cons {A} (entry_of : A -> string * CacheEntry) save x rest
    freed needed now c :
  evict_sorted cfg entry_of save (x :: rest) freed needed now c
  = let c2 := evict_step (save x) (fst (entry_of x)) (snd (entry_of x)) now c in
    if needed <=? freed + e_size_bytes (snd (entry_of x)) then c2
    else evict_sorted cfg entry_of save rest
           (freed + e_size_bytes (snd (entry_of x))) needed now c2.
Proof. cbn. destruct (entry_of x) as [key entry]. reflexivity. Qed.

Lemma evict_sorted_evicts {A} (entry_of : A -> string * CacheEntry) save
    L freed needed now c :
  NoDup (keys (memory_cache c)) ->
  NoDup (keys (map entry_of L)) ->
  (forall x, x ∈ L -> entry_of x ∈ memory_cache c) ->
  let c' := evict_sorted cfg entry_of save L freed needed now c in
  evicts c c'
  /\ ((forall k, k ∈ keys (memory_cache c) -> k ∈ keys (map entry_of L)) ->
      memory_cache c' = []
      \/ needed <= freed + (sum_sizes (memory_cache c)
                            - sum_sizes (memory_cache c'))).
Proof.
  revert freed c. induction L as [|x rest IH]; intros freed c Hnd HL Hin.
  - cbn. split; [now apply evicts_refl|]. intros Hcov. left.
    destruct (memory_cache c) as [|p d]; [reflexivity|].
    exfalso. specialize (Hcov (fst p)). cbn in Hcov.
    eapply elem_of_nil, Hcov, elem_of_cons. now left.
  - rewrite evict_sorted_cons. cbv zeta.
    destruct (entry_of x) as [key entry] eqn:Hx. cbn [fst snd].
    cbn in HL. rewrite Hx in HL. cbn in HL.
    apply NoDup_cons in HL as [Hkey HL].
    assert (Hg : od_get key (memory_cache c) = Some entry).
    { apply od_get_nodup; [exact Hnd|]. rewrite <- Hx.
      apply Hin, elem_of_cons. now left. }
    destruct (evict_step_evicts (save x) key entry now c Hnd Hg)
      as (Hev & Hmem & Hsum).
    set (c2 := evict_step (save x) key entry now c) in *.
    destruct (Z.leb_spec needed (freed + e_size_bytes entry)) as [Hle|Hgt].
    + split; [exact Hev|]. intros _. right. lia.
    + destruct (IH (freed + e_size_bytes entry) c2) as [Hev' Hcov'].
      * apply Hev.
      * exact HL.
      * intros y Hy. rewrite Hmem. apply od_del_elem_ne.
        -- apply Hin, elem_of_cons. now right.
        -- intros Heq. apply Hkey. rewrite <- Heq.
           apply (list_elem_of_fmap_2 fst (map entry_of rest) (entry_of y)).
           now apply list_elem_of_fmap_2.
      * split; [eapply evicts_trans; eauto|].
        intros Hcov. destruct Hcov' as [Hnil|Hle].
        -- intros k Hk. rewrite Hmem in Hk.
           assert (Hk' : k ∈ keys (memory_cache c))
             by (eapply od_del_keys; eauto).
           specialize (Hcov k Hk'). cbn in Hcov. rewrite Hx in Hcov.
           cbn in Hcov. apply elem_of_cons in Hcov as [->|Hcov]; [|exact Hcov].
           exfalso. apply (proj1 (od_get_None key (od_del key (memory_cache c))));
             [now apply od_get_del_eq | exact Hk].
        -- now left.
        -- right. lia.
Qed.

(** [_evict_lru] removes the entries that [evict_sorted] removes from the
    cache taken in its own order. *)
Lemma evict_lru_fold items freed needed now c :
  NoDup (keys (memory_cache c)) ->
  NoDup (keys items) ->
  (forall p, p ∈ items -> p ∈ memory_cache c) ->
  fold_left (fun c key =>
      match od_get key (memory_cache c) with
      | Some entry =>
          let c1 := if enable_disk_cache cfg && (1 <? e_access_count entry)
                    then snd (_set_disk cfg key (e_value entry) (e_ttl entry)
                                now c)
                    else c in
          evict_one key entry c1
      | None => c
      end) (lru_keys_to_remove items freed needed) c
  = evict_sorted cfg (fun x => x)
      (fun x => enable_disk_cache cfg && (1 <? e_access_count (snd x)))
      items freed needed now c.
Proof.
  revert freed c. induction items as [|[key entry] rest IH];
    intros freed c Hnd Hit Hin; [reflexivity|].
  rewrite evict_sorted_cons. cbv zeta. cbn [fst snd lru_keys_to_remove].
  cbn in Hit. apply NoDup_cons in Hit as [Hkey Hit].
  assert (Hg : od_get key (memory_cache c) = Some entry).
  { apply od_get_nodup; [exact Hnd|]. apply Hin, elem_of_cons. now left. }
  cbn [fold_left]. rewrite Hg.
  fold (evict_step (enable_disk_cache cfg && (1 <? e_access_count entry))
          key entry now c).
  destruct (evict_step_evicts
              (enable_disk_cache cfg && (1 <? e_access_count entry))
              key entry now c Hnd Hg) as (Hev & Hmem & _).
  destruct (needed <=? freed + e_size_bytes entry); [reflexivity|].
  apply IH; [apply Hev | exact Hit |].
  intros p Hp. rewrite Hmem. apply od_del_elem_ne.
  - apply Hin, elem_of_cons. now right.
  - intros Heq. apply Hkey. rewrite <- Heq.
    now apply (list_elem_of_fmap_2 fst rest p).
Qed.

Lemma score_entries_items now cache items scored :
  score_entries now cache items = Ok scored -> map fst scored = items.
Proof.
  revert scored. induction items as [|[key entry] items IH]; intros scored;
    cbn; [intros [= <-]; reflexivity|].
  destruct (adaptive_score now cache entry) as [score|]; [|discriminate].
  destruct (score_entries now cache items) as [rest|]; [|discriminate].
  intros [= <-]. cbn. now rewrite (IH rest eq_refl).
Qed.

Lemma filter_all {A} (P : A -> Prop) `{!forall x, Decision (P x)} (l : list A) :
  (forall x, x ∈ l -> P x) -> filter P l = l.
Proof.
  induction l as [|x l IH]; intros Hall; [reflexivity|].
  rewrite filter_cons_True by (apply Hall, elem_of_cons; now left).
  rewrite IH; [reflexivity|]. intros y Hy. apply Hall, elem_of_cons.
  now right.
Qed.

(** Evicting along any rearrangement of the whole cache. *)
Lemma evict_sorted_rearranged {A} (entry_of : A -> string * CacheEntry) save
    L needed now c :
  NoDup (keys (memory_cache c)) ->
  map entry_of L ≡ₚ memory_cache c ->
  let c' := evict_sorted cfg entry_of save L 0 needed now c in
  evicts c c'
  /\ (memory_cache c' = []
      \/ needed <= sum_sizes (memory_cache c) - sum_sizes (memory_cache c')).
Proof.
  intros Hnd Hperm c'. subst c'.
  destruct (evict_sorted_evicts entry_of save L 0 needed now c) as [Hev Hcov].
  - exact Hnd.
  - unfold keys. rewrite Hperm. exact Hnd.
  - intros x Hx. rewrite <- Hperm. now apply list_elem_of_fmap_2.
  - split; [exact Hev|]. destruct Hcov as [H|H]; [|now left | right; lia].
    intros k Hk. unfold keys. now rewrite Hperm.
Qed.

Lemma evict_lru_sorted needed now c :
  NoDup (keys (memory_cache c)) ->
  _evict_lru cfg needed now c
  = evict_sorted cfg (fun x => x)
      (fun x => enable_disk_cache cfg && (1 <? e_access_count (snd x)))
      (memory_cache c) 0 needed now c.
Proof. intros Hnd. unfold _evict_lru. apply evict_lru_fold; auto. Qed.

Lemma evict_entries_spec needed now c :
  NoDup (keys (memory_cache c)) ->
  (strategy cfg = TTL ->
   forall p, p ∈ memory_cache c -> e_ttl (snd p) <> None) ->
  match _evict_entries cfg needed now c with
  | (Ok _, c') =>
      evicts c c'
      /\ (memory_cache c' = []
          \/ needed <= sum_sizes (memory_cache c)
                       - sum_sizes (memory_cache c'))
  | (Raise _, c') => c' = c
  end.
Proof.
  intros Hnd Httl. unfold _evict_entries.
  destruct (strategy cfg) eqn:Hs; unfold modify.
  - rewrite (evict_lru_sorted needed now c Hnd).
    apply evict_sorted_rearranged; [exact Hnd|]. now rewrite list_fmap_id.
  - unfold _evict_lfu.
    apply evict_sorted_rearranged; [exact Hnd|].
    rewrite list_fmap_id. apply sorted_perm.
  - unfold _evict_ttl.
    apply evict_sorted_rearranged; [exact Hnd|].
    rewrite list_fmap_id, sorted_perm.
    rewrite filter_all; [reflexivity|]. intros x Hx. now apply Httl.
  - unfold _evict_adaptive.
    destruct (score_entries now (memory_cache c) (memory_cache c))
      as [scored|e] eqn:Hsc; [|reflexivity].
    apply evict_sorted_rearranged; [exact Hnd|].
    rewrite sorted_perm. now rewrite (score_entries_items _ _ _ _ Hsc).
Qed.

(** The bytes of every value written so far fit the budget, the byte
    counter is not below the bytes held, and the bytes held are within the
    budget unless the hot tier is empty. *)
Definition fits (v : pyvalue) : Prop := entry_size v <= max_bytes.

Record within_budget (c : IntelligentCache) : Prop := {
  wb_nodup : NoDup (keys (memory_cache c));
  wb_sizes : forall p, p ∈ memory_cache c ->
             e_size_bytes (snd p) = entry_size (e_value (snd p))
             /\ fits (e_value (snd p));
  wb_counter : sum_sizes (memory_cache c) <= size_bytes (stats c);
  wb_budget : memory_cache c = [] \/ sum_sizes (memory_cache c) <= max_bytes;
  wb_disk : forall k d, disk c !! k = Some d -> fits (d_value d);
  wb_ttl : strategy cfg = TTL ->
           forall p, p ∈ memory_cache c -> e_ttl (snd p) <> None
}.

Lemma within_budget_bytes c v :
  within_budget c -> fits v -> hot_bytes c <= max_bytes.
Proof.
  intros Hwb Hv. rewrite hot_bytes_sum.
  destruct (wb_budget c Hwb) as [Hnil|H]; [|exact H].
  rewrite Hnil. cbn. pose proof (entry_size_nonneg v). unfold fits in Hv. lia.
Qed.

Lemma sizes_nonneg c p :
  within_budget c -> p ∈ memory_cache c -> 0 <= e_size_bytes (snd p).
Proof.
  intros Hwb Hp. destruct (wb_sizes c Hwb p Hp) as [-> _].
  apply entry_size_nonneg.
Qed.

(** The statements of [_set_memory] after the eviction. *)
Definition store_entry (key : string) (value : pyvalue) (ttl : option Q)
    (now : Q) : SE IntelligentCache bool :=
  let size := entry_size value in
  let entry := mkEntry key value now now 0 ttl size in
  modify (fun c =>
    match od_get key (memory_cache c) with
    | Some old_entry =>
        set_stats (with_size_bytes
                     (size_bytes (stats c) - e_size_bytes old_entry)
                     (stats c)) c
    | None => c
    end) ;;
  modify (fun c => set_memory_cache (od_set key entry (memory_cache c)) c) ;;
  modify (fun c =>
    set_stats (with_size_bytes (size_bytes (stats c) + size) (stats c)) c) ;;
  modify (fun c =>
    set_stats (with_entry_count (Z.of_nat (length (memory_cache c)))
                 (stats c)) c) ;;
  modify (_record_access_pattern key now) ;;
  ret true.

Lemma set_memory_unfold key value ttl now :
  _set_memory cfg pickle_dumps_len key value ttl now
  = (let* exceeds := gets (_would_exceed_memory_limit cfg (entry_size value)) in
     (if exceeds then _evict_entries cfg (entry_size value) now else ret tt) ;;
     store_entry key value ttl now).
Proof. reflexivity. Qed.

Lemma store_entry_budget key value ttl now c :
  NoDup (keys (memory_cache c)) ->
  (forall p, p ∈ memory_cache c ->
     e_size_bytes (snd p) = entry_size (e_value (snd p))
     /\ fits (e_value (snd p))) ->
  sum_sizes (memory_cache c) <= size_bytes (stats c) ->
  memory_cache c = [] \/ sum_sizes (memory_cache c) + entry_size value
                         <= max_bytes ->
  (forall k d, disk c !! k = Some d -> fits (d_value d)) ->
  (strategy cfg = TTL ->
   forall p, p ∈ memory_cache c -> e_ttl (snd p) <> None) ->
  fits value -> (strategy cfg = TTL -> ttl <> None) ->
  fst (store_entry key value ttl now c) = Ok true
  /\ within_budget (snd (store_entry key value ttl now c)).
Proof.
  intros Hnd Hsz Hcnt Hroom Hdisk Httl Hfit Hnew.
  set (entry := mkEntry key value now now 0 ttl (entry_size value)).
  assert (Hmem : memory_cache (snd (store_entry key value ttl now c))
                 = od_set key entry (memory_cache c)).
  { unfold store_entry, bind, modify, ret. cbn.
    destruct (od_get key (memory_cache c)); reflexivity. }
  assert (Hst : size_bytes (stats (snd (store_entry key value ttl now c)))
                = size_bytes (stats c)
                  - match od_get key (memory_cache c) with
                    | Some old => e_size_bytes old
                    | None => 0
                    end + entry_size value).
  { unfold store_entry, bind, modify, ret. cbn.
    destruct (od_get key (memory_cache c)); cbn; lia. }
  assert (Hdk : disk (snd (store_entry key value ttl now c)) = disk c).
  { unfold store_entry, bind, modify, ret. cbn.
    destruct (od_get key (memory_cache c)); reflexivity. }
  split; [reflexivity|].
  assert (Hold : 0 <= match od_get key (memory_cache c) with
                      | Some old => e_size_bytes old
                      | None => 0
                      end).
  { destruct (od_get key (memory_cache c)) as [old|] eqn:Hg; [|lia].
    destruct (Hsz (key, old) (od_get_elem _ _ _ Hg)) as [Heq _].
    cbn in Heq. rewrite Heq. apply entry_size_nonneg. }
  pose proof (sum_sizes_set key entry (memory_cache c)) as Hsum.
  change (e_size_bytes entry) with (entry_size value) in Hsum.
  split.
  - rewrite Hmem. now apply od_set_nodup.
  - intros p. rewrite Hmem. intros Hp.
    apply od_set_elem in Hp as [->|Hp]; [split; [reflexivity|exact Hfit]|auto].
  - rewrite Hmem, Hst. lia.
  - right. rewrite Hmem, Hsum. destruct Hroom as [Hnil|Hroom].
    + rewrite Hnil. cbn. unfold fits in Hfit. lia.
    + lia.
  - rewrite Hdk. exact Hdisk.
  - intros Hs p. rewrite Hmem. intros Hp.
    apply od_set_elem in Hp as [->|Hp]; [cbn; auto | auto].
Qed.

Lemma set_memory_budget key value ttl now c :
  within_budget c -> fits value -> (strategy cfg = TTL -> ttl <> None) ->
  within_budget (snd (_set_memory cfg pickle_dumps_len key value ttl now c)).
Proof.
  intros Hwb Hfit Hnew. rewrite set_memory_unfold.
  unfold bind at 1. unfold gets at 1.
  destruct (_would_exceed_memory_limit cfg (entry_size value) c) eqn:Hex.
  - pose proof (evict_entries_spec (entry_size value) now c
                  (wb_nodup c Hwb) (wb_ttl c Hwb)) as Hev.
    unfold bind at 1.
    destruct (_evict_entries cfg (entry_size value) now c) as [[u|e] c1].
    2:{ subst c1. exact Hwb. }
    destruct Hev as [[E1 E2 E3 E4] Hroom].
    apply store_entry_budget; auto.
    + intros p Hp. apply (wb_sizes c Hwb), E2, Hp.
    + pose proof (wb_counter c Hwb). lia.
    + destruct Hroom as [Hnil|Hroom]; [now left|].
      destruct (wb_budget c Hwb) as [Hc|Hc].
      * left. destruct (memory_cache c1) as [|p d]; [reflexivity|].
        exfalso. assert (Hp : p ∈ memory_cache c)
          by (apply E2, elem_of_cons; now left).
        rewrite Hc in Hp. apply elem_of_nil in Hp. exact Hp.
      * right. lia.
    + intros k d Hd. destruct (E4 k d Hd) as [H|(p & Hp & ->)].
      * apply (wb_disk c Hwb k d H).
      * apply (wb_sizes c Hwb p Hp).
    + intros Hs p Hp. apply (wb_ttl c Hwb Hs), E2, Hp.
  - unfold bind at 1. unfold ret at 1.
    apply store_entry_budget; auto; try apply Hwb.
    right. unfold _would_exceed_memory_limit in Hex.
    apply Z.ltb_ge in Hex. pose proof (wb_counter c Hwb). lia.
Qed.

Lemma sum_sizes_submseteq d' d :
  d' ⊆+ d -> (forall p, p ∈ d -> 0 <= e_size_bytes (snd p)) ->
  sum_sizes d' <= sum_sizes d.
Proof.
  induction 1 as [|x l1 l2 _ IH|x y l|x l1 l2 _ IH|l1 l2 l3 H12 IH1 H23 IH2];
    intros Hpos; cbn.
  - lia.
  - assert (sum_sizes l1 <= sum_sizes l2); [|lia].
    apply IH. intros p Hp. apply Hpos, elem_of_cons. now right.
  - lia.
  - assert (0 <= e_size_bytes (snd x)) by (apply Hpos, elem_of_cons; now left).
    assert (sum_sizes l1 <= sum_sizes l2); [|lia].
    apply IH. intros p Hp. apply Hpos, elem_of_cons. now right.
  - assert (sum_sizes l2 <= sum_sizes l3) by auto.
    assert (sum_sizes l1 <= sum_sizes l2); [|lia].
    apply IH1. intros p Hp. apply Hpos.
    eapply elem_of_submseteq; eauto.
Qed.

Lemma evicts_within_budget c c' :
  within_budget c -> evicts c c' -> within_budget c'.
Proof.
  intros Hwb [E1 E2 E3 E4].
  assert (Hle : sum_sizes (memory_cache c') <= sum_sizes (memory_cache c)).
  { apply sum_sizes_submseteq.
    - apply NoDup_submseteq; [|exact E2]. eapply NoDup_fmap_1. exact E1.
    - intros p Hp. eapply sizes_nonneg; eauto. }
  split.
  - exact E1.
  - intros p Hp. apply (wb_sizes c Hwb), E2, Hp.
  - pose proof (wb_counter c Hwb). lia.
  - destruct (wb_budget c Hwb) as [Hc|Hc]; [left | right; lia].
    destruct (memory_cache c') as [|p d]; [reflexivity|].
    exfalso. assert (Hp : p ∈ memory_cache c)
      by (apply E2, elem_of_cons; now left).
    rewrite Hc in Hp. apply elem_of_nil in Hp. exact Hp.
  - intros k d Hd. destruct (E4 k d Hd) as [H|(p & Hp & ->)].
    + apply (wb_disk c Hwb k d H).
    + apply (wb_sizes c Hwb p Hp).
  - intros Hs p Hp. apply (wb_ttl c Hwb Hs), E2, Hp.
Qed.

(** Updates of the statistics other than the byte counter, of the access
    records and of the prefetch queue do not matter. *)
Lemma within_budget_frame c c' :
  memory_cache c' = memory_cache c ->
  size_bytes (stats c') = size_bytes (stats c) ->
  disk c' = disk c ->
  within_budget c -> within_budget c'.
Proof.
  intros Hm Hs Hd [W1 W2 W3 W4 W5 W6].
  split; rewrite ?Hm, ?Hs, ?Hd; auto.
Qed.

Lemma schedule_prefetch_frame key c :
  memory_cache (_schedule_prefetch cfg key c) = memory_cache c
  /\ stats (_schedule_prefetch cfg key c) = stats c
  /\ disk (_schedule_prefetch cfg key c) = disk c.
Proof.
  unfold _schedule_prefetch. destruct (prefetch_enabled cfg); cbn; auto.
  generalize (take 3 (_find_related_keys key c)). intros l.
  assert (H : forall c0,
    let c1 := fold_left (fun c related_key =>
        match od_get related_key (memory_cache c) with
        | None => set_prefetch_queue (prefetch_queue c ++ [related_key]) c
        | Some _ => c
        end) l c0 in
    memory_cache c1 = memory_cache c0 /\ stats c1 = stats c0
    /\ disk c1 = disk c0).
  { induction l as [|x l IH]; intros c0; cbn; [auto|].
    destruct (IH (match od_get x (memory_cache c0) with
                  | None => set_prefetch_queue (prefetch_queue c0 ++ [x]) c0
                  | Some _ => c0
                  end)) as (A & B & C).
    rewrite A, B, C. destruct (od_get x (memory_cache c0)); auto. }
  apply H.
Qed.

Lemma update_hit_rate_frame c :
  memory_cache (_update_hit_rate c) = memory_cache c
  /\ size_bytes (stats (_update_hit_rate c)) = size_bytes (stats c)
  /\ disk (_update_hit_rate c) = disk c.
Proof. unfold _update_hit_rate. destruct (0 <? _); cbn; auto. Qed.

Lemma update_hit_rate_within c :
  within_budget c -> within_budget (_update_hit_rate c).
Proof.
  apply within_budget_frame; apply update_hit_rate_frame.
Qed.

Lemma schedule_prefetch_within key c :
  within_budget c -> within_budget (_schedule_prefetch cfg key c).
Proof.
  destruct (schedule_prefetch_frame key c) as (A & B & C).
  apply within_budget_frame; [exact A | now rewrite B | exact C].
Qed.

Lemma get_budget key default_value now c :
  (strategy cfg = TTL -> default_ttl cfg <> None) ->
  within_budget c ->
  within_budget (snd (get cfg pickle_dumps_len key default_value now c)).
Proof.
  intros Hdef Hwb.
  assert (Hres : within_budget
                   (snd (get_body cfg pickle_dumps_len key default_value now c))).
  2:{ unfold get.
      destruct (get_body cfg pickle_dumps_len key default_value now c)
        as [[v|e] c']; exact Hres. }
  unfold get_body, sanitize_filename. unfold bind at 1. unfold gets at 1.
  destruct (od_get key (memory_cache c)) as [entry|] eqn:Hg.
  - assert (Hin : (key, entry) ∈ memory_cache c) by now apply od_get_elem.
    destruct (wb_sizes c Hwb _ Hin) as [Hsz Hfit]. cbn in Hsz, Hfit.
    assert (Hne : memory_cache c <> [])
      by (intros Hnil; rewrite Hnil in Hin; apply elem_of_nil in Hin; auto).
    assert (Hmax : sum_sizes (memory_cache c) <= max_bytes)
      by (destruct (wb_budget c Hwb); [contradiction | assumption]).
    destruct (is_expired now entry).
    + unfold bind, modify, ret. cbn.
      pose proof (sum_sizes_del key entry _ Hg) as Hdel.
      pose proof (entry_size_nonneg (e_value entry)).
      pose proof (wb_counter c Hwb).
      split; cbn.
      * apply od_del_nodup, Hwb.
      * intros p Hp. apply (wb_sizes c Hwb). eapply od_del_elem; eauto.
      * lia.
      * right. lia.
      * apply Hwb.
      * intros Hs p Hp. apply (wb_ttl c Hwb Hs). eapply od_del_elem; eauto.
    + unfold bind, modify, ret. cbn.
      apply update_hit_rate_within.
      apply (within_budget_frame
               (set_memory_cache
                  (od_move_to_end key
                     (od_set key (touch now entry) (memory_cache c))) c));
        [reflexivity | reflexivity | reflexivity |].
      assert (Hsum : sum_sizes (od_move_to_end key
                       (od_set key (touch now entry) (memory_cache c)))
                     = sum_sizes (memory_cache c)).
      { rewrite sum_sizes_move_to_end, sum_sizes_set, Hg. cbn. lia. }
      assert (Helem : forall p,
                p ∈ od_move_to_end key
                      (od_set key (touch now entry) (memory_cache c)) ->
                p = (key, touch now entry) \/ p ∈ memory_cache c).
      { intros p Hp. apply od_move_to_end_elem in Hp.
        now apply od_set_elem in Hp. }
      split; cbn.
      * apply od_move_to_end_nodup, od_set_nodup, Hwb.
      * intros p Hp. destruct (Helem p Hp) as [->|Hp'];
          [cbn; auto | apply (wb_sizes c Hwb p Hp')].
      * rewrite Hsum. apply Hwb.
      * right. rewrite Hsum. exact Hmax.
      * apply Hwb.
      * intros Hs p Hp. destruct (Helem p Hp) as [->|Hp'];
          [cbn; apply (wb_ttl c Hwb Hs _ Hin)
          | apply (wb_ttl c Hwb Hs p Hp')].
  - unfold bind at 1.
    assert (Hdisk : let r := _get_from_disk cfg key now c in
              within_budget (snd r)
              /\ (fst r = PyNone \/ fits (fst r))).
    { unfold _get_from_disk.
      destruct (negb (enable_disk_cache cfg)); [cbn; auto|].
      destruct (disk c !! key) as [data|] eqn:Hd; [|cbn; auto].
      assert (Hdel : within_budget (set_disk_files (base.delete key (disk c)) c)).
      { destruct Hwb as [W1 W2 W3 W4 W5 W6]. split; cbn; auto.
        intros k d Hk. apply lookup_delete_Some in Hk as [_ Hk]. eauto. }
      destruct (d_ttl data) as [ttl|];
        [destruct (Qgtb _ ttl)|]; cbn; auto;
        split; auto; right; apply (wb_disk c Hwb key data Hd). }
    unfold disk_lookup.
    destruct (enable_disk_cache cfg).
    + destruct (_get_from_disk cfg key now c) as [v c1].
      cbn in Hdisk. destruct Hdisk as [Hwb1 Hv].
      assert (Hmiss : within_budget
                (snd ((modify (fun c0 =>
                         set_stats (with_misses (misses (stats c0) + 1)
                                      (stats c0)) c0) ;;
                       modify _update_hit_rate ;;
                       (if prefetch_enabled cfg
                        then modify (_schedule_prefetch cfg key)
                        else ret tt) ;;
                       ret default_value) c1))).
      { unfold bind, modify, ret. cbn.
        destruct (prefetch_enabled cfg); cbn;
          [apply schedule_prefetch_within|];
          apply update_hit_rate_within;
          (eapply within_budget_frame; [| | |exact Hwb1]; reflexivity). }
      assert (Hpromote : fits v -> within_budget
                (snd ((_set_memory cfg pickle_dumps_len key v
                         (default_ttl cfg) now ;;
                       modify (fun c0 =>
                         set_stats (with_hits (hits (stats c0) + 1)
                                      (stats c0)) c0) ;;
                       modify _update_hit_rate ;;
                       ret v) c1))).
      { intros Hfit.
        pose proof (set_memory_budget key v (default_ttl cfg) now c1
                      Hwb1 Hfit Hdef) as Hset.
        unfold bind at 1.
        destruct (_set_memory cfg pickle_dumps_len key v (default_ttl cfg)
                    now c1) as [[b|e] c2]; [|exact Hset].
        unfold bind, modify, ret. cbn.
        apply update_hit_rate_within.
        eapply within_budget_frame; [| | |exact Hset]; reflexivity. }
      destruct v; try exact Hmiss;
        (apply Hpromote; destruct Hv as [Hv|Hv]; [discriminate | exact Hv]).
    + unfold bind, modify, ret. cbn.
      destruct (prefetch_enabled cfg); cbn;
        [apply schedule_prefetch_within|];
        apply update_hit_rate_within;
        (eapply within_budget_frame; [| | |exact Hwb]; reflexivity).
Qed.

Lemma set_budget key value ttl level now c :
  (strategy cfg = TTL -> default_ttl cfg <> None) ->
  within_budget c -> fits value ->
  within_budget (snd (set cfg pickle_dumps_len key value ttl level now c)).
Proof.
  intros Hdef Hwb Hfit. unfold set, sanitize_filename. cbv zeta.
  set (stored := match ttl with None => default_ttl cfg | Some _ => ttl end).
  assert (Hst : strategy cfg = TTL -> stored <> None).
  { intros Hs. subst stored. destruct ttl; [discriminate | auto]. }
  pose proof (set_memory_budget key value stored now c Hwb Hfit Hst) as Hmem.
  destruct level.
  - destruct (_set_memory cfg pickle_dumps_len key value stored now c)
      as [[b|e] c1]; exact Hmem.
  - unfold _set_disk. destruct (negb (enable_disk_cache cfg)); [exact Hwb|].
    destruct Hwb as [W1 W2 W3 W4 W5 W6]. split; cbn; auto.
    intros k d Hk. destruct (decide (k = key)) as [->|Hne].
    + rewrite lookup_insert_eq in Hk. injection Hk as <-. exact Hfit.
    + rewrite lookup_insert_ne in Hk by congruence. eauto.
  - destruct (_set_memory cfg pickle_dumps_len key value stored now c)
      as [[b|e] c1]; exact Hmem.
Qed.

Lemma evict_one_budget key entry c :
  within_budget c -> od_get key (memory_cache c) = Some entry ->
  within_budget (evict_one key entry c).
Proof.
  intros Hwb Hg. apply (evicts_within_budget c); [exact Hwb|].
  apply (evict_step_evicts false key entry 0 c (wb_nodup c Hwb) Hg).
Qed.

Lemma delete_budget key c :
  within_budget c -> within_budget (snd (delete cfg key c)).
Proof.
  intros Hwb. unfold delete, sanitize_filename. cbn.
  assert (H1 : within_budget
                 match od_get key (memory_cache c) with
                 | Some entry =>
                     set_stats
                       (with_entry_count
                          (Z.of_nat (length (od_del key (memory_cache c))))
                          (with_size_bytes
                             (size_bytes (stats c) - e_size_bytes entry)
                             (stats c)))
                       (set_stats
                          (with_size_bytes
                             (size_bytes (stats c) - e_size_bytes entry)
                             (stats c))
                          (set_memory_cache (od_del key (memory_cache c)) c))
                 | None => c
                 end).
  { destruct (od_get key (memory_cache c)) as [entry|] eqn:Hg; [|exact Hwb].
    apply (within_budget_frame (evict_one key entry c));
      [reflexivity | reflexivity | reflexivity |].
    now apply evict_one_budget. }
  destruct (enable_disk_cache cfg); [|exact H1].
  destruct H1 as [W1 W2 W3 W4 W5 W6]. split; auto.
  intros k d Hk. cbn in Hk. apply lookup_delete_Some in Hk as [_ Hk]. eauto.
Qed.

Lemma cleanup_budget now c :
  within_budget c -> within_budget (_cleanup_expired_entries now c).
Proof.
  unfold _cleanup_expired_entries.
  generalize (map fst (filter (fun p : string * CacheEntry =>
                                 Is_true (is_expired now (snd p)))
                         (memory_cache c))).
  intros ks. revert c. induction ks as [|k ks IH]; intros c Hwb; cbn;
    [exact Hwb|].
  apply IH. destruct (od_get k (memory_cache c)) as [entry|] eqn:Hg;
    [now apply evict_one_budget | exact Hwb].
Qed.

Lemma clear_budget c : within_budget c -> within_budget (clear cfg c).
Proof.
  intros Hwb. unfold clear.
  assert (H1 : within_budget
                 (set_stats empty_stats
                    (set_access ∅ ∅ (set_memory_cache [] c)))).
  { split; cbn; auto.
    - apply NoDup_nil_2.
    - intros p Hp. apply elem_of_nil in Hp. contradiction.
    - lia.
    - apply Hwb.
    - intros _ p Hp. apply elem_of_nil in Hp. contradiction. }
  destruct (enable_disk_cache cfg); [|exact H1].
  destruct H1 as [W1 W2 W3 W4 W5 W6]. split; auto.
  intros k d Hk. cbn in Hk. rewrite lookup_empty in Hk. discriminate.
Qed.

Lemma init_budget : within_budget init.
Proof.
  split; cbn; auto.
  - apply NoDup_nil_2.
  - intros p Hp. apply elem_of_nil in Hp. contradiction.
  - lia.
  - intros k d Hk. rewrite lookup_empty in Hk. discriminate.
  - intros _ p Hp. apply elem_of_nil in Hp. contradiction.
Qed.

(** Every value written by a [set] of the trace fits the budget. *)
Definition op_fits (o : op) : Prop :=
  match o with
  | OpSet _ value _ _ _ => fits value
  | _ => True
  end.

Lemma run_budget ops c :
  (strategy cfg = TTL -> default_ttl cfg <> None) ->
  Forall op_fits ops -> within_budget c ->
  within_budget (run cfg pickle_dumps_len ops c).
Proof.
  intros Hdef Hops. revert c. induction Hops as [|o ops Ho _ IH];
    intros c Hwb; [exact Hwb|].
  cbn. apply IH. destruct o; cbn [apply_op].
  - now apply set_budget.
  - now apply get_budget.
  - now apply delete_budget.
  - now apply cleanup_budget.
  - now apply clear_budget.
Qed.

(** C1 (as the code has it): provided every value written is itself no
    larger than the budget [max_memory_mb * 1024 * 1024] (the size charged
    for a value is its pickled length) and, under the TTL policy, a default
    TTL is configured (so that every entry carries a TTL and can be
    evicted), the bytes held by the hot tier are within the budget after
    every [set], whatever sequence of [set], [get], [delete], expiry sweeps
    and [clear] came before, for each of the four eviction policies, and
    they stay within it through any further such operations. *)
Theorem hot_tier_within_budget ops key value ttl level now :
  (strategy cfg = TTL -> default_ttl cfg <> None) ->
  Forall op_fits ops ->
  fits value ->
  let c := run cfg pickle_dumps_len ops init in
  hot_bytes (snd (set cfg pickle_dumps_len key value ttl level now c))
  <= max_bytes
  /\ hot_bytes c <= max_bytes.
Proof.
  intros Hdef Hops Hfit c.
  assert (Hwb : within_budget c) by (apply run_budget; auto using init_budget).
  split.
  - eapply within_budget_bytes; [|exact Hfit]. now apply set_budget.
  - eapply within_budget_bytes; eauto.
Qed.

End Budget.

(** C1, as stated, fails: a value larger than the whole budget is stored all
    the same ([set] returns [True]) and leaves the hot tier over budget; so
    does, under the TTL policy without a default TTL, a second value that
    fits on its own, because entries without a TTL are never evicted. *)
Lemma hot_tier_over_budget_counterexample :
  let big := set (demo_config LRU) demo_size "big" (PyInt 2000000) None
               MEMORY 0 init in
  let cfg := mkConfig 1 None TTL false true in
  let two := set cfg demo_size "b" (PyInt 600000) None MEMORY 1
               (snd (set cfg demo_size "a" (PyInt 600000) None MEMORY 0
                       init)) in
  max_bytes (demo_config LRU) = 1048576
  /\ fst big = true /\ hot_bytes (snd big) = 2000000
  /\ max_bytes cfg = 1048576
  /\ fst two = true /\ hot_bytes (snd two) = 1200000.
Proof. vm_compute. repeat split; reflexivity. Qed.

Lemma hot_tier_within_budget_witness :
  let ops := [OpSet "a" (PyInt 600000) None MEMORY 0;
              OpGet "a" PyNone 1;
              OpSet "b" (PyInt 600000) None MEMORY 2] in
  hot_bytes
    (snd (set (demo_config LFU) demo_size "c" (PyInt 600000) None MEMORY 3
            (run (demo_config LFU) demo_size ops init)))
  <= 1048576.
Proof.
  intros ops.
  destruct (hot_tier_within_budget (demo_config LFU) demo_size ops "c"
              (PyInt 600000) None MEMORY 3) as [H _].
  - intros _. discriminate.
  - repeat constructor; vm_compute; discriminate.
  - vm_compute. discriminate.
  - exact H.
Defined.

End CacheSpec.

(* ===================================================================== *)
(** ** Further properties of the pipeline                                 *)
(* ===================================================================== *)
Module PipelineLaws.
Import Pipeline PipelineSpec PipelineTools.

(** *** Sessions

    Everything a client and the workers can do to a pipeline: the
    operations of a trace, and [start], [stop], [get_metrics] and
    [clear_completed_tasks]. *)
Inductive call :=
| Op (o : op)
| Start
| Stop (items : list (string * Future))
| GetMetrics
| ClearCompleted.

Definition perform (k : call) (s : AsyncPipeline) : AsyncPipeline :=
  match k with
  | Op o => apply_op o s
  | Start => start s
  | Stop items => snd (stop items s)
  | GetMetrics => snd (get_metrics s)
  | ClearCompleted => clear_completed_tasks s
  end.

Definition session (ks : list call) (s : AsyncPipeline) : AsyncPipeline :=
  fold_left (fun s k => perform k s) ks s.

(** Walking through monadic code that keeps an invariant; [leaf] deals with
    the state updates and the calls. *)
Ltac keeps_step leaf :=
  first
    [ leaf
    | apply keeps_ret
    | apply keeps_raise
    | apply keeps_gets
    | apply keeps_bind; [|intros ?]
    | apply keeps_for_each; intros ?
    | apply keeps_try_finally
    | match goal with
      | |- keeps _ (match ?x with _ => _ end) => destruct x
      end ].

Ltac keeps_walk leaf := repeat keeps_step leaf.

Ltac keeps_frame :=
  apply keeps_modify;
  let s := fresh "s" in let H := fresh "H" in
  intros s H; try (destruct (_ <? _)); exact H.

(** *** The queue size counter *)

Definition queue_counted (s : AsyncPipeline) : Prop :=
  queue_size (metrics s) = Z.of_nat (length (all_queued (task_queues s))).

Lemma all_queued_push p l q :
  length (all_queued (set_queue p (queue_of p q ++ [l]) q))
  = S (length (all_queued q)).
Proof.
  destruct p, q as [qc qh qn ql]; unfold all_queued; cbn;
    rewrite ?length_app; cbn; rewrite ?length_app; cbn; lia.
Qed.

Lemma all_queued_pop p l rest q :
  queue_of p q = l :: rest ->
  S (length (all_queued (set_queue p rest q))) = length (all_queued q).
Proof.
  destruct p, q as [qc qh qn ql]; unfold all_queued; cbn; intros ->;
    cbn; rewrite ?length_app; cbn; rewrite ?length_app; cbn; lia.
Qed.

Lemma counted_read_task l : keeps queue_counted (read_task l).
Proof. intros s H. unfold read_task. destruct (heap s !! l); exact H. Qed.

Lemma counted_update_task l f : keeps queue_counted (update_task l f).
Proof.
  intros s H. unfold update_task, bind, read_task, modify.
  destruct (heap s !! l); exact H.
Qed.

Lemma counted_queue_task l : keeps queue_counted (_queue_task l).
Proof.
  intros s H. unfold _queue_task, bind, read_task, modify.
  destruct (heap s !! l) as [t|]; [|exact H].
  unfold queue_counted in *. cbn. rewrite all_queued_push, H. lia.
Qed.

Lemma counted_get_next_from ps : keeps queue_counted (get_next_from ps).
Proof.
  induction ps as [|p ps IH]; cbn; [apply keeps_ret|].
  intros s H. unfold bind at 1. unfold gets at 1.
  destruct (queue_of p (task_queues s)) as [|l rest] eqn:Hq; [now apply IH|].
  unfold bind, modify, ret. unfold queue_counted in *. cbn.
  pose proof (all_queued_pop p l rest (task_queues s) Hq). lia.
Qed.

Ltac counted_leaf :=
  first [ apply counted_read_task | apply counted_update_task
        | apply counted_queue_task | keeps_frame ].

Lemma counted_handle_task_failure l now :
  keeps queue_counted (_handle_task_failure l now).
Proof. unfold _handle_task_failure. keeps_walk counted_leaf. Qed.

Lemma counted_process_dependencies task_id :
  keeps queue_counted (_process_dependencies task_id).
Proof. unfold _process_dependencies. keeps_walk counted_leaf. Qed.

Lemma counted_execute_task_begin l now :
  keeps queue_counted (execute_task_begin l now).
Proof. unfold execute_task_begin. keeps_walk counted_leaf. Qed.

Lemma counted_execute_task_finally l :
  keeps queue_counted (execute_task_finally l).
Proof.
  unfold execute_task_finally.
  keeps_walk ltac:(first [ apply counted_process_dependencies
                         | counted_leaf ]).
Qed.

Lemma counted_execute_task_resume l r now :
  keeps queue_counted (execute_task_resume l r now).
Proof.
  unfold execute_task_resume.
  keeps_walk ltac:(first [ apply counted_execute_task_finally
                         | apply counted_handle_task_failure
                         | counted_leaf ]).
Qed.

Lemma counted_cancel_task task_id : keeps queue_counted (cancel_task task_id).
Proof. unfold cancel_task. keeps_walk counted_leaf. Qed.

Lemma counted_submit_dependency_loop task_id l all_deps rest :
  keeps queue_counted (submit_dependency_loop task_id l all_deps rest).
Proof.
  induction rest as [|d rest IH]; cbn [submit_dependency_loop];
    [apply keeps_ret|].
  keeps_walk ltac:(first [ exact IH | counted_leaf ]).
Qed.

Lemma counted_submit_task task_id func priority timeout max_retries deps
    callback now :
  keeps queue_counted
    (submit_task task_id func priority timeout max_retries deps callback now).
Proof.
  unfold submit_task.
  keeps_walk ltac:(first [ apply counted_submit_dependency_loop
                         | counted_leaf ]).
Qed.

Lemma counted_stop_loop items : keeps queue_counted (stop_loop items).
Proof.
  induction items as [|[task_id future] items IH]; cbn [stop_loop];
    [apply keeps_ret|].
  keeps_walk ltac:(first [ exact IH | counted_leaf ]).
Qed.

Lemma counted_stop items : keeps queue_counted (stop items).
Proof.
  unfold stop.
  keeps_walk ltac:(first [ apply counted_stop_loop | counted_leaf ]).
Qed.

Lemma all_queued_total q :
  Z.of_nat (length (q_critical q)) + Z.of_nat (length (q_high q))
  + Z.of_nat (length (q_normal q)) + Z.of_nat (length (q_low q))
  = Z.of_nat (length (all_queued q)).
Proof. unfold all_queued. rewrite !length_app. lia. Qed.

Lemma counted_get_metrics : keeps queue_counted get_metrics.
Proof.
  intros s H. unfold get_metrics, bind, modify, gets. cbn.
  unfold queue_counted. cbn. apply all_queued_total.
Qed.

Lemma counted_apply_op o s : queue_counted s -> queue_counted (apply_op o s).
Proof.
  intros HI. destruct o; cbn [apply_op].
  - apply keeps_state; [apply counted_submit_task | exact HI].
  - pose proof (counted_get_next_from [CRITICAL; HIGH; NORMAL; LOW] s HI)
      as Hn. unfold _get_next_task.
    destruct (get_next_from [CRITICAL; HIGH; NORMAL; LOW] s)
      as [[[l|]|e] s1]; try exact Hn.
    apply keeps_state; [apply counted_execute_task_begin | exact Hn].
  - destruct (task_futures s !! task_id); exact HI.
  - destruct (bool_decide (l ∈ awaiting s)); [|exact HI].
    apply keeps_state; [apply counted_execute_task_resume | exact HI].
  - apply keeps_state; [apply counted_cancel_task | exact HI].
Qed.

Lemma counted_perform k s : queue_counted s -> queue_counted (perform k s).
Proof.
  intros HI. destruct k; cbn [perform].
  - now apply counted_apply_op.
  - unfold start. destruct (is_running s); exact HI.
  - apply keeps_state; [apply counted_stop | exact HI].
  - apply keeps_state; [apply counted_get_metrics | exact HI].
  - exact HI.
Qed.

(** The counter [metrics.queue_size], kept up to date by [_queue_task] and
    [_get_next_task], always equals the number of queued tasks; so the
    recount in [get_metrics] never changes anything: it returns the metrics
    as they were and leaves the pipeline as it was. *)
Theorem queue_size_counts_the_queued_tasks ks :
  let s := session ks init in
  queue_size (metrics s) = Z.of_nat (length (all_queued (task_queues s)))
  /\ get_metrics s = (Ok (metrics s), s).
Proof.
  intros s.
  assert (H : queue_counted s).
  { subst s. unfold session.
    assert (G : forall s0, queue_counted s0 ->
              queue_counted (fold_left (fun s k => perform k s) ks s0)).
    { induction ks as [|k ks' IH]; intros s0 H0; [exact H0|].
      cbn. apply IH, counted_perform, H0. }
    apply G. reflexivity. }
  split; [exact H|].
  unfold get_metrics, bind, modify, gets. cbn.
  rewrite all_queued_total. unfold queue_counted in H. rewrite <- H.
  destruct s as [r q a f c g rv [m1 m2 m3 m4 m5] h w e cb]. reflexivity.
Qed.

(** *** Task ids stay taken *)

(** The pipeline knows the id [X]: a task with that id is active or
    completed. *)
Definition known (X : string) (s : AsyncPipeline) : Prop :=
  is_Some (active_tasks s !! X) \/ is_Some (completed_tasks s !! X).

Ltac known_modify :=
  apply keeps_modify;
  let s := fresh "s" in let H := fresh "H" in
  intros s H; unfold known in *; cbn;
  rewrite ?lookup_insert_is_Some'; try (destruct (_ <? _)); tauto.

Section Known.
Variable X : string.

Lemma known_read_task l : keeps (known X) (read_task l).
Proof. intros s H. unfold read_task. destruct (heap s !! l); exact H. Qed.

Lemma known_update_task l f : keeps (known X) (update_task l f).
Proof.
  intros s H. unfold update_task, bind, read_task, modify.
  destruct (heap s !! l); exact H.
Qed.

Ltac known_leaf :=
  first [ apply known_read_task | apply known_update_task | known_modify ].

Lemma known_queue_task l : keeps (known X) (_queue_task l).
Proof. unfold _queue_task. keeps_walk known_leaf. Qed.

Lemma known_get_next_from ps : keeps (known X) (get_next_from ps).
Proof.
  induction ps as [|p ps IH]; cbn [get_next_from]; [apply keeps_ret|].
  keeps_walk ltac:(first [ exact IH | known_leaf ]).
Qed.

Lemma known_handle_task_failure l now :
  keeps (known X) (_handle_task_failure l now).
Proof.
  unfold _handle_task_failure.
  keeps_walk ltac:(first [ apply known_queue_task | known_leaf ]).
Qed.

Lemma known_process_dependencies task_id :
  keeps (known X) (_process_dependencies task_id).
Proof.
  unfold _process_dependencies.
  keeps_walk ltac:(first [ apply known_queue_task | known_leaf ]).
Qed.

Lemma known_execute_task_begin l now :
  keeps (known X) (execute_task_begin l now).
Proof. unfold execute_task_begin. keeps_walk known_leaf. Qed.

(** Moving a finished task from the active to the completed tasks. *)
Lemma known_retire id l :
  keeps (known X)
    (modify (fun s =>
       set_completed_tasks (<[id := l]> (completed_tasks s)) s) ;;
     modify (fun s => set_active_tasks (delete id (active_tasks s)) s) ;;
     _process_dependencies id).
Proof.
  eapply hoare_bind with
    (R := fun _ s => known X s /\ is_Some (completed_tasks s !! id)).
  { apply hoare_modify_pre. intros s H. unfold known in *. cbn.
    rewrite !lookup_insert_is_Some'. tauto. }
  intros _. eapply hoare_bind with (R := fun _ => known X).
  { apply hoare_modify_pre. intros s [[H|H] Hc]; unfold known; cbn.
    - destruct (decide (id = X)) as [->|Hne]; [now right|].
      left. now rewrite lookup_delete_ne.
    - now right. }
  intros _. apply known_process_dependencies.
Qed.

Lemma known_execute_task_finally l :
  keeps (known X) (execute_task_finally l).
Proof.
  unfold execute_task_finally.
  keeps_walk ltac:(first [ apply known_retire | known_leaf ]).
Qed.

Lemma known_execute_task_resume l r now :
  keeps (known X) (execute_task_resume l r now).
Proof.
  unfold execute_task_resume.
  keeps_walk ltac:(first [ apply known_execute_task_finally
                         | apply known_handle_task_failure
                         | known_leaf ]).
Qed.

Lemma known_cancel_task task_id : keeps (known X) (cancel_task task_id).
Proof. unfold cancel_task. keeps_walk known_leaf. Qed.

Lemma known_submit_dependency_loop task_id l all_deps rest :
  keeps (known X) (submit_dependency_loop task_id l all_deps rest).
Proof.
  induction rest as [|d rest IH]; cbn [submit_dependency_loop];
    [apply keeps_ret|].
  keeps_walk ltac:(first [ exact IH | known_leaf ]).
Qed.

Lemma known_submit_task task_id func priority timeout max_retries deps
    callback now :
  keeps (known X)
    (submit_task task_id func priority timeout max_retries deps callback now).
Proof.
  unfold submit_task.
  keeps_walk ltac:(first [ apply known_submit_dependency_loop
                         | apply known_queue_task
                         | known_leaf ]).
Qed.

Lemma known_stop_loop items : keeps (known X) (stop_loop items).
Proof.
  induction items as [|[task_id future] items IH]; cbn [stop_loop];
    [apply keeps_ret|].
  keeps_walk ltac:(first [ exact IH | known_leaf ]).
Qed.

Lemma known_stop items : keeps (known X) (stop items).
Proof.
  unfold stop.
  keeps_walk ltac:(first [ apply known_stop_loop | known_leaf ]).
Qed.

Lemma known_get_metrics : keeps (known X) get_metrics.
Proof. unfold get_metrics. keeps_walk known_leaf. Qed.

Lemma known_apply_op o s : known X s -> known X (apply_op o s).
Proof.
  intros HI. destruct o; cbn [apply_op].
  - apply keeps_state; [apply known_submit_task | exact HI].
  - pose proof (known_get_next_from [CRITICAL; HIGH; NORMAL; LOW] s HI)
      as Hn. unfold _get_next_task.
    destruct (get_next_from [CRITICAL; HIGH; NORMAL; LOW] s)
      as [[[l|]|e] s1]; try exact Hn.
    apply keeps_state; [apply known_execute_task_begin | exact Hn].
  - destruct (task_futures s !! task_id); exact HI.
  - destruct (bool_decide (l ∈ awaiting s)); [|exact HI].
    apply keeps_state; [apply known_execute_task_resume | exact HI].
  - apply keeps_state; [apply known_cancel_task | exact HI].
Qed.

Lemma known_perform k s :
  k <> ClearCompleted -> known X s -> known X (perform k s).
Proof.
  intros Hk HI. destruct k; cbn [perform].
  - now apply known_apply_op.
  - unfold start. destruct (is_running s); exact HI.
  - apply keeps_state; [apply known_stop | exact HI].
  - apply keeps_state; [apply known_get_metrics | exact HI].
  - congruence.
Qed.

Lemma known_session ks s :
  ClearCompleted ∉ ks -> known X s -> known X (session ks s).
Proof.
  revert s. induction ks as [|k ks IH]; intros s Hks HI; [exact HI|].
  cbn. apply IH.
  - intros H. apply Hks, elem_of_cons. now right.
  - apply known_perform; [|exact HI].
    intros ->. apply Hks, elem_of_cons. now left.
Qed.

End Known.

(** A submission that is accepted makes its id known. *)
Lemma submit_dependency_loop_known task_id l all_deps rest t :
  hoare (fun s => heap s !! l = Some t)
    (submit_dependency_loop task_id l all_deps rest)
    (fun registered s =>
       heap s !! l = Some t /\ (registered = true -> known task_id s))
    (fun _ => True).
Proof.
  induction rest as [|d rest IH]; cbn [submit_dependency_loop].
  - intros s H. cbn. split; [exact H | discriminate].
  - intros s H. unfold bind at 1. unfold gets at 1.
    destruct (completed_tasks s !! d); [now apply IH|].
    unfold bind, modify, ret. cbn. split; [exact H|]. intros _.
    left. cbn. rewrite lookup_insert_is_Some'. now left.
Qed.

Lemma submit_task_known task_id func priority timeout max_retries deps
    callback now s r :
  fst (submit_task task_id func priority timeout max_retries deps callback
         now s) = Ok r ->
  known task_id
    (snd (submit_task task_id func priority timeout max_retries deps callback
            now s)).
Proof.
  remember (submit_task task_id func priority timeout max_retries deps
              callback now s) as res eqn:Hres. revert Hres.
  unfold submit_task. unfold bind at 1. unfold gets at 1.
  destruct (negb (is_running s)); [intros ->; discriminate|].
  unfold bind at 1. unfold gets at 1. unfold bind at 1. unfold gets at 1.
  destruct (bool_decide _ || bool_decide _); [intros ->; discriminate|].
  unfold bind at 1. unfold gets at 1. unfold bind at 1. unfold modify at 1.
  set (task := mkTask task_id func priority timeout 0 max_retries PENDING now
                 None None PyNone None (default [] deps) callback).
  set (s1 := set_heap (heap s ++ [task]) s).
  assert (Hl : heap s1 !! length (heap s) = Some task).
  { subst s1. cbn. rewrite lookup_app_r by lia. now rewrite Nat.sub_diag. }
  pose proof (submit_dependency_loop_known task_id (length (heap s))
                (t_dependencies task) (t_dependencies task) task s1 Hl)
    as Hloop.
  unfold bind at 1.
  destruct (submit_dependency_loop task_id (length (heap s))
              (t_dependencies task) (t_dependencies task) s1)
    as [[registered|e] s2]; [|intros ->; discriminate].
  destruct Hloop as [Hl2 Hreg].
  destruct registered; [intros -> _; now apply Hreg|].
  unfold _queue_task, bind, read_task, modify, ret. rewrite Hl2.
  intros -> _. left. cbn. rewrite lookup_insert_is_Some'. now left.
Qed.

(** Once a submission has been accepted its id stays taken: whatever the
    clients and the workers do afterwards, short of clearing the completed
    tasks, every later submission under the same id is refused (with
    [ValueError] while the pipeline is running) and changes nothing. *)
Theorem accepted_task_id_stays_taken
    task_id func priority timeout max_retries deps callback now s r ks
    func' priority' timeout' max_retries' deps' callback' now' :
  fst (submit_task task_id func priority timeout max_retries deps callback
         now s) = Ok r ->
  ClearCompleted ∉ ks ->
  let s' := session ks
              (snd (submit_task task_id func priority timeout max_retries
                      deps callback now s)) in
  exists e,
    submit_task task_id func' priority' timeout' max_retries' deps' callback'
      now' s' = (Raise e, s')
    /\ (is_running s' = true -> e = ValueError task_id).
Proof.
  intros Hok Hks s'.
  assert (Hk : known task_id s').
  { subst s'. apply known_session; [exact Hks|].
    eapply submit_task_known; eauto. }
  unfold submit_task. unfold bind at 1. unfold gets at 1.
  destruct (is_running s') eqn:Hr; cbn [negb].
  2:{ eexists. split; [reflexivity | discriminate]. }
  unfold bind at 1. unfold gets at 1. unfold bind at 1. unfold gets at 1.
  assert (Hdup : bool_decide (is_Some (active_tasks s' !! task_id))
                 || bool_decide (is_Some (completed_tasks s' !! task_id))
                 = true).
  { apply orb_true_iff. destruct Hk as [H|H]; [left|right];
      now apply bool_decide_eq_true. }
  rewrite Hdup. eexists. split; [reflexivity | reflexivity].
Qed.

(** A submission under a known id is refused. *)
Lemma known_refused task_id func priority timeout max_retries deps callback
    now s :
  known task_id s ->
  exists e,
    submit_task task_id func priority timeout max_retries deps callback now s
    = (Raise e, s)
    /\ (is_running s = true -> e = ValueError task_id).
Proof.
  intros Hk. unfold submit_task. unfold bind at 1. unfold gets at 1.
  destruct (is_running s) eqn:Hr; cbn [negb].
  2:{ eexists. split; [reflexivity | discriminate]. }
  unfold bind at 1. unfold gets at 1. unfold bind at 1. unfold gets at 1.
  assert (Hdup : bool_decide (is_Some (active_tasks s !! task_id))
                 || bool_decide (is_Some (completed_tasks s !! task_id))
                 = true).
  { apply orb_true_iff. destruct Hk as [H|H]; [left|right];
      now apply bool_decide_eq_true. }
  rewrite Hdup. eexists. split; reflexivity.
Qed.

(** *** Batches *)

Section Batches.
Context {A : Type}.
Implicit Types (items : list A) (processor_func : list A -> string).

Lemma py_range_positive n step :
  0 < step ->
  py_range n step
  = Ok (map (fun k => Z.of_nat k * step)
          (seq 0 (Z.to_nat ((n + step - 1) / step)))).
Proof.
  intros H. unfold py_range.
  destruct (Z.eqb_spec step 0); [lia|].
  destruct (Z.ltb_spec step 0); [lia | reflexivity].
Qed.



Lemma known_submit_batches X items processor_func batch_size priority clock
    indices :
  keeps (known X)
    (submit_batches items processor_func batch_size priority clock indices).
Proof.
  induction indices as [|i indices IH]; cbn [submit_batches];
    [apply keeps_ret|].
  apply keeps_bind; [apply known_submit_task | intros _].
  apply keeps_bind; [exact IH | intros ?; apply keeps_ret].
Qed.

Lemma first_index n step :
  0 < n -> 0 < step ->
  exists rest, py_range n step = Ok (0 :: rest).
Proof.
  intros Hn Hs. rewrite py_range_positive by exact Hs.
  assert (H : 1 <= (n + step - 1) / step).
  { apply Z.div_le_lower_bound; lia. }
  destruct (Z.to_nat ((n + step - 1) / step)) as [|m] eqn:Hm; [lia|].
  cbn [seq map]. eauto.
Qed.

(** [process_batch] names its tasks [batch_0], [batch_1], ... on every
    call.  So once one call has submitted its batches, no other call on the
    same pipeline gets anywhere (short of the completed tasks being
    cleared): its first submission is refused, with [ValueError] while the
    pipeline is running, and nothing is submitted. *)
Theorem process_batch_works_once_per_pipeline
    items processor_func batch_size priority clock s ids ks
    items' processor_func' batch_size' priority' clock' :
  items <> [] -> 0 < batch_size ->
  fst (process_batch items processor_func batch_size priority clock s)
  = Ok ids ->
  ClearCompleted ∉ ks ->
  items' <> [] -> 0 < batch_size' ->
  let s' := session ks
              (snd (process_batch items processor_func batch_size priority
                      clock s)) in
  exists e,
    process_batch items' processor_func' batch_size' priority' clock' s'
    = (Raise e, s')
    /\ (is_running s' = true -> e = ValueError "batch_0").
Proof.
  intros Hitems Hb Hok Hks Hitems' Hb' s'.
  assert (Hlen : forall l : list A, l <> [] -> 0 < Z.of_nat (length l))
    by (intros [|x l] H; [congruence | cbn; lia]).
  assert (Hk : known "batch_0" s').
  { subst s'. apply known_session; [exact Hks|].
    revert Hok.
    remember (process_batch items processor_func batch_size priority clock s)
      as res eqn:Hres. revert Hres. unfold process_batch.
    destruct (first_index (Z.of_nat (length items)) batch_size
                (Hlen _ Hitems) Hb) as [rest ->].
    cbn [submit_batches]. rewrite Z.div_0_l by lia.
    change ("batch_" ++ str_of_int 0)%string with "batch_0"%string.
    set (first := submit_task "batch_0" _ priority 30 3 None None (clock 0)).
    pose proof (submit_task_known "batch_0"
                  (processor_func (slice items 0 batch_size)) priority 30 3
                  None None (clock 0) s) as Hfirst.
    fold first in Hfirst. unfold bind at 1.
    destruct (first s) as [[r|e] s1]; [|intros ->; discriminate].
    intros -> _. specialize (Hfirst r eq_refl). cbn [snd] in Hfirst.
    apply keeps_state; [|exact Hfirst].
    apply keeps_bind; [apply known_submit_batches | intros ?; apply keeps_ret]. }
  unfold process_batch.
  destruct (first_index (Z.of_nat (length items')) batch_size'
              (Hlen _ Hitems') Hb') as [rest ->].
  cbn [submit_batches]. rewrite Z.div_0_l by lia.
  change ("batch_" ++ str_of_int 0)%string with "batch_0"%string.
  destruct (known_refused "batch_0"
              (processor_func' (slice items' 0 batch_size')) priority' 30 3
              None None (clock' 0) s' Hk) as (e & He & Hv).
  exists e. split; [|exact Hv]. unfold bind at 1. now rewrite He.
Qed.

End Batches.

(** *** Waiting *)

(** A timeout that the waiting loops ignore. *)
Definition no_timeout (timeout : option Q) : Prop :=
  timeout = None \/ exists t, timeout = Some t /\ (t == 0)%Q.

Lemma no_timeout_never_times_out timeout start_time now :
  no_timeout timeout -> timed_out timeout start_time now = false.
Proof.
  intros [->|(t & -> & Ht)]; [reflexivity|]. unfold timed_out.
  apply Qeq_bool_iff in Ht. now rewrite Ht.
Qed.

(** A timeout of 0 is no timeout at all: like [None] it never expires.
    With it [wait_for_task] sleeps on for as long as the task is not among
    the completed tasks, and [wait_for_all] for as long as a task is active
    or queued, however late it gets. *)
Theorem zero_timeout_never_expires task_id timeout start_time wakeups :
  no_timeout timeout ->
  ((forall now s, (now, s) ∈ wakeups -> completed_tasks s !! task_id = None) ->
   wait_for_task task_id timeout start_time wakeups = Sleeps)
  /\ ((forall now s, (now, s) ∈ wakeups ->
         active_tasks s <> ∅ \/ all_queued (task_queues s) <> []) ->
      wait_for_all timeout start_time wakeups = Sleeps).
Proof.
  intros Ht. split; intros H.
  - unfold wait_for_task.
    induction wakeups as [|[now s] wakeups IH]; [reflexivity|].
    cbn [polling]. unfold wait_for_task_poll.
    rewrite (H now s) by (apply elem_of_cons; now left).
    rewrite no_timeout_never_times_out by exact Ht. apply IH.
    intros now' s' Hin. apply (H now' s'), elem_of_cons. now right.
  - unfold wait_for_all.
    induction wakeups as [|[now s] wakeups IH]; [reflexivity|].
    cbn [polling]. unfold wait_for_all_poll.
    assert (Hbusy : negb (bool_decide (active_tasks s = ∅))
                    || any_queued (task_queues s) = true).
    { destruct (H now s ltac:(apply elem_of_cons; now left)) as [Ha|Hq].
      - rewrite bool_decide_eq_false_2 by exact Ha. reflexivity.
      - apply orb_true_iff. right. unfold any_queued, all_queued in *.
        destruct (q_critical _), (q_high _), (q_normal _), (q_low _);
          cbn in *; congruence. }
    rewrite Hbusy, no_timeout_never_times_out by exact Ht. apply IH.
    intros now' s' Hin. apply (H now' s'), elem_of_cons. now right.
Qed.

(** [wait_for_task] looks for the task among the completed tasks before it
    looks at the clock.  At the first wakeup that finds the task there it
    reports, even if the timeout has run out by then: the result of a
    COMPLETED task is returned and the error of a FAILED task is raised. *)
Theorem wait_for_task_reports_at_first_completion
    task_id timeout start_time before now s after l task :
  (forall now0 s0, (now0, s0) ∈ before ->
     completed_tasks s0 !! task_id = None
     /\ timed_out timeout start_time now0 = false) ->
  completed_tasks s !! task_id = Some l ->
  heap s !! l = Some task ->
  wait_for_task task_id timeout start_time (before ++ (now, s) :: after)
  = match t_status task with
    | COMPLETED => Return (t_result task)
    | FAILED => match t_error task with
                | Some e => Raises e
                | None => RaisesNone
                end
    | _ => Raises (RuntimeError task_id)
    end.
Proof.
  intros Hb Hc Hl. unfold wait_for_task.
  induction before as [|[now0 s0] before IH].
  - cbn [app polling]. unfold wait_for_task_poll. rewrite Hc, Hl.
    destruct (t_status task); try reflexivity.
    destruct (t_error task); reflexivity.
  - cbn [app polling]. unfold wait_for_task_poll at 1.
    destruct (Hb now0 s0 ltac:(apply elem_of_cons; now left)) as [-> ->].
    apply IH. intros now1 s1 Hin. apply Hb, elem_of_cons. now right.
Qed.

(** *** Clearing the completed tasks *)

(** [clear_completed_tasks] makes the pipeline forget that a task ever
    finished.  A task that names a finished task as its only dependency is
    queued at once; submitted after the clearing, the same task is parked,
    waiting for a dependency that has already run.  The id of the finished
    task can be submitted again. *)
Theorem clear_completed_tasks_forgets_finished_tasks
    s dep l task_id func priority timeout max_retries callback now :
  is_running s = true ->
  completed_tasks s !! dep = Some l ->
  active_tasks s !! dep = None ->
  active_tasks s !! task_id = None ->
  completed_tasks s !! task_id = None ->
  let submit := submit_task task_id func priority timeout max_retries
                  (Some [dep]) callback now in
  let queued := snd (submit s) in
  let parked := snd (submit (clear_completed_tasks s)) in
  fst (submit s) = Ok task_id
  /\ queue_of priority (task_queues queued)
     = queue_of priority (task_queues s) ++ [length (heap s)]
  /\ dependency_graph queued !! task_id = dependency_graph s !! task_id
  /\ fst (submit (clear_completed_tasks s)) = Ok task_id
  /\ task_queues parked = task_queues s
  /\ dependency_graph parked !! task_id = Some [dep]
  /\ get_task_status task_id parked = Some PENDING
  /\ get_task_status dep (clear_completed_tasks s) = None
  /\ forall func' now',
       fst (submit_task dep func' priority timeout max_retries None callback
              now' (clear_completed_tasks s)) = Ok dep.
Proof.
  intros Hrun Hdep Hadep Ha Hc submit queued parked.
  assert (Hq : submit s
               = (Ok task_id,
                  snd (submit s))
               /\ queue_of priority (task_queues (snd (submit s)))
                  = queue_of priority (task_queues s) ++ [length (heap s)]
               /\ dependency_graph (snd (submit s)) !! task_id
                  = dependency_graph s !! task_id).
  { subst submit. cbv beta.
    remember (submit_task task_id func priority timeout max_retries
                (Some [dep]) callback now s) as res eqn:Hres.
    revert Hres. unfold submit_task at 1.
    unfold bind at 1. unfold gets at 1. rewrite Hrun. cbn [negb].
    unfold bind at 1. unfold gets at 1. unfold bind at 1. unfold gets at 1.
    rewrite Ha, Hc.
    rewrite !bool_decide_eq_false_2 by (intros [? ?]; discriminate).
    cbn [orb].
    unfold bind at 1. unfold gets at 1. unfold bind at 1. unfold modify at 1.
    unfold bind at 1. cbn [t_dependencies default]. unfold id. cbn [submit_dependency_loop].
    unfold bind at 1. unfold gets at 1. cbn [completed_tasks set_heap].
    rewrite Hdep. unfold ret at 1.
    unfold _queue_task, bind, read_task, modify, ret.
    cbn [heap set_heap]. rewrite lookup_app_r by lia.
    rewrite Nat.sub_diag. cbn [lookup list_lookup]. cbn.
    intros ->. cbn. repeat split.
    destruct priority; reflexivity. }
  destruct Hq as (Hq1 & Hq2 & Hq3).
  assert (Hp : exists d, d ∈ [dep]
             /\ completed_tasks (clear_completed_tasks s) !! d = None
             /\ submit (clear_completed_tasks s)
                = (Ok task_id,
                   registered_under d task_id
                     (length (heap (clear_completed_tasks s))) [dep]
                     (set_heap (heap (clear_completed_tasks s)
                                ++ [mkTask task_id func priority timeout 0
                                      max_retries PENDING now None None
                                      PyNone None [dep] callback])
                        (clear_completed_tasks s)))).
  { apply submit_task_unresolved; auto.
    exists dep. split; [apply elem_of_cons; now left | reflexivity]. }
  destruct Hp as (d & Hd & _ & Hp).
  apply list_elem_of_singleton in Hd. subst d.
  subst queued parked. rewrite Hp. cbn [fst snd].
  split; [now rewrite Hq1|]. split; [exact Hq2|]. split; [exact Hq3|].
  split; [reflexivity|]. split; [reflexivity|].
  split.
  { unfold registered_under. cbn. now rewrite lookup_insert_eq. }
  split.
  { unfold get_task_status, registered_under. cbn.
    rewrite lookup_insert_eq. rewrite lookup_app_r by lia.
    now rewrite Nat.sub_diag. }
  split.
  { unfold get_task_status, clear_completed_tasks.
    cbn [active_tasks completed_tasks set_completed_tasks].
    now rewrite Hadep, lookup_empty. }
  intros func' now'. unfold submit_task, clear_completed_tasks.
  unfold bind at 1. unfold gets at 1. cbn [is_running set_completed_tasks].
  rewrite Hrun. cbn [negb].
  unfold bind at 1. unfold gets at 1. unfold bind at 1. unfold gets at 1.
  cbn [active_tasks completed_tasks set_completed_tasks].
  rewrite Hadep, lookup_empty.
  rewrite !bool_decide_eq_false_2 by (intros [? ?]; discriminate).
  cbn [orb]. unfold bind, gets, modify, ret. cbn.
  unfold _queue_task, bind, read_task, modify, ret. cbn.
  rewrite lookup_app_r by lia. rewrite Nat.sub_diag. reflexivity.
Qed.

(** *** Stopping *)




(** A pipeline with one task, drawn by a worker and running. *)
Definition one_at_work : AsyncPipeline :=
  run [OpSubmit "T" "f" NORMAL 30 3 None None 0; OpDraw 1] (start init).


(** *** Examples *)

Ltac not_in_list :=
  let H := fresh "H" in
  intros H; vm_compute in H;
  repeat (apply elem_of_cons in H as [H|H]; [discriminate H|]);
  apply elem_of_nil in H; exact H.

(** A pipeline in which the task ["T"] has run to completion. *)
Definition one_done : AsyncPipeline :=
  run [OpSubmit "T" "f" NORMAL 30 3 None None 0; OpDraw 1;
                OpResume 0 (Returned (PyInt 42)) 2] (start init).

Lemma accepted_task_id_stays_taken_witness :
  let s := snd (submit_task "T" "f" NORMAL 30 3 None None 0
                  (start init)) in
  let s' := session [Op (OpDraw 1); Op (OpResume 0 (Returned (PyInt 42)) 2);
                     GetMetrics] s in
  exists e, submit_task "T" "g" HIGH 10 0 None None 3 s' = (Raise e, s')
            /\ e = ValueError "T".
Proof.
  intros s s'.
  destruct (accepted_task_id_stays_taken "T" "f" NORMAL 30 3 None None 0
              (start init) "T"
              [Op (OpDraw 1); Op (OpResume 0 (Returned (PyInt 42)) 2);
               GetMetrics]
              "g" HIGH 10 0 None None 3) as (e & H1 & H2).
  - reflexivity.
  - not_in_list.
  - exists e. split; [exact H1|]. apply H2. reflexivity.
Defined.


Lemma process_batch_works_once_per_pipeline_witness :
  let first := process_batch [1; 2; 3] (fun _ => "f"%string) 2 NORMAL
                 (fun _ => 0%Q) (start init) in
  exists e,
    process_batch [4] (fun _ => "g"%string) 1 HIGH (fun _ => 1%Q) (snd first)
    = (Raise e, snd first)
    /\ e = ValueError "batch_0".
Proof.
  intros first.
  destruct (process_batch_works_once_per_pipeline [1; 2; 3]
              (fun _ => "f"%string) 2 NORMAL (fun _ => 0%Q)
              (start init) ["batch_0"; "batch_1"]%string []
              [4] (fun _ => "g"%string) 1 HIGH (fun _ => 1%Q))
    as (e & H1 & H2); try discriminate; try lia.
  - reflexivity.
  - apply not_elem_of_nil.
  - exists e. split; [exact H1|]. apply H2. reflexivity.
Defined.

Lemma zero_timeout_never_expires_witness :
  wait_for_task "nobody" (Some 0%Q) 0
    [(1%Q, init); (1000000%Q, init)] = Sleeps.
Proof.
  apply (proj1 (zero_timeout_never_expires "nobody" (Some 0%Q) 0
                  [(1%Q, init); (1000000%Q, init)]
                  (or_intror (ex_intro _ 0%Q (conj eq_refl (Qeq_refl 0)))))).
  intros now s Hin.
  apply elem_of_cons in Hin as [[= _ ->]|Hin]; [reflexivity|].
  apply elem_of_cons in Hin as [[= _ ->]|Hin]; [reflexivity|].
  apply elem_of_nil in Hin. contradiction.
Defined.

Lemma wait_for_task_reports_at_first_completion_witness :
  wait_for_task "T" (Some 1%Q) 0
    [(1%Q, one_at_work); (5%Q, one_done)] = Return (PyInt 42).
Proof.
  apply (wait_for_task_reports_at_first_completion "T" (Some 1%Q) 0
           [(1%Q, one_at_work)] 5 one_done [] 0%nat
           (mkTask "T" "f" NORMAL 30 0 3 COMPLETED 0 (Some 1%Q) (Some 2%Q)
              (PyInt 42) None [] None)).
  - intros now s Hin.
    apply elem_of_cons in Hin as [[= -> ->]|Hin];
      [split; reflexivity|].
    apply elem_of_nil in Hin. contradiction.
  - reflexivity.
  - reflexivity.
Defined.

Lemma clear_completed_tasks_forgets_finished_tasks_witness :
  let submit := submit_task "U" "g" NORMAL 30 3 (Some ["T"%string]) None 3 in
  queue_of NORMAL (task_queues (snd (submit one_done))) = [1%nat]
  /\ task_queues (snd (submit (clear_completed_tasks one_done)))
     = task_queues one_done.
Proof.
  intros submit.
  destruct (clear_completed_tasks_forgets_finished_tasks one_done "T" 0%nat
              "U" "g" NORMAL 30 3 None 3)
    as (_ & H2 & _ & _ & H5 & _); try reflexivity.
  split; [exact H2 | exact H5].
Defined.

(** *** Well-formed pipelines *)

(** The task object at [l] bears the id [X]. *)
Definition id_at (s : AsyncPipeline) (l : loc) (X : string) : Prop :=
  exists t, heap s !! l = Some t /\ t_id t = X.

(** The tasks waiting in a queue or held by a worker. *)
Definition in_flight (s : AsyncPipeline) : list loc :=
  all_queued (task_queues s) ++ awaiting s.

(** A task whose run has come to an end. *)
Definition finished (t : PipelineTask) : Prop :=
  t_status t = COMPLETED \/ t_status t = FAILED.

Record well_formed (s : AsyncPipeline) : Prop := {
  wf_active : forall X l, active_tasks s !! X = Some l -> id_at s l X;
  wf_completed : forall X l, completed_tasks s !! X = Some l ->
                 exists t, heap s !! l = Some t /\ t_id t = X /\ finished t;
  wf_disjoint : forall X, is_Some (active_tasks s !! X) ->
                completed_tasks s !! X = None;
  wf_in_flight : forall l, l ∈ in_flight s ->
                 exists X, id_at s l X /\ active_tasks s !! X = Some l;
  wf_once : NoDup (in_flight s);
  wf_futures : forall X, is_Some (task_futures s !! X) ->
               is_Some (active_tasks s !! X);
  wf_released : forall l X, l ∈ in_flight s -> id_at s l X ->
                dependency_graph s !! X = None;
  wf_parked : forall X, is_Some (dependency_graph s !! X) ->
              is_Some (active_tasks s !! X)
}.

(** The task at [l], with id [X], is in the hands of the code that is
    running: registered as active, but in no queue and with no worker. *)
Record at_work (l : loc) (X : string) (s : AsyncPipeline) : Prop := {
  aw_out : l ∉ in_flight s;
  aw_id : id_at s l X;
  aw_active : active_tasks s !! X = Some l;
  aw_released : dependency_graph s !! X = None
}.

Definition working (l : loc) (X : string) (s : AsyncPipeline) : Prop :=
  well_formed s /\ at_work l X s.

Lemma id_at_unique s l X Y : id_at s l X -> id_at s l Y -> X = Y.
Proof. intros (t & H1 & <-) (t' & H2 & <-). congruence. Qed.

(** Changes that touch neither the task objects nor the registers, and add
    no future. *)
Lemma wf_same s s' :
  heap s' = heap s ->
  active_tasks s' = active_tasks s ->
  completed_tasks s' = completed_tasks s ->
  in_flight s' = in_flight s ->
  (forall X, is_Some (task_futures s' !! X) -> is_Some (task_futures s !! X)) ->
  dependency_graph s' = dependency_graph s ->
  well_formed s -> well_formed s'.
Proof.
  intros Hh Ha Hc Hf Hfu Hg [W1 W2 W9 W3 W4 W5 W7 W8].
  split; unfold id_at in *; rewrite ?Hh, ?Ha, ?Hc, ?Hf, ?Hg; auto.
Qed.

Lemma at_work_same l X s s' :
  heap s' = heap s ->
  active_tasks s' = active_tasks s ->
  in_flight s' = in_flight s ->
  dependency_graph s' = dependency_graph s ->
  at_work l X s -> at_work l X s'.
Proof.
  intros Hh Ha Hf Hg [A1 A2 A3 A4].
  split; unfold id_at in *; rewrite ?Hh, ?Ha, ?Hf, ?Hg; auto.
Qed.

Lemma id_at_update s l t f l' X :
  heap s !! l = Some t -> keeps_identity f ->
  id_at (set_heap (<[l := f t]> (heap s)) s) l' X <-> id_at s l' X.
Proof.
  intros Hl Hf. unfold id_at. cbn.
  pose proof (lookup_lt_Some _ _ _ Hl) as Hlt.
  destruct (Hf t) as [Hid _].
  destruct (decide (l' = l)) as [->|Hne].
  - rewrite list_lookup_insert_eq by exact Hlt. split.
    + intros (t' & [= <-] & <-). eauto.
    + intros (t' & H' & <-). exists (f t). split; [reflexivity|]. congruence.
  - now rewrite list_lookup_insert_ne by congruence.
Qed.

(** Updating a field, other than the id, of an active task. *)
Lemma wf_update s l t f :
  heap s !! l = Some t -> keeps_identity f ->
  active_tasks s !! t_id t = Some l ->
  well_formed s -> well_formed (set_heap (<[l := f t]> (heap s)) s).
Proof.
  intros Hl Hf Hact [W1 W2 W9 W3 W4 W5 W7 W8].
  pose proof (fun l' X => id_at_update s l t f l' X Hl Hf) as Hid.
  split; auto.
  - intros X l' H. apply Hid. eauto.
  - intros X l' H. cbn in H. destruct (W2 X l' H) as (t' & Ht' & HX & Hfin).
    exists t'. split; [|auto]. cbn.
    rewrite list_lookup_insert_ne; [exact Ht'|].
    intros <-. replace t' with t in * by congruence.
    rewrite HX in Hact. rewrite W9 in H by eauto. discriminate.
  - intros l' H. destruct (W3 l' H) as (X & H1 & H2). exists X.
    split; [now apply Hid | exact H2].
  - intros l' X H H'. apply (W7 l' X H). now apply Hid.
Qed.

Lemma at_work_update s l t f l0 X :
  heap s !! l = Some t -> keeps_identity f ->
  at_work l0 X s -> at_work l0 X (set_heap (<[l := f t]> (heap s)) s).
Proof.
  intros Hl Hf [A1 A2 A3 A4]. split; auto. now apply id_at_update.
Qed.

Lemma working_read_task l0 X l : keeps (working l0 X) (read_task l).
Proof. intros s H. unfold read_task. destruct (heap s !! l); exact H. Qed.

Lemma working_update_task l X f :
  keeps_identity f -> keeps (working l X) (update_task l f).
Proof.
  intros Hf s [H1 H2]. unfold update_task, bind, read_task, modify.
  destruct (heap s !! l) as [t|] eqn:Hl; [|split; assumption].
  split; [|now apply at_work_update].
  apply wf_update; auto.
  destruct H2 as [_ (t' & Ht' & Hid) A3 _].
  replace t with t' by congruence. now rewrite Hid.
Qed.

(** Updates of the metrics, the logs, the reverse index and the running
    flag. *)
Ltac same_fields :=
  first [ reflexivity | intros; reflexivity
        | let H := fresh in intros ? H; exact H ].

Ltac wf_frame :=
  apply keeps_modify;
  let s := fresh "s" in let H := fresh "H" in
  intros s H; try (destruct (_ <? _));
  first [ exact H | revert H; apply wf_same; same_fields ].

Ltac working_frame :=
  apply keeps_modify;
  let s := fresh "s" in let H1 := fresh "H" in let H2 := fresh "H" in
  intros s [H1 H2]; try (destruct (_ <? _));
  (split; [ first [ exact H1 | revert H1; apply wf_same; same_fields ]
          | first [ exact H2 | revert H2; apply at_work_same; same_fields ] ]).

Lemma all_queued_push_perm p l q :
  all_queued (set_queue p (queue_of p q ++ [l]) q) ≡ₚ l :: all_queued q.
Proof.
  destruct p, q as [qc qh qn ql]; unfold all_queued; cbn;
    rewrite <- ?app_assoc; cbn; rewrite <- ?Permutation_middle;
    rewrite ?app_nil_r; reflexivity.
Qed.

Lemma all_queued_pop_perm p l rest q :
  queue_of p q = l :: rest ->
  all_queued q ≡ₚ l :: all_queued (set_queue p rest q).
Proof.
  destruct p, q as [qc qh qn ql]; unfold all_queued; cbn; intros ->;
    cbn; rewrite <- ?Permutation_middle; reflexivity.
Qed.

Lemma remove_first_perm l ls : l ∈ ls -> ls ≡ₚ l :: remove_first l ls.
Proof.
  induction ls as [|x ls IH]; intros H; [now apply elem_of_nil in H|].
  cbn. destruct (Nat.eqb_spec x l) as [->|Hne]; [reflexivity|].
  apply elem_of_cons in H as [H|H]; [congruence|].
  rewrite (IH H) at 1. apply perm_swap.
Qed.

(** Taking a task out of the queues or away from its worker. *)
Lemma wf_take_out s s' l :
  well_formed s ->
  in_flight s ≡ₚ l :: in_flight s' ->
  heap s' = heap s ->
  active_tasks s' = active_tasks s ->
  completed_tasks s' = completed_tasks s ->
  task_futures s' = task_futures s ->
  dependency_graph s' = dependency_graph s ->
  exists X, working l X s'.
Proof.
  intros [W1 W2 W9 W3 W4 W5 W7 W8] Hp Hh Ha Hc Hfu Hg.
  assert (Hl : l ∈ in_flight s) by (rewrite Hp; apply elem_of_cons; now left).
  assert (Hsub : forall l', l' ∈ in_flight s' -> l' ∈ in_flight s)
    by (intros l' H; rewrite Hp; apply elem_of_cons; now right).
  rewrite Hp in W4. apply NoDup_cons in W4 as [Hout W4].
  destruct (W3 l Hl) as (X & H1 & H2). exists X.
  split; split; unfold id_at in *; rewrite ?Hh, ?Ha, ?Hc, ?Hfu, ?Hg; eauto.
Qed.

(** Putting a task, registered under its id or about to be, into a queue
    or into the hands of a worker. *)
Lemma wf_put_in s s' l X :
  well_formed s ->
  l ∉ in_flight s -> id_at s l X ->
  (active_tasks s !! X = Some l \/ active_tasks s !! X = None) ->
  completed_tasks s !! X = None ->
  dependency_graph s !! X = None ->
  in_flight s' ≡ₚ l :: in_flight s ->
  heap s' = heap s ->
  active_tasks s' = <[X := l]> (active_tasks s) ->
  completed_tasks s' = completed_tasks s ->
  (forall Y, is_Some (task_futures s' !! Y) ->
             Y = X \/ is_Some (task_futures s !! Y)) ->
  dependency_graph s' = dependency_graph s ->
  well_formed s'.
Proof.
  intros [W1 W2 W9 W3 W4 W5 W7 W8] Hout HX Hact Hcom Hrel Hp Hh Ha Hc Hfu Hg.
  assert (Hkeep : forall Y l', active_tasks s !! Y = Some l' ->
                    active_tasks s' !! Y = Some l').
  { intros Y l' H. rewrite Ha. destruct (decide (Y = X)) as [->|Hne].
    - rewrite lookup_insert_eq. destruct Hact as [Hact|Hact]; congruence.
    - now rewrite lookup_insert_ne by congruence. }
  split; unfold id_at in *; rewrite ?Hh, ?Hc, ?Hg; auto.
  - intros Y l' H. rewrite Ha in H.
    destruct (decide (Y = X)) as [->|Hne].
    + rewrite lookup_insert_eq in H. now injection H as <-.
    + rewrite lookup_insert_ne in H by congruence. eauto.
  - intros Y H. rewrite Ha in H.
    apply lookup_insert_is_Some' in H as [<-|H]; auto.
  - intros l' H. rewrite Hp in H. apply elem_of_cons in H as [->|H].
    + exists X. split; [exact HX|]. rewrite Ha. apply lookup_insert_eq.
    + destruct (W3 l' H) as (Y & H3 & H4). exists Y. auto.
  - rewrite Hp. apply NoDup_cons. auto.
  - intros Y H. destruct (Hfu Y H) as [->|H'].
    + rewrite Ha, lookup_insert_eq. eauto.
    + destruct (W5 Y H') as [l' Hl']. exists l'. now apply Hkeep.
  - intros l' Y H H'. rewrite Hp in H.
    apply elem_of_cons in H as [->|H]; [|eauto].
    now rewrite (id_at_unique s _ _ _ H' HX).
  - intros Y H. destruct (W8 Y H) as [l' Hl']. exists l'. now apply Hkeep.
Qed.

(** [_queue_task] on a task that is in no queue and with no worker. *)
Lemma queue_task_wf l X s :
  well_formed s ->
  l ∉ in_flight s -> id_at s l X ->
  (active_tasks s !! X = Some l \/ active_tasks s !! X = None) ->
  completed_tasks s !! X = None ->
  dependency_graph s !! X = None ->
  exists s', _queue_task l s = (Ok tt, s') /\ well_formed s'
             /\ heap s' = heap s.
Proof.
  intros Hwf Hout HX Hact Hcom Hrel. pose proof HX as (t & Hl & Hid).
  unfold _queue_task, bind, read_task, modify. rewrite Hl.
  eexists. split; [reflexivity|]. split; [|reflexivity].
  apply (wf_put_in s _ l X); auto; cbn; rewrite ?Hid; auto.
  unfold in_flight. cbn. now rewrite all_queued_push_perm.
Qed.

Lemma hoare_read {B} (P : AsyncPipeline -> Prop) l (k : PipelineTask -> M B)
    (Q : B -> AsyncPipeline -> Prop) (E : AsyncPipeline -> Prop) :
  (forall t, hoare (fun s => P s /\ heap s !! l = Some t) (k t) Q E) ->
  (forall s, P s -> E s) ->
  hoare P (bind (read_task l) k) Q E.
Proof.
  intros Hk HE s HP. unfold bind, read_task.
  destruct (heap s !! l) as [t|] eqn:Hl; [apply Hk; auto | now apply HE].
Qed.

Lemma wf_get_next_from ps :
  hoare well_formed (get_next_from ps)
    (fun r s => match r with
                | Some l => exists X, working l X s
                | None => well_formed s
                end)
    well_formed.
Proof.
  induction ps as [|p ps IH]; cbn [get_next_from]; [intros s H; exact H|].
  intros s H. unfold bind at 1. unfold gets at 1.
  destruct (queue_of p (task_queues s)) as [|l rest] eqn:Hq; [now apply IH|].
  unfold bind, modify, ret.
  apply (wf_take_out s); auto.
  unfold in_flight. cbn. now rewrite (all_queued_pop_perm p l rest).
Qed.

Lemma hoare_consequence {S A} (P P' : S -> Prop) (m : SE S A)
    (Q Q' : A -> S -> Prop) (E E' : S -> Prop) :
  (forall s, P' s -> P s) -> (forall a s, Q a s -> Q' a s) ->
  (forall s, E s -> E' s) ->
  hoare P m Q E -> hoare P' m Q' E'.
Proof.
  intros HP HQ HE Hm s H. specialize (Hm s (HP s H)).
  destruct (m s) as [[a|e] s']; [apply HQ, Hm | apply HE, Hm].
Qed.

(** A step that keeps the task at work; should it raise, the pipeline is
    still well formed. *)
Lemma working_step {A} l X (m : M A) :
  keeps (working l X) m ->
  hoare (working l X) m (fun _ => working l X) well_formed.
Proof.
  apply hoare_consequence; auto. now intros s [H _].
Qed.

Lemma wf_execute_task_begin l X now :
  hoare (working l X) (execute_task_begin l now)
    (fun _ => well_formed) well_formed.
Proof.
  unfold execute_task_begin.
  eapply hoare_bind;
    [apply working_step, working_update_task, identity_with_status
    |intros ?; cbv beta].
  eapply hoare_bind;
    [apply working_step, working_update_task, identity_with_started_at
    |intros ?; cbv beta].
  apply hoare_read; [intros t | now intros s [H _]].
  intros s [[Hwf [A1 A2 A3 A4]] Hl]. unfold bind, modify.
  assert (t_id t = X) as Hid.
  { destruct A2 as (t' & Ht' & Hid). congruence. }
  apply (wf_put_in s _ l X); auto; cbn.
  - apply (wf_disjoint s Hwf). eauto.
  - unfold in_flight. cbn. rewrite app_assoc.
    symmetry. apply Permutation_cons_append.
  - now rewrite insert_id.
  - intros Y H. rewrite Hid in H.
    apply lookup_insert_is_Some' in H as [<-|H]; auto.
Qed.


(** No task object with the id [T] is in a queue or with a worker. *)
Definition parked (T : string) (s : AsyncPipeline) : Prop :=
  forall l, id_at s l T -> l ∉ in_flight s.

Lemma wf_graph_insert T ds s :
  is_Some (dependency_graph s !! T) -> well_formed s ->
  well_formed (set_dependency_graph (<[T := ds]> (dependency_graph s)) s).
Proof.
  intros HT [W1 W2 W9 W3 W4 W5 W7 W8]. split; cbn; auto.
  - intros l X H H'. destruct (decide (X = T)) as [->|Hne].
    + rewrite (W7 l T H H') in HT. now destruct HT.
    + rewrite lookup_insert_ne by congruence. eauto.
  - intros X H. apply lookup_insert_is_Some' in H as [<-|H]; auto.
Qed.

Lemma wf_graph_delete T s :
  well_formed s ->
  well_formed (set_dependency_graph (delete T (dependency_graph s)) s).
Proof.
  intros [W1 W2 W9 W3 W4 W5 W7 W8]. split; cbn; auto.
  - intros l X H H'. apply lookup_delete_None. right. eauto.
  - intros X [ds H]. apply lookup_delete_Some in H as [_ H]. eauto.
Qed.

(** The body of the loop of [_process_dependencies]. *)
Definition release_dependent (completed_task_id dependent_task_id : string)
  : M unit :=
  let* graph := gets dependency_graph in
  match graph !! dependent_task_id with
  | None => ret tt
  | Some deps =>
      match list_remove completed_task_id deps with
      | None => raise (ValueError "list.remove(x): x not in list")
      | Some deps' =>
          modify (fun s =>
            set_dependency_graph
              (<[dependent_task_id := deps']> (dependency_graph s)) s) ;;
          match deps' with
          | _ :: _ => ret tt
          | [] =>
              modify (fun s =>
                set_dependency_graph
                  (delete dependent_task_id (dependency_graph s)) s) ;;
              let* active := gets active_tasks in
              match active !! dependent_task_id with
              | None => ret tt
              | Some l =>
                  let* task := read_task l in
                  match t_status task with
                  | PENDING => _queue_task l
                  | _ => ret tt
                  end
              end
          end
      end
  end.

Lemma process_dependencies_loop completed_task_id :
  _process_dependencies completed_task_id
  = (let* rev := gets reverse_dependencies in
     match rev !! completed_task_id with
     | None => ret tt
     | Some dependents =>
         for_each dependents (release_dependent completed_task_id)
     end).
Proof. reflexivity. Qed.

Lemma wf_release_dependent task_id T :
  keeps well_formed (release_dependent task_id T).
Proof.
  unfold release_dependent.
  apply keeps_bind_gets. intros graph.
  destruct (graph !! T) as [deps|] eqn:Hg;
    [|apply keeps_weaken; [tauto | apply keeps_ret]].
  destruct (list_remove task_id deps) as [deps'|] eqn:Hrm;
    [|apply keeps_weaken; [tauto | apply keeps_raise]].
  eapply hoare_bind with (R := fun _ s => well_formed s /\ parked T s).
  { apply hoare_modify_pre. intros s [Hwf ->]. split.
    - apply wf_graph_insert; [eauto | exact Hwf].
    - intros l Hl Hin. cbn in *.
      rewrite (wf_released s Hwf l T Hin Hl) in Hg. discriminate. }
  intros _. destruct deps' as [|d deps'];
    [|apply keeps_weaken; [tauto | apply keeps_ret]].
  intros s [Hwf Hp]. unfold bind, modify, gets.
  set (s1 := set_dependency_graph (delete T (dependency_graph s)) s).
  assert (Hwf1 : well_formed s1) by now apply wf_graph_delete.
  destruct (active_tasks s1 !! T) as [l|] eqn:Ha; [|exact Hwf1].
  unfold read_task.
  destruct (heap s1 !! l) as [t|] eqn:Hl; [|exact Hwf1].
  destruct (t_status t); try exact Hwf1.
  destruct (queue_task_wf l T s1) as (s2 & -> & Hwf2 & _); auto.
  - apply Hp. apply (wf_active s1 Hwf1 T l Ha).
  - apply (wf_active s1 Hwf1 T l Ha).
  - apply (wf_disjoint s1 Hwf1). eauto.
  - apply lookup_delete_eq.
Qed.

Lemma wf_process_dependencies task_id :
  keeps well_formed (_process_dependencies task_id).
Proof.
  rewrite process_dependencies_loop.
  apply keeps_bind; [apply keeps_gets | intros rev].
  destruct (rev !! task_id) as [dependents|]; [|apply keeps_ret].
  apply keeps_for_each. intros T. apply wf_release_dependent.
Qed.

(** The task at [l] bears the status [st]. *)
Definition status_at (l : loc) (st : TaskStatus) (s : AsyncPipeline) : Prop :=
  exists t, heap s !! l = Some t /\ t_status t = st.

(** What the body of [_execute_task] leaves behind: the task is still at
    work, or it was queued again and is PENDING. *)
Definition resumed (l : loc) (X : string) (s : AsyncPipeline) : Prop :=
  well_formed s /\ id_at s l X
  /\ (at_work l X s \/ status_at l PENDING s).

Lemma working_resumed l X s : working l X s -> resumed l X s.
Proof. intros [H1 H2]. split; [exact H1|]. split; [apply H2 | now left]. Qed.

Lemma resumed_step {A} l X (m : M A) :
  keeps (working l X) m ->
  hoare (working l X) m (fun _ => working l X) (resumed l X).
Proof.
  apply hoare_consequence; auto. apply working_resumed.
Qed.

Lemma resumed_last {A} l X (m : M A) :
  keeps (working l X) m ->
  hoare (working l X) m (fun _ => resumed l X) (resumed l X).
Proof.
  apply hoare_consequence; auto; intros; now apply working_resumed.
Qed.

Lemma resumed_handle_task_failure l X now :
  hoare (working l X) (_handle_task_failure l now)
    (fun _ => resumed l X) (resumed l X).
Proof.
  unfold _handle_task_failure.
  eapply hoare_bind;
    [apply resumed_step, working_update_task, identity_with_retry_count
    |intros ?; cbv beta].
  apply hoare_read; [intros t | apply working_resumed].
  destruct (t_retry_count t <=? t_max_retries t).
  - eapply hoare_bind
      with (R := fun _ s => working l X s /\ status_at l PENDING s).
    { intros s [[Hwf Haw] Hl]. unfold update_task, bind, read_task, modify.
      rewrite Hl. split; [split|].
      - apply wf_update; auto; [apply identity_with_status|].
        destruct Haw as [_ (t' & Ht' & Hid) A3 _].
        replace t with t' by congruence. now rewrite Hid.
      - apply at_work_update; auto. apply identity_with_status.
      - exists (with_status PENDING t). cbn. split; [|reflexivity].
        apply list_lookup_insert_eq. eapply lookup_lt_Some; eauto. }
    intros _.
    eapply hoare_bind
      with (R := fun _ s => working l X s /\ status_at l PENDING s).
    { intros s [[Hwf Haw] (t' & Hl & Hst)].
      unfold update_task, bind, read_task, modify.
      rewrite Hl. split; [split|].
      - apply wf_update; auto; [apply identity_with_started_at|].
        destruct Haw as [_ (t0 & Ht0 & Hid) A3 _].
        replace t' with t0 by congruence. now rewrite Hid.
      - apply at_work_update; auto. apply identity_with_started_at.
      - exists (with_started_at None t'). cbn. split; [|exact Hst].
        apply list_lookup_insert_eq. eapply lookup_lt_Some; eauto. }
    intros _ s [[Hwf [A1 A2 A3 A4]] Hst].
    destruct (queue_task_wf l X s) as (s' & -> & Hwf' & Hh); auto.
    { apply (wf_disjoint s Hwf). eauto. }
    split; [exact Hwf'|]. unfold id_at, status_at. rewrite Hh.
    split; [exact A2 | now right].
  - eapply hoare_pre; [intros s [H _]; exact H|].
    eapply hoare_bind;
      [apply resumed_step, working_update_task, identity_with_status
      |intros ?; cbv beta].
    eapply hoare_bind;
      [apply resumed_step, working_update_task, identity_with_completed_at
      |intros ?; cbv beta].
    apply resumed_last. working_frame.
Qed.


(** Retiring a finished task that is at work and has lost its future. *)
Lemma wf_retire l X t s :
  working l X s -> task_futures s !! X = None ->
  heap s !! l = Some t -> finished t ->
  well_formed
    (set_active_tasks
       (delete X (active_tasks (set_completed_tasks
                                  (<[X := l]> (completed_tasks s)) s)))
       (set_completed_tasks (<[X := l]> (completed_tasks s)) s)).
Proof.
  intros [[W1 W2 W9 W3 W4 W5 W7 W8] [A1 A2 A3 A4]] Hfu Hl Hfin.
  split; cbn; auto.
  - intros Y l' H. apply lookup_delete_Some in H as [_ H]. eauto.
  - intros Y l' H. destruct (decide (Y = X)) as [->|Hne].
    + rewrite lookup_insert_eq in H. injection H as <-.
      exists t. split; [exact Hl|]. split; [|exact Hfin].
      destruct A2 as (t' & Ht' & Hid). congruence.
    + rewrite lookup_insert_ne in H by congruence. eauto.
  - intros Y [l' H]. apply lookup_delete_Some in H as [Hne H].
    rewrite lookup_insert_ne by congruence. eauto.
  - intros l' H. destruct (W3 l' H) as (Y & H1 & H2). exists Y.
    split; [exact H1|]. apply lookup_delete_Some. split; [|exact H2].
    intros <-. apply A1. replace l with l' by congruence. exact H.
  - intros Y H. destruct (W5 Y H) as [l' Hl']. exists l'.
    apply lookup_delete_Some. split; [|exact Hl'].
    intros <-. rewrite Hfu in H. now destruct H.
  - intros Y H. destruct (W8 Y H) as [l' Hl']. exists l'.
    apply lookup_delete_Some. split; [|exact Hl'].
    intros <-. rewrite A4 in H. now destruct H.
Qed.

Lemma wf_execute_task_finally l X :
  hoare (resumed l X) (execute_task_finally l)
    (fun _ => well_formed) well_formed.
Proof.
  unfold execute_task_finally.
  apply hoare_read; [intros t | now intros s [H _]].
  eapply hoare_bind
    with (R := fun _ s => well_formed s /\ heap s !! l = Some t
                          /\ task_futures s !! X = None
                          /\ t_id t = X
                          /\ (at_work l X s \/ t_status t = PENDING)).
  { apply hoare_modify_pre. intros s [(Hwf & HX & Hcase) Hl].
    assert (Hid : t_id t = X).
    { destruct HX as (t' & Ht' & Hid). congruence. }
    rewrite Hid. split; [|split; [exact Hl|split; [|split; [reflexivity|]]]].
    - revert Hwf. apply wf_same; try same_fields.
      cbn. intros Y [f H]. apply lookup_delete_Some in H as [_ H]. eauto.
    - cbn. apply lookup_delete_eq.
    - destruct Hcase as [Haw|(t' & Ht' & Hst)]; [left | right; congruence].
      revert Haw. apply at_work_same; same_fields. }
  intros _.
  apply hoare_read; [intros t' | tauto].
  eapply hoare_bind with (R := fun _ => well_formed); [|intros _; wf_frame].
  intros s [(Hwf & Hl & Hfu & Hid & Hcase) Hl'].
  replace t' with t by congruence. rewrite Hid.
  destruct (t_status t) eqn:Hst; try exact Hwf.
  all: destruct Hcase as [Haw|?]; [|discriminate].
  all: unfold bind, modify.
  all: apply (wf_process_dependencies X), (wf_retire l X t); auto;
    try (split; assumption); unfold finished; auto.
Qed.

Lemma hoare_try_finally {S A} (P R Q : S -> Prop) (body : SE S A)
    (fin : SE S unit) :
  hoare P body (fun _ => R) R -> hoare R fin (fun _ => Q) Q ->
  hoare P (try_finally body fin) (fun _ => Q) Q.
Proof.
  intros Hb Hf s HP. unfold try_finally. specialize (Hb s HP).
  destruct (body s) as [[a|e] s1]; specialize (Hf s1 Hb);
    destruct (fin s1) as [[u|e'] s2]; exact Hf.
Qed.

Lemma wf_execute_task_resume l X r now :
  hoare (working l X) (execute_task_resume l r now)
    (fun _ => well_formed) well_formed.
Proof.
  unfold execute_task_resume.
  apply hoare_try_finally with (R := resumed l X);
    [|apply wf_execute_task_finally].
  destruct r.
  - apply resumed_last.
    keeps_walk ltac:(first
      [ apply working_read_task
      | apply working_update_task;
        first [ apply identity_with_result | apply identity_with_status
              | apply identity_with_completed_at ]
      | working_frame ]).
  - apply hoare_read; [intros t | apply working_resumed].
    eapply hoare_pre; [intros s [H _]; exact H|].
    eapply hoare_bind;
      [apply resumed_step, working_update_task, identity_with_error
      |intros ?; cbv beta].
    apply resumed_handle_task_failure.
  - eapply hoare_bind;
      [apply resumed_step, working_update_task, identity_with_error
      |intros ?; cbv beta].
    apply resumed_handle_task_failure.
  - intros s H. now apply working_resumed.
Qed.

(** Marking an active task CANCELLED, as [cancel_task] and [stop] do. *)
Lemma cancelled_wf task_id l s :
  well_formed s -> active_tasks s !! task_id = Some l ->
  match update_task l (with_status CANCELLED) s with
  | (Ok _, s') => well_formed s'
  | (Raise _, s') => well_formed s'
  end.
Proof.
  intros Hwf Ha. unfold update_task, bind, read_task, modify.
  destruct (heap s !! l) as [t|] eqn:Hl; [|exact Hwf].
  apply wf_update; auto; [apply identity_with_status|].
  destruct (wf_active s Hwf _ _ Ha) as (t' & Ht' & Hid).
  replace t with t' by congruence. now rewrite Hid.
Qed.

Lemma wf_cancel_task task_id : keeps well_formed (cancel_task task_id).
Proof.
  unfold cancel_task. apply keeps_bind_gets. intros futures.
  destruct (futures !! task_id) as [future|] eqn:Hf;
    [|apply keeps_weaken; [tauto | apply keeps_ret]].
  destruct (negb (fut_done future));
    [|apply keeps_weaken; [tauto | apply keeps_ret]].
  eapply hoare_bind with (R := fun _ => well_formed).
  { apply hoare_modify_pre. intros s [Hwf ->]. revert Hwf.
    apply wf_same; try same_fields. cbn. intros Y H.
    apply lookup_insert_is_Some' in H as [<-|H]; eauto. }
  intros ?. cbv beta.
  apply keeps_bind_gets. intros active.
  eapply hoare_bind with (R := fun _ => well_formed);
    [|intros ?; apply keeps_ret].
  destruct (active !! task_id) as [l|] eqn:Ha;
    [|apply keeps_weaken; [tauto | apply keeps_ret]].
  intros s [Hwf Hact]. rewrite Hact in Ha.
  apply (cancelled_wf task_id l s Hwf Ha).
Qed.

Lemma wf_alloc task s :
  well_formed s -> well_formed (set_heap (heap s ++ [task]) s).
Proof.
  intros [W1 W2 W9 W3 W4 W5 W7 W8].
  assert (Hold : forall l X, id_at s l X ->
                   id_at (set_heap (heap s ++ [task]) s) l X).
  { intros l X (t & Ht & Hid). exists t. split; [|exact Hid].
    cbn. apply lookup_app_l_Some, Ht. }
  split; auto.
  - intros X l H. destruct (W2 X l H) as (t & Ht & Hid). exists t.
    split; [|exact Hid]. cbn. apply lookup_app_l_Some, Ht.
  - intros l H. destruct (W3 l H) as (X & H1 & H2). eauto.
  - intros l X H H'. destruct (W3 l H) as (Y & H1 & H2).
    rewrite (id_at_unique _ _ _ _ H' (Hold _ _ H1)). eauto.
Qed.

(** A task object that is neither registered nor scheduled yet. *)
Record unregistered (l : loc) (X : string) (s : AsyncPipeline) : Prop := {
  un_out : l ∉ in_flight s;
  un_id : id_at s l X;
  un_active : active_tasks s !! X = None;
  un_completed : completed_tasks s !! X = None;
  un_graph : dependency_graph s !! X = None
}.

Lemma wf_submit_dependency_loop X l all_deps rest :
  hoare (fun s => well_formed s /\ unregistered l X s)
    (submit_dependency_loop X l all_deps rest)
    (fun registered s =>
       well_formed s /\ (registered = false -> unregistered l X s))
    well_formed.
Proof.
  induction rest as [|dep_id rest IH]; cbn [submit_dependency_loop].
  - intros s [H1 H2]. split; auto.
  - intros s [Hwf Hun]. unfold bind at 1. unfold gets at 1.
    destruct (completed_tasks s !! dep_id) as [_l|] eqn:Hc;
      [apply IH; split; assumption|].
    unfold bind, modify, ret. split; [|discriminate].
    destruct Hwf as [W1 W2 W9 W3 W4 W5 W7 W8], Hun as [U1 U2 U3 U4 U5].
    assert (Hother : forall Y l', active_tasks s !! Y = Some l' -> Y <> X)
      by (intros Y l' H ->; congruence).
    split; cbn; auto.
    + intros Y l' H. destruct (decide (Y = X)) as [->|Hne].
      * rewrite lookup_insert_eq in H. now injection H as <-.
      * rewrite lookup_insert_ne in H by congruence. eauto.
    + intros Y H. apply lookup_insert_is_Some' in H as [<-|H]; auto.
    + intros l' H. destruct (W3 l' H) as (Y & H1 & H2). exists Y.
      split; [exact H1|]. rewrite lookup_insert_ne; [exact H2|].
      intros <-. congruence.
    + intros Y H. destruct (W5 Y H) as [l' Hl']. exists l'.
      rewrite lookup_insert_ne; [exact Hl'|]. intros <-. congruence.
    + intros l' Y H H'. destruct (W3 l' H) as (Z & H1 & H2).
      rewrite (id_at_unique _ _ _ _ H' H1).
      rewrite lookup_insert_ne; [eauto|]. intros <-. congruence.
    + intros Y H. apply lookup_insert_is_Some' in H as [<-|H].
      * rewrite lookup_insert_eq. eauto.
      * destruct (W8 Y H) as [l' Hl']. exists l'.
        rewrite lookup_insert_ne; [exact Hl'|]. intros <-. congruence.
Qed.

Lemma wf_submit_task task_id func priority timeout max_retries deps
    callback now :
  keeps well_formed
    (submit_task task_id func priority timeout max_retries deps callback now).
Proof.
  intros s HI. unfold submit_task.
  unfold bind at 1. unfold gets at 1.
  destruct (negb (is_running s)); [exact HI|].
  unfold bind at 1. unfold gets at 1.
  unfold bind at 1. unfold gets at 1.
  destruct (bool_decide (is_Some (active_tasks s !! task_id))) eqn:Ha;
    [exact HI|].
  destruct (bool_decide (is_Some (completed_tasks s !! task_id))) eqn:Hc;
    [exact HI|].
  cbn [orb].
  apply bool_decide_eq_false in Ha, Hc.
  rewrite <- eq_None_not_Some in Ha, Hc.
  unfold bind at 1. unfold gets at 1.
  unfold bind at 1. unfold modify at 1.
  set (task := mkTask task_id func priority timeout 0 max_retries PENDING now
                 None None PyNone None (default [] deps) callback).
  set (s1 := set_heap (heap s ++ [task]) s).
  assert (HI1 : well_formed s1) by now apply wf_alloc.
  assert (Hun : unregistered (length (heap s)) task_id s1).
  { split; cbn; auto.
    - intros Hin. destruct (wf_in_flight s HI _ Hin) as (Y & (t & Ht & _) & _).
      apply lookup_lt_Some in Ht. lia.
    - exists task. split; [|reflexivity]. cbn.
      rewrite lookup_app_r by lia. now rewrite Nat.sub_diag.
    - destruct (dependency_graph s !! task_id) eqn:Hg; [|reflexivity].
      destruct (wf_parked s HI task_id) as [l' Hl']; [eauto | congruence]. }
  pose proof (wf_submit_dependency_loop task_id (length (heap s))
                (t_dependencies task) (t_dependencies task) s1
                (conj HI1 Hun)) as Hloop.
  unfold bind at 1.
  destruct (submit_dependency_loop task_id (length (heap s))
              (t_dependencies task) (t_dependencies task) s1)
    as [[registered|e] s2]; [|exact Hloop].
  destruct Hloop as [HI2 Hun2].
  destruct registered; [exact HI2|].
  destruct (Hun2 eq_refl) as [U1 U2 U3 U4 U5].
  destruct (queue_task_wf (length (heap s)) task_id s2)
    as (s3 & Hq & HI3 & _); auto.
  unfold bind at 1. rewrite Hq.
  revert HI3. generalize s3.
  change (keeps well_formed
    (modify (fun s : AsyncPipeline =>
       let m := metrics s in
       set_metrics (mkMetrics (total_tasks m + 1) (m_completed_tasks m)
                      (failed_tasks m) (peak_concurrent_tasks m)
                      (queue_size m)) s) ;; ret task_id)).
  apply keeps_bind; [wf_frame | intros _; apply keeps_ret].
Qed.




(** The loop of [stop] over futures that are in the dictionary. *)
Lemma stop_loop_wf items s :
  well_formed s ->
  (forall id f, (id, f) ∈ items -> is_Some (task_futures s !! id)) ->
  exists s', stop_loop items s = (Ok tt, s') /\ well_formed s'.
Proof.
  revert s. induction items as [|[id f] items IH]; intros s Hwf Hin.
  - exists s. split; [reflexivity | exact Hwf].
  - cbn [stop_loop]. unfold bind at 1.
    assert (Hhere : is_Some (task_futures s !! id))
      by (apply (Hin id f), elem_of_cons; now left).
    assert (Hrest : forall id' f', (id', f') ∈ items ->
                      is_Some (task_futures s !! id'))
      by (intros id' f' H; apply (Hin id' f'), elem_of_cons; now right).
    destruct (negb (fut_done f)); [|now apply IH].
    unfold bind at 1. unfold modify at 1.
    set (s1 := set_task_futures
                 (<[id := mkFuture (fut_done f) true]> (task_futures s)) s).
    assert (Hwf1 : well_formed s1).
    { revert Hwf. apply wf_same; try same_fields. cbn. intros Y H.
      apply lookup_insert_is_Some' in H as [<-|H]; auto. }
    unfold bind at 1. unfold gets at 1.
    destruct (wf_futures s Hwf id Hhere) as [l Hl].
    change (active_tasks s1) with (active_tasks s). rewrite Hl.
    destruct (wf_active s Hwf id l Hl) as (t & Ht & Hid).
    pose proof (cancelled_wf id l s1 Hwf1 Hl) as Hc.
    unfold update_task, bind, read_task, modify in Hc |- *.
    change (heap s1) with (heap s) in Hc |- *. rewrite Ht in Hc |- *.
    apply IH; [exact Hc|].
    intros id' f' H. cbn. apply lookup_insert_is_Some'. right. eauto.
Qed.

Lemma stop_wf items s :
  well_formed s -> items ≡ₚ map_to_list (task_futures s) ->
  exists s', stop items s = (Ok tt, s') /\ well_formed s'.
Proof.
  intros Hwf Hitems. unfold stop. unfold bind at 1. unfold gets at 1.
  destruct (negb (is_running s)); [exists s; split; [reflexivity|exact Hwf]|].
  unfold bind at 1. unfold modify at 1.
  apply stop_loop_wf.
  - revert Hwf. apply wf_same; same_fields.
  - intros id f H. rewrite Hitems in H.
    apply elem_of_map_to_list in H. cbn. eauto.
Qed.

Lemma wf_apply_op o s : well_formed s -> well_formed (apply_op o s).
Proof.
  intros HI. destruct o; cbn [apply_op].
  - apply keeps_state; [apply wf_submit_task | exact HI].
  - pose proof (wf_get_next_from [CRITICAL; HIGH; NORMAL; LOW] s HI)
      as Hn. unfold _get_next_task.
    destruct (get_next_from [CRITICAL; HIGH; NORMAL; LOW] s)
      as [[[l|]|e] s1]; try exact Hn.
    destruct Hn as (X & Hn).
    pose proof (wf_execute_task_begin l X now s1 Hn) as Hb.
    destruct (execute_task_begin l now s1) as [[u|e] s2]; exact Hb.
  - destruct (task_futures s !! task_id) as [f|] eqn:Hf; [|exact HI].
    revert HI. apply wf_same; try same_fields. cbn. intros Y H.
    apply lookup_insert_is_Some' in H as [<-|H]; eauto.
  - destruct (bool_decide (l ∈ awaiting s)) eqn:Hin; [|exact HI].
    apply bool_decide_eq_true in Hin.
    destruct (wf_take_out s (set_awaiting (remove_first l (awaiting s)) s) l)
      as (X & Hw); auto.
    { unfold in_flight. cbn. rewrite (remove_first_perm l (awaiting s) Hin)
        at 1. symmetry. apply Permutation_middle. }
    pose proof (wf_execute_task_resume l X r now _ Hw) as Hr.
    destruct (execute_task_resume l r now _) as [[u|e] s2]; exact Hr.
  - apply keeps_state; [apply wf_cancel_task | exact HI].
Qed.

Lemma wf_init : well_formed init.
Proof.
  split; cbn.
  - intros X l H. now rewrite lookup_empty in H.
  - intros X l H. now rewrite lookup_empty in H.
  - intros X [l H]. now rewrite lookup_empty in H.
  - intros l H. now apply elem_of_nil in H.
  - apply NoDup_nil_2.
  - intros X [f H]. now rewrite lookup_empty in H.
  - intros l X H. now apply elem_of_nil in H.
  - intros X [ds H]. now rewrite lookup_empty in H.
Qed.

(** A session in which every [stop] goes through the futures that the
    dictionary holds at that moment. *)
Fixpoint orderly (ks : list call) (s : AsyncPipeline) : Prop :=
  match ks with
  | [] => True
  | k :: ks' =>
      match k with
      | Stop items => items ≡ₚ map_to_list (task_futures s)
      | _ => True
      end
      /\ orderly ks' (perform k s)
  end.

Lemma wf_perform k s :
  match k with
  | Stop items => items ≡ₚ map_to_list (task_futures s)
  | _ => True
  end ->
  well_formed s -> well_formed (perform k s).
Proof.
  intros Hk HI. destruct k as [o| |items| |]; cbn [perform].
  - now apply wf_apply_op.
  - unfold start. destruct (is_running s); [exact HI|].
    revert HI. apply wf_same; same_fields.
  - destruct (stop_wf items s HI Hk) as (s' & -> & H'). exact H'.
  - unfold get_metrics, bind, modify, gets. cbn [snd].
    revert HI. apply wf_same; same_fields.
  - unfold clear_completed_tasks. destruct HI as [W1 W2 W9 W3 W4 W5 W7 W8].
    split; cbn; auto. intros X l H. now rewrite lookup_empty in H.
Qed.

Lemma wf_session ks s :
  orderly ks s -> well_formed s -> well_formed (session ks s).
Proof.
  revert s. induction ks as [|k ks IH]; intros s Ho HI; [exact HI|].
  destruct Ho as [Hk Ho]. apply IH; [exact Ho | now apply wf_perform].
Qed.


(** The states a pipeline reaches are those of the sessions that start
    from a new pipeline; [orderly] only asks that each [stop] goes through
    the futures that [task_futures] holds when it is called, as the loop
    over [self.task_futures.items()] does.

    In every state a pipeline reaches, no task is scheduled twice: the
    queues and the workers that await a future hold each task object at
    most once between them, so no task is queued twice, queued while it
    runs, or run by two workers.  Every task so held is registered in
    [active_tasks] under its own id and has no entry left in the dependency
    graph; conversely a task that still has unfinished dependencies is
    registered in [active_tasks] and is in no queue and with no worker. *)
Theorem no_task_is_scheduled_twice ks :
  orderly ks init ->
  let s := session ks init in
  NoDup (all_queued (task_queues s) ++ awaiting s)
  /\ (forall l, l ∈ all_queued (task_queues s) ++ awaiting s ->
        exists t, heap s !! l = Some t
                  /\ active_tasks s !! t_id t = Some l
                  /\ dependency_graph s !! t_id t = None)
  /\ (forall X, is_Some (dependency_graph s !! X) ->
        exists l t, active_tasks s !! X = Some l
                    /\ heap s !! l = Some t /\ t_id t = X
                    /\ l ∉ all_queued (task_queues s) ++ awaiting s).
Proof.
  intros Ho s. pose proof (wf_session ks init Ho wf_init) as Hwf.
  fold s in Hwf. destruct Hwf as [W1 W2 W9 W3 W4 W5 W7 W8].
  split; [exact W4|]. split.
  - intros l Hl. destruct (W3 l Hl) as (X & (t & Ht & <-) & Ha).
    exists t. split; [exact Ht|]. split; [exact Ha|].
    apply (W7 l); [exact Hl | exists t; auto].
  - intros X HX. destruct (W8 X HX) as [l Hl].
    destruct (W1 X l Hl) as (t & Ht & Hid). exists l, t.
    split; [exact Hl|]. split; [exact Ht|]. split; [exact Hid|].
    intros Hin. rewrite (W7 l X Hin) in HX; [now destruct HX|].
    exists t. auto.
Qed.

(** In every state a pipeline reaches, [completed_tasks] holds
    finished tasks only: an id recorded there is not in [active_tasks], and
    [get_task_status] reports it COMPLETED or FAILED, never PENDING, RUNNING
    or CANCELLED. *)
Theorem completed_tasks_are_finished ks X :
  orderly ks init ->
  let s := session ks init in
  is_Some (completed_tasks s !! X) ->
  active_tasks s !! X = None
  /\ (get_task_status X s = Some COMPLETED
      \/ get_task_status X s = Some FAILED).
Proof.
  intros Ho s [l Hl]. pose proof (wf_session ks init Ho wf_init) as Hwf.
  fold s in Hwf. destruct Hwf as [W1 W2 W9 W3 W4 W5 W7 W8].
  assert (Ha : active_tasks s !! X = None).
  { destruct (active_tasks s !! X) as [l'|] eqn:Ha; [|reflexivity].
    rewrite W9 in Hl by eauto. discriminate. }
  split; [exact Ha|]. unfold get_task_status. rewrite Ha, Hl.
  destruct (W2 X l Hl) as (t & -> & _ & [Hst|Hst]); cbn; rewrite Hst; auto.
Qed.

(** In every state a pipeline reaches, every future in [task_futures]
    belongs to a task registered in [active_tasks] under the same id, so
    the lookup [self.active_tasks[task_id]] in the loop of [stop] never
    raises [KeyError]: [stop] returns normally, whatever the order in which
    the dictionary yields its futures. *)
Theorem stop_never_fails ks items :
  orderly ks init ->
  let s := session ks init in
  items ≡ₚ map_to_list (task_futures s) ->
  fst (stop items s) = Ok tt
  /\ (forall X, is_Some (task_futures s !! X) ->
        exists l t, active_tasks s !! X = Some l
                    /\ heap s !! l = Some t /\ t_id t = X).
Proof.
  intros Ho s Hitems. pose proof (wf_session ks init Ho wf_init) as Hwf.
  fold s in Hwf. split.
  - destruct (stop_wf items s Hwf Hitems) as (s' & -> & _). reflexivity.
  - intros X HX. destruct (wf_futures s Hwf X HX) as [l Hl].
    destruct (wf_active s Hwf X l Hl) as (t & Ht & Hid). eauto.
Qed.

(** A session: [A] is submitted and [B] after it, depending on it; a
    worker runs [A] to its end, which releases [B]; a worker draws [B]. *)
Definition two_in_a_row : list call :=
  [Start;
   Op (OpSubmit "A" "f" NORMAL 30 3 None None 0);
   Op (OpSubmit "B" "g" HIGH 30 3 (Some ["A"%string]) None 0);
   Op (OpDraw 1);
   Op (OpWorkDone "A");
   Op (OpResume 0 (Returned PyNone) 2);
   Op (OpDraw 3)].

Lemma no_task_is_scheduled_twice_witness :
  NoDup (all_queued (task_queues (session two_in_a_row init))
         ++ awaiting (session two_in_a_row init)).
Proof.
  destruct (no_task_is_scheduled_twice two_in_a_row) as [H _];
    [|exact H].
  repeat (split; [exact I|]). exact I.
Defined.

Lemma completed_tasks_are_finished_witness :
  active_tasks (session two_in_a_row init) !! "A"%string = None.
Proof.
  destruct (completed_tasks_are_finished two_in_a_row "A") as [H _];
    [| |exact H].
  - repeat (split; [exact I|]). exact I.
  - exists 0%nat. vm_compute. reflexivity.
Defined.

Lemma stop_never_fails_witness :
  fst (stop [("B"%string, mkFuture false false)]
         (session two_in_a_row init)) = Ok tt.
Proof.
  destruct (stop_never_fails two_in_a_row
              [("B"%string, mkFuture false false)]) as [H _];
    [| |exact H].
  - repeat (split; [exact I|]). exact I.
  - vm_compute. reflexivity.
Defined.


(** *** The status of a task follows its place *)

(** The task at [l] is being run: it is RUNNING, or CANCELLED by
    [cancel_task] or [stop], and its future is in [task_futures]. *)
Definition held (s : AsyncPipeline) (l : loc) : Prop :=
  exists t, heap s !! l = Some t
            /\ (t_status t = RUNNING \/ t_status t = CANCELLED)
            /\ is_Some (task_futures s !! t_id t).

(** [o] names the task whose worker is at work, if any: its future is
    still there although no worker awaits it any more. *)
Record disciplined (o : option string) (s : AsyncPipeline) : Prop := {
  d_queued : forall l, l ∈ all_queued (task_queues s) -> status_at l PENDING s;
  d_held : forall l, l ∈ awaiting s -> held s l;
  d_futures : forall X, o <> Some X -> is_Some (task_futures s !! X) ->
              exists l, active_tasks s !! X = Some l /\ l ∈ awaiting s
}.

Lemma hoare_both {S A} (P P' : S -> Prop) (m : SE S A)
    (Q Q' : A -> S -> Prop) (E E' : S -> Prop) :
  hoare P m Q E ->
  hoare (fun s => P s /\ P' s) m Q' E' ->
  hoare (fun s => P s /\ P' s) m
    (fun a s => Q a s /\ Q' a s) (fun s => E s /\ E' s).
Proof.
  intros H1 H2 s [HP HP']. specialize (H1 s HP). specialize (H2 s (conj HP HP')).
  destruct (m s) as [[a|e] s']; split; assumption.
Qed.

Lemma disc_same o s s' :
  heap s' = heap s ->
  task_queues s' = task_queues s ->
  awaiting s' = awaiting s ->
  (forall X, is_Some (task_futures s' !! X) <-> is_Some (task_futures s !! X)) ->
  active_tasks s' = active_tasks s ->
  disciplined o s -> disciplined o s'.
Proof.
  intros Hh Hq Hw Hfu Ha [D1 D2 D3].
  split; unfold status_at, held in *; rewrite ?Hh, ?Hq, ?Hw, ?Ha; auto.
  - intros l Hl. destruct (D2 l Hl) as (t & Ht & Hst & Hf).
    exists t. split; [exact Ht|]. split; [exact Hst | now apply Hfu].
  - intros X Ho HX. apply D3; [exact Ho | now apply Hfu].
Qed.

(** Updating a task that is in no queue and with no worker. *)
Lemma disc_update o s l t f :
  heap s !! l = Some t -> l ∉ in_flight s ->
  disciplined o s -> disciplined o (set_heap (<[l := f t]> (heap s)) s).
Proof.
  intros Hl Hout [D1 D2 D3]. unfold in_flight in Hout.
  rewrite elem_of_app in Hout.
  split; auto; unfold status_at, held; cbn.
  - intros l' H. rewrite list_lookup_insert_ne; [now apply D1|].
    intros <-. tauto.
  - intros l' H. rewrite list_lookup_insert_ne; [now apply D2|].
    intros <-. tauto.
Qed.

(** Marking CANCELLED a task that is in no queue. *)
Lemma disc_cancelled o s l t :
  heap s !! l = Some t -> l ∉ all_queued (task_queues s) ->
  disciplined o s ->
  disciplined o (set_heap (<[l := with_status CANCELLED t]> (heap s)) s).
Proof.
  intros Hl Hout [D1 D2 D3].
  pose proof (lookup_lt_Some _ _ _ Hl) as Hlt.
  split; auto; unfold status_at, held; cbn.
  - intros l' H. rewrite list_lookup_insert_ne; [now apply D1|].
    intros <-. tauto.
  - intros l' H. destruct (decide (l' = l)) as [->|Hne].
    + rewrite list_lookup_insert_eq by exact Hlt.
      destruct (D2 l H) as (t' & Ht' & _ & Hf).
      replace t' with t in Hf by congruence.
      exists (with_status CANCELLED t). cbn. auto.
    + rewrite list_lookup_insert_ne by congruence. now apply D2.
Qed.

Lemma disc_update_task o l X f :
  hoare (fun s => working l X s /\ disciplined o s) (update_task l f)
    (fun _ => disciplined o) (disciplined o).
Proof.
  intros s [[Hwf Haw] Hd]. unfold update_task, bind, read_task, modify.
  destruct (heap s !! l) as [t|] eqn:Hl; [|exact Hd].
  apply disc_update; auto. apply Haw.
Qed.

Ltac disc_frame :=
  match goal with
  | |- disciplined _ _ -> disciplined _ _ =>
      apply disc_same; first [reflexivity | intros; reflexivity]
  end.

(** [_queue_task] on a PENDING task. *)
Lemma disc_queue_task o l :
  hoare (fun s => disciplined o s /\ status_at l PENDING s
                  /\ (forall t, heap s !! l = Some t ->
                        active_tasks s !! t_id t = Some l
                        \/ active_tasks s !! t_id t = None))
    (_queue_task l)
    (fun _ s => disciplined o s
                /\ (forall t, heap s !! l = Some t ->
                      active_tasks s !! t_id t = Some l))
    (disciplined o).
Proof.
  intros s ([D1 D2 D3] & Hst & Hact).
  unfold _queue_task, bind, read_task, modify.
  destruct (heap s !! l) as [t|] eqn:Hl; [|split; assumption].
  specialize (Hact t eq_refl).
  split; [|cbn; intros t' Ht'; replace t' with t by congruence;
           apply lookup_insert_eq].
  split; unfold status_at, held; cbn.
  - intros l' H. apply elem_of_all_queued_push in H as [H| ->];
      [exact (D1 _ H) | exact Hst].
  - exact D2.
  - intros X Ho HX. destruct (D3 X Ho HX) as (l' & Hl' & Hw).
    exists l'. split; [|exact Hw].
    destruct (decide (X = t_id t)) as [->|Hne].
    + rewrite lookup_insert_eq. destruct Hact; congruence.
    + now rewrite lookup_insert_ne by congruence.
Qed.

Lemma disc_get_next_from o ps : keeps (disciplined o) (get_next_from ps).
Proof.
  induction ps as [|p ps IH]; cbn [get_next_from]; [apply keeps_ret|].
  intros s H. unfold bind at 1. unfold gets at 1.
  destruct (queue_of p (task_queues s)) as [|l rest] eqn:Hq; [now apply IH|].
  unfold bind, modify, ret. destruct H as [D1 D2 D3].
  split; auto. intros l' H. apply (D1 l').
  cbn in H. eapply elem_of_all_queued_pop; eauto.
Qed.


(** Both invariants together. *)
Definition sound (s : AsyncPipeline) : Prop :=
  well_formed s /\ disciplined None s.

Definition at_work2 (l : loc) (X : string) (o : option string)
    (s : AsyncPipeline) : Prop :=
  working l X s /\ disciplined o s.

Lemma at_work2_update_task l X o f :
  keeps_identity f -> keeps (at_work2 l X o) (update_task l f).
Proof.
  intros Hf. apply hoare_both;
    [now apply working_update_task | apply disc_update_task].
Qed.

(** An update that sets the status. *)
Lemma at_work2_set_status l X o st :
  hoare (at_work2 l X o) (update_task l (with_status st))
    (fun _ s => at_work2 l X o s /\ status_at l st s) (at_work2 l X o).
Proof.
  intros s H.
  pose proof (at_work2_update_task l X o (with_status st)
                (identity_with_status st) s H) as Hk.
  unfold update_task, bind, read_task, modify in *.
  destruct (heap s !! l) as [t|] eqn:Hl; [|exact Hk].
  split; [exact Hk|]. exists (with_status st t). cbn.
  split; [|reflexivity].
  apply list_lookup_insert_eq. eapply lookup_lt_Some; eauto.
Qed.

(** An update that leaves the status alone. *)
Lemma at_work2_keep_status l X o st f :
  keeps_identity f -> (forall t, t_status (f t) = t_status t) ->
  hoare (fun s => at_work2 l X o s /\ status_at l st s) (update_task l f)
    (fun _ s => at_work2 l X o s /\ status_at l st s) (at_work2 l X o).
Proof.
  intros Hf Hst s [H (t & Ht & Hs)].
  pose proof (at_work2_update_task l X o f Hf s H) as Hk.
  unfold update_task, bind, read_task, modify in *.
  rewrite Ht in *. split; [exact Hk|]. exists (f t). cbn.
  split; [|now rewrite Hst].
  apply list_lookup_insert_eq. eapply lookup_lt_Some; eauto.
Qed.

Lemma at_work2_disc l X o s : at_work2 l X o s -> disciplined o s.
Proof. now intros [_ H]. Qed.

Lemma hoare_exn {S A} (P : S -> Prop) (m : SE S A) (Q : A -> S -> Prop)
    (E E' : S -> Prop) :
  (forall s, E s -> E' s) -> hoare P m Q E -> hoare P m Q E'.
Proof. intros HE. apply hoare_consequence; auto. Qed.

Lemma disc_execute_task_begin l X now :
  hoare (at_work2 l X None) (execute_task_begin l now)
    (fun _ => disciplined None) (disciplined None).
Proof.
  unfold execute_task_begin.
  eapply hoare_bind;
    [eapply hoare_exn; [apply at_work2_disc | apply at_work2_set_status]
    |intros ?; cbv beta].
  eapply hoare_bind;
    [eapply hoare_exn; [apply at_work2_disc|];
     apply at_work2_keep_status;
     [apply identity_with_started_at | reflexivity]
    |intros ?; cbv beta].
  apply hoare_read; [intros t | now intros s [[_ H] _]].
  intros s [[[[Hwf [A1 A2 A3 A4]] [D1 D2 D3]] (t' & Ht' & Hst)] Hl].
  replace t' with t in * by congruence.
  assert (t_id t = X) as Hid.
  { destruct A2 as (t0 & Ht0 & Hid). congruence. }
  unfold bind, modify. split; unfold status_at, held; cbn.
  - exact D1.
  - intros l' H. apply elem_of_app in H as [H|H].
    + destruct (D2 l' H) as (t0 & Ht0 & Hs0 & Hf0). exists t0.
      split; [exact Ht0|]. split; [exact Hs0|].
      apply lookup_insert_is_Some'. now right.
    + apply list_elem_of_singleton in H as ->. exists t.
      split; [exact Hl|]. split; [now left|].
      rewrite lookup_insert_eq. eauto.
  - intros Y _ HY. rewrite Hid in HY.
    apply lookup_insert_is_Some' in HY as [<-|HY].
    + exists l. split; [exact A3|]. apply elem_of_app. right.
      now apply list_elem_of_singleton.
    + destruct (D3 Y) as (l' & Hl' & Hw); [discriminate | exact HY|].
      exists l'. split; [exact Hl'|]. apply elem_of_app. now left.
Qed.

Lemma sound_execute_task_begin l X now :
  hoare (at_work2 l X None) (execute_task_begin l now)
    (fun _ => sound) sound.
Proof.
  apply hoare_both;
    [apply wf_execute_task_begin | apply disc_execute_task_begin].
Qed.

(** The body of the loop of [_process_dependencies]. *)
Lemma disc_release_dependent o task_id T :
  hoare (fun s => well_formed s /\ disciplined o s)
    (release_dependent task_id T)
    (fun _ => disciplined o) (disciplined o).
Proof.
  intros s [Hwf Hd]. unfold release_dependent.
  unfold bind at 1. unfold gets at 1.
  destruct (dependency_graph s !! T) as [deps|] eqn:Hg; [|exact Hd].
  destruct (list_remove task_id deps) as [deps'|]; [|exact Hd].
  unfold bind at 1. unfold modify at 1.
  set (s0 := set_dependency_graph (<[T := deps']> (dependency_graph s)) s).
  assert (Hwf0 : well_formed s0)
    by (apply wf_graph_insert; [eauto | exact Hwf]).
  assert (Hd0 : disciplined o s0) by (revert Hd; disc_frame).
  destruct deps' as [|d deps']; [|exact Hd0].
  unfold bind at 1. unfold modify at 1.
  set (s1 := set_dependency_graph (delete T (dependency_graph s0)) s0).
  assert (Hwf1 : well_formed s1) by now apply wf_graph_delete.
  assert (Hd1 : disciplined o s1) by (revert Hd0; disc_frame).
  unfold bind at 1. unfold gets at 1.
  destruct (active_tasks s1 !! T) as [l|] eqn:Ha; [|exact Hd1].
  unfold bind at 1. unfold read_task at 1.
  destruct (heap s1 !! l) as [t|] eqn:Hl; [|exact Hd1].
  destruct (t_status t) eqn:Hst; try exact Hd1.
  eapply hoare_post; [|apply disc_queue_task|]; [now intros ? ? [H _]|].
  split; [exact Hd1|]. split; [exists t; auto|].
  intros t' Ht'. left.
  destruct (wf_active s1 Hwf1 T l Ha) as (t0 & Ht0 & Hid). congruence.
Qed.

Lemma sound_process_dependencies o task_id :
  keeps (fun s => well_formed s /\ disciplined o s)
    (_process_dependencies task_id).
Proof.
  rewrite process_dependencies_loop.
  apply keeps_bind; [apply keeps_gets | intros rev].
  destruct (rev !! task_id) as [dependents|]; [|apply keeps_ret].
  apply keeps_for_each. intros T.
  apply hoare_both; [apply wf_release_dependent | apply disc_release_dependent].
Qed.


(** What the body of [_execute_task] leaves behind, for both invariants. *)
Definition resumed2 (l : loc) (X : string) (s : AsyncPipeline) : Prop :=
  resumed l X s /\ disciplined (Some X) s /\ active_tasks s !! X = Some l.

Lemma at_work2_resumed2 l X s : at_work2 l X (Some X) s -> resumed2 l X s.
Proof.
  intros [Hw Hd]. split; [now apply working_resumed|].
  split; [exact Hd | apply Hw].
Qed.

Lemma resumed2_step {A} l X (m : M A) :
  keeps (at_work2 l X (Some X)) m ->
  hoare (at_work2 l X (Some X)) m (fun _ => at_work2 l X (Some X))
    (resumed2 l X).
Proof. apply hoare_exn, at_work2_resumed2. Qed.

Lemma resumed2_last {A} l X (m : M A) :
  keeps (at_work2 l X (Some X)) m ->
  hoare (at_work2 l X (Some X)) m (fun _ => resumed2 l X) (resumed2 l X).
Proof.
  apply hoare_consequence; auto; intros; now apply at_work2_resumed2.
Qed.

Ltac at_work2_frame :=
  apply keeps_modify;
  let s := fresh "s" in let H1 := fresh "H" in let H2 := fresh "H" in
  let H3 := fresh "H" in
  intros s [[H1 H2] H3]; try (destruct (_ <? _));
  (split; [split|]);
  [ first [ exact H1 | revert H1; apply wf_same; same_fields ]
  | first [ exact H2 | revert H2; apply at_work_same; same_fields ]
  | first [ exact H3 | revert H3; disc_frame ] ].

Lemma resumed2_handle_task_failure l X now :
  hoare (at_work2 l X (Some X)) (_handle_task_failure l now)
    (fun _ => resumed2 l X) (resumed2 l X).
Proof.
  unfold _handle_task_failure.
  eapply hoare_bind;
    [apply resumed2_step, at_work2_update_task, identity_with_retry_count
    |intros ?; cbv beta].
  apply hoare_read; [intros t | apply at_work2_resumed2].
  eapply hoare_pre; [intros s [H _]; exact H|].
  destruct (t_retry_count t <=? t_max_retries t).
  - eapply hoare_bind;
      [eapply hoare_exn; [apply at_work2_resumed2|];
       apply at_work2_set_status
      |intros ?; cbv beta].
    eapply hoare_bind;
      [eapply hoare_exn; [apply at_work2_resumed2|];
       apply at_work2_keep_status;
       [apply identity_with_started_at | reflexivity]
      |intros ?; cbv beta].
    intros s [[Hw Hd] Hst].
    pose proof (resumed_last l X (_queue_task l)) as H1.
    pose proof (disc_queue_task (Some X) l s) as H2.
    destruct Hw as [Hwf Haw]. pose proof Haw as [A1 A2 A3 A4].
    destruct (queue_task_wf l X s) as (s' & Hq & Hwf' & Hh); auto.
    { apply (wf_disjoint s Hwf). eauto. }
    rewrite Hq in H2 |- *.
    destruct H2 as [Hd' Hact'].
    { split; [exact Hd|]. split; [exact Hst|].
      intros t' Ht'. left. destruct A2 as (t0 & Ht0 & Hid). congruence. }
    assert (HX' : id_at s' l X) by (unfold id_at; now rewrite Hh).
    split; [|split; [exact Hd'|]].
    + split; [exact Hwf'|]. split; [exact HX'|]. right.
      unfold status_at. now rewrite Hh.
    + destruct HX' as (t0 & Ht0 & <-). now apply Hact'.
  - eapply hoare_bind;
      [apply resumed2_step, at_work2_update_task, identity_with_status
      |intros ?; cbv beta].
    eapply hoare_bind;
      [apply resumed2_step, at_work2_update_task, identity_with_completed_at
      |intros ?; cbv beta].
    apply resumed2_last. at_work2_frame.
Qed.

Lemma hoare_read_ok {B} (P : AsyncPipeline -> Prop) l
    (k : PipelineTask -> M B) (Q : B -> AsyncPipeline -> Prop)
    (E : AsyncPipeline -> Prop) :
  (forall s, P s -> is_Some (heap s !! l)) ->
  (forall t, hoare (fun s => P s /\ heap s !! l = Some t) (k t) Q E) ->
  hoare P (bind (read_task l) k) Q E.
Proof.
  intros Hok Hk s HP. unfold bind, read_task.
  destruct (Hok s HP) as [t Ht]. rewrite Ht. apply Hk. auto.
Qed.

Lemma sound_execute_task_finally l X :
  hoare (resumed2 l X) (execute_task_finally l) (fun _ => sound) sound.
Proof.
  unfold execute_task_finally.
  apply hoare_read_ok.
  { intros s [(_ & (t & Ht & _) & _) _]. eauto. }
  intros t.
  eapply hoare_bind
    with (R := fun _ s => sound s /\ heap s !! l = Some t
                          /\ task_futures s !! X = None
                          /\ t_id t = X
                          /\ (at_work l X s \/ t_status t = PENDING)).
  { apply hoare_modify_pre.
    intros s [[(Hwf & HX & Hcase) (Hd & Hact)] Hl].
    assert (Hid : t_id t = X).
    { destruct HX as (t' & Ht' & Hid). congruence. }
    rewrite Hid.
    split; [split|split; [exact Hl|split; [|split; [reflexivity|]]]].
    - revert Hwf. apply wf_same; try same_fields.
      cbn. intros Y [f H]. apply lookup_delete_Some in H as [_ H]. eauto.
    - destruct Hd as [D1 D2 D3]. split; unfold status_at, held; cbn.
      + exact D1.
      + intros l' H. destruct (D2 l' H) as (t' & Ht' & Hst' & Hf').
        exists t'. split; [exact Ht'|]. split; [exact Hst'|].
        destruct Hf' as [f Hf']. exists f.
        apply lookup_delete_Some. split; [|exact Hf'].
        intros Heq.
        assert (Hin : l' ∈ in_flight s)
          by (apply elem_of_app; now right).
        destruct (wf_in_flight s Hwf l' Hin) as (Y & HY & HaY).
        assert (Y = X) as ->.
        { destruct HY as (t0 & Ht0 & <-). congruence. }
        assert (l' = l) as -> by congruence.
        destruct Hcase as [Haw|(t0 & Ht0 & Hst0)].
        * now apply Haw.
        * replace t' with t0 in * by congruence.
          destruct Hst' as [Hst'|Hst']; congruence.
      + intros Y _ [f H]. apply lookup_delete_Some in H as [Hne H].
        apply D3; [congruence | eauto].
    - cbn. apply lookup_delete_eq.
    - destruct Hcase as [Haw|(t' & Ht' & Hst)]; [left | right; congruence].
      revert Haw. apply at_work_same; same_fields. }
  intros ?. cbv beta.
  apply hoare_read; [intros t' | tauto].
  eapply hoare_bind with (R := fun _ => sound).
  2:{ intros ?. apply keeps_modify. intros s [H1 H2].
      destruct (_ <? _); [|split; assumption].
      split; [revert H1; apply wf_same; same_fields | revert H2; disc_frame]. }
  intros s [(Hs & Hl & Hfu & Hid & Hcase) Hl'].
  replace t' with t by congruence. rewrite Hid.
  destruct (t_status t) eqn:Hst; try exact Hs.
  all: destruct Hcase as [Haw|?]; [|discriminate].
  all: unfold bind, modify.
  all: apply (sound_process_dependencies None X).
  all: destruct Hs as [Hwf [D1 D2 D3]].
  all: split; [apply (wf_retire l X t); auto;
                 try (split; assumption); unfold finished; auto|].
  all: split; auto; cbn.
  all: intros Y _ HY; destruct (D3 Y) as (l' & Hl2 & Hw);
         [discriminate | exact HY|].
  all: exists l'; split; [|exact Hw].
  all: apply lookup_delete_Some; split; [|exact Hl2].
  all: intros <-; rewrite Hfu in HY; now destruct HY.
Qed.

Lemma sound_execute_task_resume l X r now :
  hoare (at_work2 l X (Some X)) (execute_task_resume l r now)
    (fun _ => sound) sound.
Proof.
  unfold execute_task_resume.
  apply hoare_try_finally with (R := resumed2 l X);
    [|apply sound_execute_task_finally].
  destruct r.
  - apply resumed2_last.
    keeps_walk ltac:(first
      [ match goal with
        | |- keeps _ (read_task _) =>
            let s := fresh in let H := fresh in
            intros s H; unfold read_task; destruct (heap s !! _); exact H
        end
      | apply at_work2_update_task;
        first [ apply identity_with_result | apply identity_with_status
              | apply identity_with_completed_at ]
      | at_work2_frame ]).
  - apply hoare_read; [intros t | apply at_work2_resumed2].
    eapply hoare_pre; [intros s [H _]; exact H|].
    eapply hoare_bind;
      [apply resumed2_step, at_work2_update_task, identity_with_error
      |intros ?; cbv beta].
    apply resumed2_handle_task_failure.
  - eapply hoare_bind;
      [apply resumed2_step, at_work2_update_task, identity_with_error
      |intros ?; cbv beta].
    apply resumed2_handle_task_failure.
  - intros s H. now apply at_work2_resumed2.
Qed.


(** The future of [X] is with a worker, so the task is in no queue. *)
Lemma future_not_queued s X l :
  sound s -> is_Some (task_futures s !! X) -> active_tasks s !! X = Some l ->
  l ∉ all_queued (task_queues s).
Proof.
  intros [Hwf [D1 D2 D3]] HX Ha Hq.
  destruct (D3 X) as (l' & Hl' & Hw); [discriminate | exact HX|].
  replace l' with l in Hw by congruence.
  pose proof (wf_once s Hwf) as Hnd. unfold in_flight in Hnd.
  apply NoDup_app in Hnd as (_ & Hnd & _). now apply (Hnd l).
Qed.

(** Marking CANCELLED a task that has a future, as [cancel_task] and
    [stop] do. *)
Lemma cancelled_sound task_id l s :
  sound s -> is_Some (task_futures s !! task_id) ->
  active_tasks s !! task_id = Some l ->
  match update_task l (with_status CANCELLED) s with
  | (Ok _, s') => sound s'
  | (Raise _, s') => sound s'
  end.
Proof.
  intros Hs HX Ha.
  pose proof (cancelled_wf task_id l s (proj1 Hs) Ha) as Hwf'.
  pose proof (future_not_queued s task_id l Hs HX Ha) as Hout.
  unfold update_task, bind, read_task, modify in *.
  destruct (heap s !! l) as [t|] eqn:Hl; [|exact Hs].
  split; [exact Hwf'|]. apply disc_cancelled; auto. apply Hs.
Qed.

(** Setting a flag on a future that is there. *)
Lemma future_flag_sound s X f :
  is_Some (task_futures s !! X) -> sound s ->
  sound (set_task_futures (<[X := f]> (task_futures s)) s).
Proof.
  intros HX [Hwf Hd].
  assert (Hdom : forall Y, is_Some (<[X := f]> (task_futures s) !! Y)
                           <-> is_Some (task_futures s !! Y)).
  { intros Y. rewrite lookup_insert_is_Some'. split; [|tauto].
    intros [<-|H]; auto. }
  split.
  - revert Hwf. apply wf_same; try same_fields. cbn. intros Y. apply Hdom.
  - revert Hd. apply disc_same; try reflexivity. exact Hdom.
Qed.

Lemma sound_cancel_task task_id : keeps sound (cancel_task task_id).
Proof.
  unfold cancel_task. apply keeps_bind_gets. intros futures.
  destruct (futures !! task_id) as [future|] eqn:Hf;
    [|apply keeps_weaken; [tauto | apply keeps_ret]].
  destruct (negb (fut_done future));
    [|apply keeps_weaken; [tauto | apply keeps_ret]].
  eapply hoare_bind
    with (R := fun _ s => sound s /\ is_Some (task_futures s !! task_id)).
  { apply hoare_modify_pre. intros s [Hs ->]. split.
    - apply future_flag_sound; eauto.
    - cbn. rewrite lookup_insert_eq. eauto. }
  intros ?. cbv beta. intros s [Hs HX]. unfold bind at 1. unfold gets at 1.
  apply (hoare_bind (fun s' => s' = s)
           (match active_tasks s !! task_id with
            | Some l => update_task l (with_status CANCELLED)
            | None => ret tt
            end) (fun _ => sound)); [| |reflexivity].
  - intros s' ->. destruct (active_tasks s !! task_id) as [l|] eqn:Ha;
      [|exact Hs].
    now apply (cancelled_sound task_id).
  - intros ?. apply keeps_ret.
Qed.

Lemma disc_alloc o task s :
  disciplined o s -> disciplined o (set_heap (heap s ++ [task]) s).
Proof.
  intros [D1 D2 D3]. split; auto; unfold status_at, held; cbn.
  - intros l H. destruct (D1 l H) as (t & Ht & Hst). exists t.
    split; [|exact Hst]. apply lookup_app_l_Some, Ht.
  - intros l H. destruct (D2 l H) as (t & Ht & Hst). exists t.
    split; [|exact Hst]. apply lookup_app_l_Some, Ht.
Qed.

Lemma disc_submit_dependency_loop o X l all_deps rest :
  hoare (fun s => disciplined o s /\ active_tasks s !! X = None)
    (submit_dependency_loop X l all_deps rest)
    (fun registered s =>
       disciplined o s
       /\ (registered = false -> active_tasks s !! X = None))
    (disciplined o).
Proof.
  induction rest as [|dep_id rest IH]; cbn [submit_dependency_loop].
  - intros s [H1 H2]. split; auto.
  - intros s [Hd Ha]. unfold bind at 1. unfold gets at 1.
    destruct (completed_tasks s !! dep_id) as [_l|] eqn:Hc;
      [apply IH; split; assumption|].
    unfold bind, modify, ret. split; [|discriminate].
    destruct Hd as [D1 D2 D3]. split; auto; cbn.
    intros Y Ho HY. destruct (D3 Y Ho HY) as (l' & Hl' & Hw).
    exists l'. split; [|exact Hw].
    rewrite lookup_insert_ne; [exact Hl'|]. intros <-. congruence.
Qed.

Lemma heap_submit_dependency_loop X l all_deps rest s :
  heap (snd (submit_dependency_loop X l all_deps rest s)) = heap s.
Proof.
  revert s. induction rest as [|dep_id rest IH]; intros s;
    cbn [submit_dependency_loop]; [reflexivity|].
  unfold bind at 1. unfold gets at 1.
  destruct (completed_tasks s !! dep_id); [apply IH | reflexivity].
Qed.

Lemma disc_submit_task o task_id func priority timeout max_retries deps
    callback now :
  keeps (disciplined o)
    (submit_task task_id func priority timeout max_retries deps callback now).
Proof.
  intros s HI. unfold submit_task.
  unfold bind at 1. unfold gets at 1.
  destruct (negb (is_running s)); [exact HI|].
  unfold bind at 1. unfold gets at 1.
  unfold bind at 1. unfold gets at 1.
  destruct (bool_decide (is_Some (active_tasks s !! task_id))) eqn:Ha;
    [exact HI|].
  destruct (bool_decide (is_Some (completed_tasks s !! task_id))) eqn:Hc;
    [exact HI|].
  cbn [orb].
  apply bool_decide_eq_false in Ha.
  rewrite <- eq_None_not_Some in Ha.
  unfold bind at 1. unfold gets at 1.
  unfold bind at 1. unfold modify at 1.
  set (task := mkTask task_id func priority timeout 0 max_retries PENDING now
                 None None PyNone None (default [] deps) callback).
  set (s1 := set_heap (heap s ++ [task]) s).
  assert (HI1 : disciplined o s1) by now apply disc_alloc.
  assert (Hl : heap s1 !! length (heap s) = Some task).
  { subst s1. cbn. rewrite lookup_app_r by lia. now rewrite Nat.sub_diag. }
  pose proof (disc_submit_dependency_loop o task_id (length (heap s))
                (t_dependencies task) (t_dependencies task) s1
                (conj HI1 Ha)) as Hloop.
  pose proof (heap_submit_dependency_loop task_id (length (heap s))
                (t_dependencies task) (t_dependencies task) s1) as Hheap.
  unfold bind at 1.
  destruct (submit_dependency_loop task_id (length (heap s))
              (t_dependencies task) (t_dependencies task) s1)
    as [[registered|e] s2]; [|exact Hloop].
  destruct Hloop as [HI2 Ha2]. cbn [snd] in Hheap.
  destruct registered; [exact HI2|].
  apply (hoare_bind (fun s' => s' = s2) (_queue_task (length (heap s)))
           (fun _ => disciplined o)); [| |reflexivity].
  - intros s' ->. eapply hoare_post; [|apply disc_queue_task|];
      [now intros ? ? [H _]|].
    split; [exact HI2|]. rewrite <- Hheap in Hl.
    split; [exists task; auto|].
    intros t' Ht'. right. replace t' with task by congruence.
    now apply Ha2.
  - intros ?. apply keeps_bind; [|intros ?; apply keeps_ret].
    apply keeps_modify. intros s' H. revert H. disc_frame.
Qed.

Lemma sound_submit_task task_id func priority timeout max_retries deps
    callback now :
  keeps sound
    (submit_task task_id func priority timeout max_retries deps callback now).
Proof.
  apply hoare_both; [apply wf_submit_task|].
  eapply hoare_pre; [|apply disc_submit_task]. now intros s [_ H].
Qed.

(** The loop of [stop] over futures that are in the dictionary. *)
Lemma stop_loop_sound items s :
  sound s ->
  (forall id f, (id, f) ∈ items -> is_Some (task_futures s !! id)) ->
  sound (snd (stop_loop items s)).
Proof.
  revert s. induction items as [|[id f] items IH]; intros s Hs Hin;
    [exact Hs|].
  cbn [stop_loop]. unfold bind at 1.
  assert (Hhere : is_Some (task_futures s !! id))
    by (apply (Hin id f), elem_of_cons; now left).
  assert (Hrest : forall id' f', (id', f') ∈ items ->
                    is_Some (task_futures s !! id'))
    by (intros id' f' H; apply (Hin id' f'), elem_of_cons; now right).
  destruct (negb (fut_done f)); [|now apply IH].
  unfold bind at 1. unfold modify at 1.
  set (s1 := set_task_futures
               (<[id := mkFuture (fut_done f) true]> (task_futures s)) s).
  assert (Hs1 : sound s1) by now apply future_flag_sound.
  assert (Hf1 : forall id', is_Some (task_futures s !! id') ->
                  is_Some (task_futures s1 !! id')).
  { intros id' H. cbn. apply lookup_insert_is_Some'. now right. }
  unfold bind at 1. unfold gets at 1.
  destruct (active_tasks s1 !! id) as [l|] eqn:Hl; [|exact Hs1].
  pose proof (cancelled_sound id l s1 Hs1 (Hf1 id Hhere) Hl) as Hc.
  assert (Hfu : task_futures (snd (update_task l (with_status CANCELLED) s1))
                = task_futures s1).
  { unfold update_task, bind, read_task, modify.
    destruct (heap s1 !! l); reflexivity. }
  destruct (update_task l (with_status CANCELLED) s1) as [[u|e] s2];
    [|exact Hc].
  apply IH; [exact Hc|]. cbn [snd] in Hfu. rewrite Hfu. eauto.
Qed.

Lemma stop_sound items s :
  sound s -> items ≡ₚ map_to_list (task_futures s) ->
  sound (snd (stop items s)).
Proof.
  intros Hs Hitems. unfold stop. unfold bind at 1. unfold gets at 1.
  destruct (negb (is_running s)); [exact Hs|].
  unfold bind at 1. unfold modify at 1.
  apply stop_loop_sound.
  - destruct Hs as [H1 H2]. split;
      [revert H1; apply wf_same; same_fields | revert H2; disc_frame].
  - intros id f H. rewrite Hitems in H.
    apply elem_of_map_to_list in H. cbn. eauto.
Qed.

Lemma elem_of_remove_first_ne l x ls :
  x ∈ ls -> x <> l -> x ∈ remove_first l ls.
Proof.
  intros H Hne. destruct (decide (l ∈ ls)) as [Hl|Hl].
  - rewrite (remove_first_perm l ls Hl) in H.
    apply elem_of_cons in H as [H|H]; [congruence | exact H].
  - assert (remove_first l ls = ls) as ->; [|exact H].
    clear H. induction ls as [|y ls IH]; [reflexivity|]. cbn.
    destruct (Nat.eqb_spec y l) as [->|Hy].
    + exfalso. apply Hl, elem_of_cons. now left.
    + f_equal. apply IH. intros H. apply Hl, elem_of_cons. now right.
Qed.

(** The worker that awaited the task at [l] wakes up. *)
Lemma disc_take_out s l X :
  sound s -> l ∈ awaiting s -> id_at s l X ->
  disciplined (Some X) (set_awaiting (remove_first l (awaiting s)) s).
Proof.
  intros [Hwf [D1 D2 D3]] Hl HX. split; unfold status_at, held; cbn.
  - exact D1.
  - intros l' H. apply D2. eapply elem_of_remove_first; eauto.
  - intros Y Ho HY. destruct (D3 Y) as (l' & Hl' & Hw);
      [discriminate | exact HY|].
    exists l'. split; [exact Hl'|].
    apply elem_of_remove_first_ne; [exact Hw|].
    intros ->. apply Ho. f_equal.
    apply (id_at_unique s l); [exact HX | now apply (wf_active s Hwf)].
Qed.

Lemma sound_apply_op o s : sound s -> sound (apply_op o s).
Proof.
  intros HI. destruct o; cbn [apply_op].
  - apply keeps_state; [apply sound_submit_task | exact HI].
  - pose proof (wf_get_next_from [CRITICAL; HIGH; NORMAL; LOW] s (proj1 HI))
      as Hn.
    pose proof (disc_get_next_from None [CRITICAL; HIGH; NORMAL; LOW] s
                  (proj2 HI)) as Hd.
    unfold _get_next_task.
    destruct (get_next_from [CRITICAL; HIGH; NORMAL; LOW] s)
      as [[[l|]|e] s1]; try (split; assumption).
    destruct Hn as (X & Hn).
    pose proof (sound_execute_task_begin l X now s1 (conj Hn Hd)) as Hb.
    destruct (execute_task_begin l now s1) as [[u|e] s2]; exact Hb.
  - destruct (task_futures s !! task_id) as [f|] eqn:Hf; [|exact HI].
    apply future_flag_sound; eauto.
  - destruct (bool_decide (l ∈ awaiting s)) eqn:Hin; [|exact HI].
    apply bool_decide_eq_true in Hin.
    destruct (wf_take_out s (set_awaiting (remove_first l (awaiting s)) s) l)
      as (X & Hw); auto.
    { apply HI. }
    { unfold in_flight. cbn. rewrite (remove_first_perm l (awaiting s) Hin)
        at 1. symmetry. apply Permutation_middle. }
    assert (Hd : disciplined (Some X)
                   (set_awaiting (remove_first l (awaiting s)) s)).
    { apply disc_take_out; auto. apply Hw. }
    pose proof (sound_execute_task_resume l X r now _ (conj Hw Hd)) as Hr.
    destruct (execute_task_resume l r now _) as [[u|e] s2]; exact Hr.
  - apply keeps_state; [apply sound_cancel_task | exact HI].
Qed.

Lemma sound_init : sound init.
Proof.
  split; [apply wf_init|]. split; cbn.
  - intros l H. now apply elem_of_nil in H.
  - intros l H. now apply elem_of_nil in H.
  - intros X _ [f H]. now rewrite lookup_empty in H.
Qed.

Lemma sound_perform k s :
  match k with
  | Stop items => items ≡ₚ map_to_list (task_futures s)
  | _ => True
  end ->
  sound s -> sound (perform k s).
Proof.
  intros Hk HI. destruct k as [o| |items| |]; cbn [perform].
  - now apply sound_apply_op.
  - unfold start. destruct (is_running s); [exact HI|].
    destruct HI as [H1 H2]. split;
      [revert H1; apply wf_same; same_fields | revert H2; disc_frame].
  - now apply stop_sound.
  - unfold get_metrics, bind, modify, gets. cbn [snd].
    destruct HI as [H1 H2]. split;
      [revert H1; apply wf_same; same_fields | revert H2; disc_frame].
  - split; [apply (wf_perform ClearCompleted s I), HI|].
    destruct HI as [_ H2]. revert H2. unfold clear_completed_tasks.
    disc_frame.
Qed.

Lemma sound_session ks s :
  orderly ks s -> sound s -> sound (session ks s).
Proof.
  revert s. induction ks as [|k ks IH]; intros s Ho HI; [exact HI|].
  destruct Ho as [Hk Ho]. apply IH; [exact Ho | now apply sound_perform].
Qed.


(** In every state a pipeline reaches, the status of a task follows its
    place.  A queued task is PENDING, so a worker only ever draws PENDING
    tasks: nothing finished, cancelled or running is started again.  A task
    whose worker awaits its future is RUNNING, or CANCELLED once
    [cancel_task] or [stop] has reached it, and its future is in
    [task_futures].  And every future in [task_futures] belongs to a task
    that a worker holds: [cancel_task] and [stop], which act on the tasks
    that have a future, never touch a queued task. *)
Theorem task_status_follows_its_place ks :
  orderly ks init ->
  let s := session ks init in
  (forall l, l ∈ all_queued (task_queues s) ->
     exists t, heap s !! l = Some t /\ t_status t = PENDING)
  /\ (forall l, fst (_get_next_task s) = Ok (Some l) ->
        exists t, heap s !! l = Some t /\ t_status t = PENDING)
  /\ (forall l, l ∈ awaiting s ->
        exists t, heap s !! l = Some t
                  /\ (t_status t = RUNNING \/ t_status t = CANCELLED)
                  /\ is_Some (task_futures s !! t_id t))
  /\ (forall X, is_Some (task_futures s !! X) ->
        exists l, active_tasks s !! X = Some l /\ l ∈ awaiting s).
Proof.
  intros Ho s. pose proof (sound_session ks init Ho sound_init) as Hs.
  fold s in Hs. destruct Hs as [_ [D1 D2 D3]].
  split; [exact D1|]. split; [|split; [exact D2|]].
  - intros l Hl. apply D1.
    destruct (get_next_task_head s) as [Hh _]. rewrite Hl in Hh.
    injection Hh as Hh. symmetry in Hh.
    destruct (all_queued (task_queues s)) as [|l' rest]; [discriminate|].
    injection Hh as ->. apply elem_of_cons. now left.
  - intros X HX. apply D3; [discriminate | exact HX].
Qed.

Lemma task_status_follows_its_place_witness :
  exists l, active_tasks (session two_in_a_row init) !! "B"%string = Some l
            /\ l ∈ awaiting (session two_in_a_row init).
Proof.
  destruct (task_status_follows_its_place two_in_a_row) as (_ & _ & _ & H).
  - repeat (split; [exact I|]). exact I.
  - apply (H "B"%string). eexists. vm_compute. reflexivity.
Defined.

End PipelineLaws.

(* ===================================================================== *)
(** ** Further properties of the cache                                    *)
(* ===================================================================== *)
Module CacheLaws.
Import Cache CacheSpec CacheTools.

(** *** Prefetch scheduling *)

Section Scheduling.
Variable cfg : Config.
Variable pickle_dumps_len : pyvalue -> option N.

Lemma related_keys_cached key c x :
  x ∈ _find_related_keys key c -> x ∈ keys (memory_cache c).
Proof.
  unfold _find_related_keys, keys. intros Hx.
  apply list_elem_of_filter in Hx as [_ Hx]. exact Hx.
Qed.

Lemma schedule_prefetch_loop l c :
  (forall x, x ∈ l -> x ∈ keys (memory_cache c)) ->
  fold_left (fun c related_key =>
      match od_get related_key (memory_cache c) with
      | None => set_prefetch_queue (prefetch_queue c ++ [related_key]) c
      | Some _ => c
      end) l c = c.
Proof.
  induction l as [|x l IH]; intros Hl; cbn; [reflexivity|].
  destruct (od_get x (memory_cache c)) as [e|] eqn:Hg.
  - apply IH. intros y Hy. apply Hl, elem_of_cons. now right.
  - exfalso. apply od_get_None in Hg. apply Hg, Hl, elem_of_cons. now left.
Qed.

Lemma related_keys_taken key c x :
  x ∈ take 3 (_find_related_keys key c) -> x ∈ keys (memory_cache c).
Proof.
  intros Hx. apply (related_keys_cached key).
  apply elem_of_take in Hx as (i & Hi & _).
  eapply list_elem_of_lookup_2; eauto.
Qed.

Lemma schedule_prefetch_idle key c : _schedule_prefetch cfg key c = c.
Proof.
  unfold _schedule_prefetch. destruct (negb (prefetch_enabled cfg)); auto.
  apply schedule_prefetch_loop, related_keys_taken.
Qed.

(** [_schedule_prefetch] never puts anything on the prefetch queue: the
    related keys are drawn from the keys of the hot tier, and a key is
    queued only if it is absent from the hot tier. *)
Theorem schedule_prefetch_never_enqueues key c :
  _schedule_prefetch cfg key c = c.
Proof.
  unfold _schedule_prefetch. destruct (negb (prefetch_enabled cfg));
    [reflexivity|].
  apply schedule_prefetch_loop. intros x Hx.
  apply (related_keys_cached key).
  apply elem_of_take in Hx as (i & Hi & _).
  eapply list_elem_of_lookup_2; eauto.
Qed.

End Scheduling.

(** *** What writes leave alone

    Storing, deleting and evicting entries touch neither the hit and miss
    counters nor anything of the prefetch machinery. *)
Section Frames.
Variable cfg : Config.
Variable pickle_dumps_len : pyvalue -> option N.

Definition write_frame (c : IntelligentCache) :=
  (hits (stats c), misses (stats c), hit_rate (stats c),
   prefetch_queue c, prefetch_callbacks c, prefetch_log c).

Lemma wf_evict_one key entry c :
  write_frame (evict_one key entry c) = write_frame c.
Proof. reflexivity. Qed.

Lemma wf_set_disk key value ttl now c :
  write_frame (snd (_set_disk cfg key value ttl now c)) = write_frame c.
Proof.
  unfold _set_disk. destruct (negb (enable_disk_cache cfg)); reflexivity.
Qed.

Lemma wf_evict_step save key entry now c :
  write_frame (evict_step cfg save key entry now c) = write_frame c.
Proof.
  unfold evict_step. rewrite wf_evict_one.
  destruct save; [apply wf_set_disk | reflexivity].
Qed.

Lemma wf_evict_sorted {B} (entry_of : B -> string * CacheEntry) save l
    freed needed now c :
  write_frame (evict_sorted cfg entry_of save l freed needed now c)
  = write_frame c.
Proof.
  revert freed c. induction l as [|x l IH]; intros freed c; [reflexivity|].
  rewrite evict_sorted_cons. cbv zeta.
  destruct (needed <=? _); [|rewrite IH]; apply wf_evict_step.
Qed.

Lemma wf_evict_lru needed now c :
  write_frame (_evict_lru cfg needed now c) = write_frame c.
Proof.
  unfold _evict_lru. cbv zeta.
  generalize (lru_keys_to_remove (memory_cache c) 0 needed). intros ks.
  revert c. induction ks as [|k ks IH]; intros c; cbn [fold_left];
    [reflexivity|].
  rewrite IH. destruct (od_get k (memory_cache c)) as [e|]; [|reflexivity].
  rewrite wf_evict_one.
  destruct (enable_disk_cache cfg && (1 <? e_access_count e));
    [apply wf_set_disk | reflexivity].
Qed.

Lemma wf_evict_entries needed now c :
  write_frame (snd (_evict_entries cfg needed now c)) = write_frame c.
Proof.
  unfold _evict_entries, _evict_lfu, _evict_ttl, _evict_adaptive, modify.
  destruct (strategy cfg); cbn [snd].
  - apply wf_evict_lru.
  - apply wf_evict_sorted.
  - apply wf_evict_sorted.
  - destruct (score_entries now (memory_cache c) (memory_cache c));
      cbn [snd]; [apply wf_evict_sorted | reflexivity].
Qed.

Lemma wf_store_entry key value ttl now c :
  write_frame (snd (store_entry pickle_dumps_len key value ttl now c))
  = write_frame c.
Proof.
  unfold store_entry, bind, modify, ret, _record_access_pattern. cbn.
  destruct (od_get key (memory_cache c)); reflexivity.
Qed.

Lemma wf_set_memory key value ttl now c :
  write_frame (snd (_set_memory cfg pickle_dumps_len key value ttl now c))
  = write_frame c.
Proof.
  rewrite set_memory_unfold. unfold bind at 1. unfold gets at 1.
  destruct (_would_exceed_memory_limit cfg _ c).
  - unfold bind at 1. pose proof (wf_evict_entries
      (entry_size pickle_dumps_len value) now c) as He.
    destruct (_evict_entries cfg _ now c) as [[u|e] c1]; cbn [snd] in He;
      [|exact He].
    now rewrite wf_store_entry.
  - unfold bind at 1. unfold ret at 1. apply wf_store_entry.
Qed.

Lemma wf_set key value ttl level now c :
  write_frame (snd (set cfg pickle_dumps_len key value ttl level now c))
  = write_frame c.
Proof.
  unfold set, sanitize_filename. cbv zeta.
  set (stored := match ttl with None => default_ttl cfg | Some _ => ttl end).
  pose proof (wf_set_memory key value stored now c) as Hm.
  destruct level; [| apply wf_set_disk |];
    destruct (_set_memory cfg pickle_dumps_len key value stored now c)
      as [[b|e] c1]; exact Hm.
Qed.

Lemma wf_delete key c :
  write_frame (snd (delete cfg key c)) = write_frame c.
Proof.
  unfold delete, sanitize_filename. cbn.
  destruct (enable_disk_cache cfg), (od_get key (memory_cache c));
    reflexivity.
Qed.

Lemma wf_cleanup now c :
  write_frame (_cleanup_expired_entries now c) = write_frame c.
Proof.
  unfold _cleanup_expired_entries. cbv zeta.
  generalize (map fst (filter (fun p : string * CacheEntry =>
                                 Is_true (is_expired now (snd p)))
                         (memory_cache c))).
  intros ks. revert c. induction ks as [|k ks IH]; intros c; cbn [fold_left];
    [reflexivity|].
  rewrite IH. destruct (od_get k (memory_cache c)); reflexivity.
Qed.

Lemma wf_get_from_disk key now c :
  write_frame (snd (_get_from_disk cfg key now c)) = write_frame c.
Proof.
  unfold _get_from_disk. destruct (negb (enable_disk_cache cfg));
    [reflexivity|].
  destruct (disk c !! key) as [data|]; [|reflexivity].
  destruct (d_ttl data) as [ttl|]; [|reflexivity].
  destruct (Qgtb _ ttl); reflexivity.
Qed.

(** Reads change the counters, but not the prefetch machinery. *)
Definition prefetch_frame (c : IntelligentCache) :=
  (prefetch_queue c, prefetch_callbacks c, prefetch_log c).

Lemma write_prefetch_frame c c' :
  write_frame c' = write_frame c -> prefetch_frame c' = prefetch_frame c.
Proof. unfold write_frame, prefetch_frame. congruence. Qed.

Lemma pf_update_hit_rate c :
  prefetch_frame (_update_hit_rate c) = prefetch_frame c.
Proof. unfold _update_hit_rate. cbv zeta. destruct (0 <? _); reflexivity. Qed.

Lemma pf_get key default_value now c :
  prefetch_frame (snd (get cfg pickle_dumps_len key default_value now c))
  = prefetch_frame c.
Proof.
  assert (H : prefetch_frame
                (snd (get_body cfg pickle_dumps_len key default_value now c))
              = prefetch_frame c).
  2:{ unfold get.
      destruct (get_body cfg pickle_dumps_len key default_value now c)
        as [[v|e] c']; exact H. }
  unfold get_body, sanitize_filename. unfold bind at 1. unfold gets at 1.
  destruct (od_get key (memory_cache c)) as [entry|].
  - destruct (is_expired now entry); unfold bind, modify, ret; cbn;
      [reflexivity|].
    now rewrite pf_update_hit_rate.
  - unfold bind at 1. unfold disk_lookup.
    assert (Hmiss : forall c1, prefetch_frame c1 = prefetch_frame c ->
              prefetch_frame
                (snd ((modify (fun c0 =>
                         set_stats (with_misses (misses (stats c0) + 1)
                                      (stats c0)) c0) ;;
                       modify _update_hit_rate ;;
                       (if prefetch_enabled cfg
                        then modify (_schedule_prefetch cfg key)
                        else ret tt) ;;
                       ret default_value) c1)) = prefetch_frame c).
    { intros c1 H1. unfold bind, modify, ret. cbn.
      destruct (prefetch_enabled cfg); cbn;
        rewrite ?schedule_prefetch_idle, pf_update_hit_rate;
        exact H1. }
    destruct (enable_disk_cache cfg); [|now apply Hmiss].
    pose proof (write_prefetch_frame _ _ (wf_get_from_disk key now c)) as Hd.
    destruct (_get_from_disk cfg key now c) as [v c1]. cbn [snd] in Hd.
    assert (Hpromote :
              prefetch_frame
                (snd ((_set_memory cfg pickle_dumps_len key v
                         (default_ttl cfg) now ;;
                       modify (fun c0 =>
                         set_stats (with_hits (hits (stats c0) + 1)
                                      (stats c0)) c0) ;;
                       modify _update_hit_rate ;;
                       ret v) c1)) = prefetch_frame c).
    { pose proof (write_prefetch_frame _ _
                    (wf_set_memory key v (default_ttl cfg) now c1)) as Hs.
      unfold bind at 1.
      destruct (_set_memory cfg pickle_dumps_len key v (default_ttl cfg)
                  now c1) as [[b|e] c2]; cbn [snd] in Hs; [|cbn [snd]; congruence].
      unfold bind, modify, ret. cbn.
      rewrite pf_update_hit_rate. change (prefetch_frame c2 = prefetch_frame c). congruence. }
    destruct v; first [now apply Hmiss | exact Hpromote].
Qed.

End Frames.

(** *** The prefetch machinery is never set in motion *)

Section Idle.
Variable cfg : Config.
Variable pickle_dumps_len : pyvalue -> option N.

(** What can happen to a cache: a client calls one of its operations or
    registers a prefetch callback, or the prefetch worker takes a turn. *)
Inductive event :=
| Call (o : op)
| Register (pattern : string) (cb : callback)
| PrefetchTurn (now : Q).

Definition happen (e : event) (c : IntelligentCache) : IntelligentCache :=
  match e with
  | Call o => apply_op cfg pickle_dumps_len o c
  | Register pattern cb => register_prefetch_callback pattern cb c
  | PrefetchTurn now => prefetch_worker_turn cfg pickle_dumps_len now c
  end.

Definition history (es : list event) (c : IntelligentCache)
  : IntelligentCache :=
  fold_left (fun c e => happen e c) es c.

Definition prefetch_idle (c : IntelligentCache) : Prop :=
  prefetch_queue c = [] /\ prefetch_log c = [].

Lemma prefetch_idle_frame c c' :
  prefetch_frame c' = prefetch_frame c -> prefetch_idle c -> prefetch_idle c'.
Proof. unfold prefetch_frame, prefetch_idle. intros [= -> _ ->]. auto. Qed.

Lemma happen_prefetch_idle e c : prefetch_idle c -> prefetch_idle (happen e c).
Proof.
  intros Hc. destruct e as [o|pattern cb|now]; cbn [happen].
  - revert Hc. apply prefetch_idle_frame. destruct o; cbn [apply_op].
    + apply write_prefetch_frame, wf_set.
    + apply pf_get.
    + apply write_prefetch_frame, wf_delete.
    + apply write_prefetch_frame, wf_cleanup.
    + unfold clear. destruct (enable_disk_cache cfg); reflexivity.
  - exact Hc.
  - unfold prefetch_worker_turn. destruct Hc as [Hq Hl]. rewrite Hq.
    split; assumption.
Qed.

(** Whatever clients do and whatever callbacks they register, the prefetch
    queue stays empty and no prefetch callback is ever invoked: every turn
    of the prefetch worker finds nothing to do. *)
Theorem prefetch_is_never_triggered es now :
  let c := history es init in
  prefetch_queue c = []
  /\ prefetch_log c = []
  /\ prefetch_worker_turn cfg pickle_dumps_len now c = c.
Proof.
  intros c.
  assert (H : prefetch_idle c).
  { subst c. unfold history.
    assert (G : forall c0, prefetch_idle c0 ->
              prefetch_idle (fold_left (fun c e => happen e c) es c0)).
    { induction es as [|e es' IH]; intros c0 H0; [exact H0|].
      cbn. apply IH, happen_prefetch_idle, H0. }
    apply G. split; reflexivity. }
  destruct H as [Hq Hl]. repeat split; [exact Hq | exact Hl|].
  unfold prefetch_worker_turn. now rewrite Hq.
Qed.

End Idle.

Section Adaptive.
Variable cfg : Config.
Variable pickle_dumps_len : pyvalue -> option N.

Lemma max_default_zero (l : list Z) :
  l <> [] -> (forall x, x ∈ l -> x = 0) -> max_default l = 0.
Proof.
  destruct l as [|x l]; [congruence|]. intros _ H. cbn.
  assert (Hx : x = 0) by (apply H, elem_of_cons; now left). subst x.
  assert (Hl : forall y, y ∈ l -> y = 0)
    by (intros y Hy; apply H, elem_of_cons; now right).
  clear H. induction l as [|y l IH]; cbn; [reflexivity|].
  rewrite (Hl y) by (apply elem_of_cons; now left). cbn.
  apply IH. intros z Hz. apply Hl, elem_of_cons. now right.
Qed.

Lemma adaptive_score_unread now cache entry :
  cache <> [] ->
  (forall p, p ∈ cache -> e_access_count (snd p) = 0) ->
  adaptive_score now cache entry = Raise ZeroDivisionError.
Proof.
  intros Hne H0. unfold adaptive_score.
  assert (Hmax : max_default (map (fun p => e_access_count (snd p)) cache) = 0).
  { apply max_default_zero.
    - destruct cache; [congruence | discriminate].
    - intros x Hx. apply list_elem_of_fmap in Hx as (p & -> & Hp). auto. }
  rewrite Hmax. unfold py_div at 1.
  destruct (Qeq_bool _ 0); [reflexivity|].
  unfold py_div at 1. reflexivity.
Qed.

(** Under the adaptive policy an eviction divides every entry's access count
    by the largest access count in the hot tier.  While no entry has been
    read that count is 0: the eviction raises [ZeroDivisionError], and a
    [set] that needs room returns [False] and stores nothing. *)
Theorem adaptive_set_fails_while_nothing_was_read key value ttl now c :
  strategy cfg = ADAPTIVE ->
  memory_cache c <> [] ->
  (forall p, p ∈ memory_cache c -> e_access_count (snd p) = 0) ->
  _would_exceed_memory_limit cfg (entry_size pickle_dumps_len value) c = true ->
  fst (_evict_entries cfg (entry_size pickle_dumps_len value) now c)
  = Raise ZeroDivisionError
  /\ set cfg pickle_dumps_len key value ttl MEMORY now c = (false, c).
Proof.
  intros Hs Hne H0 Hex.
  assert (He : _evict_entries cfg (entry_size pickle_dumps_len value) now c
               = (Raise ZeroDivisionError, c)).
  { unfold _evict_entries. rewrite Hs. unfold _evict_adaptive.
    destruct (memory_cache c) as [|[k e] d] eqn:Hm; [congruence|].
    cbn [score_entries]. rewrite adaptive_score_unread; [reflexivity| |].
    - discriminate.
    - exact H0. }
  split; [now rewrite He|].
  unfold set, sanitize_filename. cbv zeta. rewrite set_memory_unfold.
  unfold bind at 1. unfold gets at 1. rewrite Hex.
  unfold bind at 1. now rewrite He.
Qed.

End Adaptive.

Lemma adaptive_set_fails_while_nothing_was_read_witness :
  let cfg := demo_config ADAPTIVE in
  let c := snd (set cfg demo_size "a" (PyInt 600000) None MEMORY 0 init) in
  set cfg demo_size "b" (PyInt 600000) None MEMORY 1 c = (false, c).
Proof.
  intros cfg c.
  refine (proj2 (adaptive_set_fails_while_nothing_was_read cfg demo_size
                   "b" (PyInt 600000) None 1 c eq_refl _ _ _)).
  - discriminate.
  - intros p Hp. vm_compute in Hp.
    apply list_elem_of_singleton in Hp. now subst p.
  - reflexivity.
Defined.

Section Sweep.
Variable cfg : Config.
Variable pickle_dumps_len : pyvalue -> option N.

Definition expired_at (now : Q) (p : string * CacheEntry) : Prop :=
  Is_true (is_expired now (snd p)).

Lemma od_get_app_r {V} k (v : V) pre d :
  k ∉ keys pre -> od_get k (pre ++ (k, v) :: d) = Some v.
Proof.
  induction pre as [|[k' v'] pre IH]; cbn; intros Hk.
  - now rewrite String.eqb_refl.
  - destruct (String.eqb_spec k' k) as [->|Hne].
    + exfalso. apply Hk, elem_of_cons. now left.
    + apply IH. intros H. apply Hk, elem_of_cons. now right.
Qed.

Lemma od_del_app_r {V} k (v : V) pre d :
  k ∉ keys pre -> od_del k (pre ++ (k, v) :: d) = pre ++ d.
Proof.
  induction pre as [|[k' v'] pre IH]; cbn; intros Hk.
  - now rewrite String.eqb_refl.
  - destruct (String.eqb_spec k' k) as [->|Hne].
    + exfalso. apply Hk, elem_of_cons. now left.
    + f_equal. apply IH. intros H. apply Hk, elem_of_cons. now right.
Qed.

Lemma cleanup_loop now pre d c :
  memory_cache c = pre ++ d ->
  NoDup (keys (pre ++ d)) ->
  let c' := fold_left (fun c key =>
      match od_get key (memory_cache c) with
      | Some entry => evict_one key entry c
      | None => c
      end) (map fst (filter (expired_at now) d)) c in
  memory_cache c' = pre ++ filter (fun p => ~ expired_at now p) d
  /\ size_bytes (stats c')
     = size_bytes (stats c) - sum_sizes (filter (expired_at now) d)
  /\ evictions (stats c')
     = evictions (stats c) + Z.of_nat (length (filter (expired_at now) d))
  /\ entry_count (stats c') = entry_count (stats c)
  /\ disk c' = disk c.
Proof.
  revert pre c. induction d as [|[k e] d IH]; intros pre c Hm Hnd.
  - cbn. rewrite Hm. repeat split; lia.
  - destruct (decide (expired_at now (k, e))) as [Hex|Hex].
    + rewrite filter_cons_True by exact Hex.
      rewrite (filter_cons_False (fun p => ~ expired_at now p)) by tauto.
      cbn [map fst fold_left length sum_sizes snd].
      assert (Hk : k ∉ keys pre).
      { unfold keys in *. rewrite fmap_app in Hnd.
        apply NoDup_app in Hnd as (_ & Hd & _). intros Hin.
        apply (Hd k Hin). cbn. apply elem_of_cons. now left. }
      rewrite Hm, (od_get_app_r k e pre d Hk).
      assert (Hm1 : memory_cache (evict_one k e c) = pre ++ d).
      { cbn. rewrite Hm. now apply od_del_app_r. }
      assert (Hnd1 : NoDup (keys (pre ++ d))).
      { unfold keys in *. rewrite fmap_app in *. cbn in Hnd.
        apply NoDup_app in Hnd as (H1 & H2 & H3).
        apply NoDup_cons in H3 as [H3 H4].
        apply NoDup_app. repeat split; auto.
        intros x Hx Hx'. apply (H2 x Hx), elem_of_cons. now right. }
      destruct (IH pre (evict_one k e c) Hm1 Hnd1) as (A & B & C & D & E).
      rewrite A, B, C, D, E. cbn. repeat split; lia.
    + rewrite filter_cons_False by exact Hex.
      rewrite (filter_cons_True (fun p => ~ expired_at now p)) by tauto.
      assert (Hm1 : memory_cache c = (pre ++ [(k, e)]) ++ d)
        by now rewrite <- app_assoc.
      assert (Hnd1 : NoDup (keys ((pre ++ [(k, e)]) ++ d)))
        by now rewrite <- app_assoc.
      destruct (IH (pre ++ [(k, e)]) c Hm1 Hnd1) as (A & B & C & D & E).
      rewrite <- app_assoc in A. cbn in A. auto.
Qed.

(** The expiry sweep removes exactly the entries that have expired and
    keeps the others in their order; it charges the removals to the byte
    counter and counts each as an eviction, but leaves [entry_count] at its
    old value and the disk tier alone. *)
Theorem cleanup_removes_exactly_the_expired now c :
  NoDup (keys (memory_cache c)) ->
  let gone := filter (expired_at now) (memory_cache c) in
  let c' := _cleanup_expired_entries now c in
  memory_cache c' = filter (fun p => ~ expired_at now p) (memory_cache c)
  /\ size_bytes (stats c') = size_bytes (stats c) - sum_sizes gone
  /\ evictions (stats c') = evictions (stats c) + Z.of_nat (length gone)
  /\ entry_count (stats c') = entry_count (stats c)
  /\ disk c' = disk c.
Proof.
  intros Hnd. exact (cleanup_loop now [] (memory_cache c) c eq_refl Hnd).
Qed.


End Sweep.

Lemma cleanup_removes_exactly_the_expired_witness :
  let cfg := demo_config LRU in
  let c := snd (set cfg demo_size "b" (PyInt 7) None MEMORY 5
             (snd (set cfg demo_size "a" (PyInt 5) (Some 1%Q) MEMORY 0 init))) in
  let c' := _cleanup_expired_entries 10 c in
  keys (memory_cache c') = ["b"%string]
  /\ size_bytes (stats c') = 7
  /\ entry_count (stats c') = 2.
Proof.
  intros cfg c c'.
  destruct (cleanup_removes_exactly_the_expired 10 c) as (A & B & _ & D & _).
  - apply (bool_decide_unpack _). vm_compute. exact I.
  - subst c'. rewrite A, B, D. vm_compute. auto.
Defined.


Section Accounting.
Variable cfg : Config.
Variable pickle_dumps_len : pyvalue -> option N.

(** The byte counter covers the bytes held. *)
Record accounted (c : IntelligentCache) : Prop := {
  ac_nodup : NoDup (keys (memory_cache c));
  ac_sizes : forall p, p ∈ memory_cache c -> 0 <= e_size_bytes (snd p);
  ac_counter : hot_bytes c <= size_bytes (stats c)
}.

Lemma accounted_frame c c' :
  memory_cache c' = memory_cache c ->
  size_bytes (stats c') = size_bytes (stats c) ->
  accounted c -> accounted c'.
Proof.
  intros Hm Hs [A1 A2 A3]. rewrite hot_bytes_sum in A3.
  split; rewrite ?hot_bytes_sum, ?Hm, ?Hs; auto.
Qed.

Lemma accounted_evicts c c' : accounted c -> evicts c c' -> accounted c'.
Proof.
  intros [A1 A2 A3] [E1 E2 E3 E4]. rewrite hot_bytes_sum in A3.
  split; rewrite ?hot_bytes_sum; auto. lia.
Qed.

Lemma evict_entries_evicts needed now c :
  NoDup (keys (memory_cache c)) ->
  match _evict_entries cfg needed now c with
  | (Ok _, c') => evicts c c'
  | (Raise _, c') => c' = c
  end.
Proof.
  intros Hnd. destruct (strategy cfg) eqn:Hs.
  3:{ unfold _evict_entries. rewrite Hs. unfold modify, _evict_ttl.
      cbv zeta.
      set (L := sorted _ (filter _ (memory_cache c))).
      assert (HL : L ⊆+ memory_cache c).
      { subst L. rewrite sorted_perm. apply sublist_submseteq, sublist_filter. }
      apply (evict_sorted_evicts cfg (fun x => x) (fun _ => false) L 0 needed
               now c Hnd).
      - rewrite list_fmap_id. subst L. unfold keys in *.
        rewrite sorted_perm. eapply sublist_NoDup; [exact Hnd|].
        apply fmap_sublist, sublist_filter.
      - intros x Hx. eapply elem_of_submseteq; eauto. }
  all: pose proof (evict_entries_spec cfg needed now c Hnd) as H;
    specialize (H ltac:(intros E; congruence));
    destruct (_evict_entries cfg needed now c) as [[u|e] c']; tauto.
Qed.

Lemma accounted_store_entry key value ttl now c :
  accounted c ->
  accounted (snd (store_entry pickle_dumps_len key value ttl now c)).
Proof.
  intros [A1 A2 A3]. rewrite hot_bytes_sum in A3.
  set (entry := mkEntry key value now now 0 ttl
                  (entry_size pickle_dumps_len value)).
  assert (Hmem : memory_cache
                   (snd (store_entry pickle_dumps_len key value ttl now c))
                 = od_set key entry (memory_cache c)).
  { unfold store_entry, bind, modify, ret. cbn.
    destruct (od_get key (memory_cache c)); reflexivity. }
  assert (Hst : size_bytes
                  (stats (snd (store_entry pickle_dumps_len key value ttl
                                 now c)))
                = size_bytes (stats c)
                  - match od_get key (memory_cache c) with
                    | Some old => e_size_bytes old
                    | None => 0
                    end + entry_size pickle_dumps_len value).
  { unfold store_entry, bind, modify, ret. cbn.
    destruct (od_get key (memory_cache c)); cbn; lia. }
  pose proof (entry_size_nonneg pickle_dumps_len value) as Hsz.
  split; rewrite ?hot_bytes_sum, ?Hmem, ?Hst.
  - now apply od_set_nodup.
  - intros p Hp. apply od_set_elem in Hp as [->|Hp]; [exact Hsz | auto].
  - rewrite sum_sizes_set. cbn [e_size_bytes entry]. lia.
Qed.

Lemma accounted_set_memory key value ttl now c :
  accounted c ->
  accounted (snd (_set_memory cfg pickle_dumps_len key value ttl now c)).
Proof.
  intros Hac. rewrite set_memory_unfold. unfold bind at 1. unfold gets at 1.
  destruct (_would_exceed_memory_limit cfg _ c).
  - pose proof (evict_entries_evicts (entry_size pickle_dumps_len value) now c
                  (ac_nodup c Hac)) as Hev.
    unfold bind at 1.
    destruct (_evict_entries cfg _ now c) as [[u|e] c1].
    + apply accounted_store_entry. eapply accounted_evicts; eauto.
    + subst c1. exact Hac.
  - unfold bind at 1. unfold ret at 1. now apply accounted_store_entry.
Qed.

Lemma accounted_set key value ttl level now c :
  accounted c ->
  accounted (snd (set cfg pickle_dumps_len key value ttl level now c)).
Proof.
  intros Hac. unfold set, sanitize_filename. cbv zeta.
  set (stored := match ttl with None => default_ttl cfg | Some _ => ttl end).
  pose proof (accounted_set_memory key value stored now c Hac) as Hm.
  destruct level.
  - destruct (_set_memory cfg pickle_dumps_len key value stored now c)
      as [[b|e] c1]; exact Hm.
  - unfold _set_disk. destruct (negb (enable_disk_cache cfg)); [exact Hac|].
    revert Hac. now apply accounted_frame.
  - destruct (_set_memory cfg pickle_dumps_len key value stored now c)
      as [[b|e] c1]; exact Hm.
Qed.

Lemma accounted_evict_one key entry c :
  accounted c -> od_get key (memory_cache c) = Some entry ->
  accounted (evict_one key entry c).
Proof.
  intros Hac Hg. apply (accounted_evicts c); [exact Hac|].
  apply (evict_step_evicts cfg false key entry 0 c (ac_nodup c Hac) Hg).
Qed.

Lemma accounted_delete key c :
  accounted c -> accounted (snd (delete cfg key c)).
Proof.
  intros Hac. unfold delete, sanitize_filename. cbn.
  assert (H1 : accounted
                 match od_get key (memory_cache c) with
                 | Some entry =>
                     set_stats
                       (with_entry_count
                          (Z.of_nat (length (od_del key (memory_cache c))))
                          (with_size_bytes
                             (size_bytes (stats c) - e_size_bytes entry)
                             (stats c)))
                       (set_stats
                          (with_size_bytes
                             (size_bytes (stats c) - e_size_bytes entry)
                             (stats c))
                          (set_memory_cache (od_del key (memory_cache c)) c))
                 | None => c
                 end).
  { destruct (od_get key (memory_cache c)) as [entry|] eqn:Hg; [|exact Hac].
    apply (accounted_frame (evict_one key entry c));
      [reflexivity | reflexivity |].
    now apply accounted_evict_one. }
  destruct (enable_disk_cache cfg); [|exact H1].
  revert H1. now apply accounted_frame.
Qed.

Lemma accounted_cleanup now c :
  accounted c -> accounted (_cleanup_expired_entries now c).
Proof.
  unfold _cleanup_expired_entries.
  generalize (map fst (filter (fun p : string * CacheEntry =>
                                 Is_true (is_expired now (snd p)))
                         (memory_cache c))).
  intros ks. revert c. induction ks as [|k ks IH]; intros c Hac; cbn;
    [exact Hac|].
  apply IH. destruct (od_get k (memory_cache c)) as [entry|] eqn:Hg;
    [now apply accounted_evict_one | exact Hac].
Qed.

Lemma accounted_clear c : accounted (clear cfg c).
Proof.
  unfold clear.
  assert (H1 : accounted (set_stats empty_stats
                            (set_access ∅ ∅ (set_memory_cache [] c)))).
  { split; cbn.
    - apply NoDup_nil_2.
    - intros p Hp. apply elem_of_nil in Hp. contradiction.
    - lia. }
  destruct (enable_disk_cache cfg); [|exact H1].
  revert H1. now apply accounted_frame.
Qed.

Lemma accounted_update_hit_rate c :
  accounted c -> accounted (_update_hit_rate c).
Proof.
  apply accounted_frame; unfold _update_hit_rate; destruct (0 <? _);
    reflexivity.
Qed.

Lemma accounted_get_from_disk key now c :
  accounted c -> accounted (snd (_get_from_disk cfg key now c)).
Proof.
  apply accounted_frame; unfold _get_from_disk;
    destruct (negb (enable_disk_cache cfg)); try reflexivity;
    destruct (disk c !! key) as [data|]; try reflexivity;
    (destruct (d_ttl data) as [ttl|]; [destruct (Qgtb _ ttl)|]);
    reflexivity.
Qed.

(** What [get] does to an entry that has expired: the entry leaves the hot
    tier, but its bytes stay on the byte counter. *)
Lemma get_expired_state key default_value now c entry :
  od_get key (memory_cache c) = Some entry ->
  is_expired now entry = true ->
  get cfg pickle_dumps_len key default_value now c
  = (default_value,
     set_stats (with_misses (misses (stats c) + 1) (stats c))
       (set_memory_cache (od_del key (memory_cache c)) c)).
Proof.
  intros Hg He. unfold get, get_body, sanitize_filename, bind, gets, modify,
    ret. now rewrite Hg, He.
Qed.

Lemma accounted_get key default_value now c :
  accounted c ->
  accounted (snd (get cfg pickle_dumps_len key default_value now c)).
Proof.
  intros Hac.
  destruct (od_get key (memory_cache c)) as [entry|] eqn:Hg.
  - assert (Hin : (key, entry) ∈ memory_cache c) by now apply od_get_elem.
    destruct (is_expired now entry) eqn:He.
    + rewrite (get_expired_state _ _ _ _ _ Hg He). cbn [snd].
      destruct Hac as [A1 A2 A3]. rewrite hot_bytes_sum in A3.
      pose proof (A2 _ Hin) as Hsz. cbn in Hsz.
      split; rewrite ?hot_bytes_sum; cbn.
      * now apply od_del_nodup.
      * intros p Hp. apply A2. eapply od_del_elem; eauto.
      * rewrite (sum_sizes_del key entry) by exact Hg. lia.
    + unfold get, get_body, sanitize_filename, bind, gets, modify, ret.
      rewrite Hg, He. cbn [snd].
      apply accounted_update_hit_rate.
      apply (accounted_frame
               (set_memory_cache
                  (od_move_to_end key
                     (od_set key (touch now entry) (memory_cache c))) c));
        [reflexivity | reflexivity |].
      destruct Hac as [A1 A2 A3]. rewrite hot_bytes_sum in A3.
      split; rewrite ?hot_bytes_sum; cbn.
      * apply od_move_to_end_nodup, od_set_nodup, A1.
      * intros p Hp. apply od_move_to_end_elem in Hp.
        apply od_set_elem in Hp as [->|Hp]; [apply (A2 _ Hin) | auto].
      * rewrite sum_sizes_move_to_end, sum_sizes_set, Hg. cbn. lia.
  - assert (Hres : accounted
              (snd (get_body cfg pickle_dumps_len key default_value now c))).
    2:{ unfold get.
        destruct (get_body cfg pickle_dumps_len key default_value now c)
          as [[v|e] c']; exact Hres. }
    unfold get_body, sanitize_filename. unfold bind at 1. unfold gets at 1.
    rewrite Hg. unfold bind at 1. unfold disk_lookup.
    assert (Hmiss : forall c1, accounted c1 -> accounted
              (snd ((modify (fun c0 =>
                       set_stats (with_misses (misses (stats c0) + 1)
                                    (stats c0)) c0) ;;
                     modify _update_hit_rate ;;
                     (if prefetch_enabled cfg
                      then modify (_schedule_prefetch cfg key)
                      else ret tt) ;;
                     ret default_value) c1))).
    { intros c1 H1. unfold bind, modify, ret. cbn.
      destruct (schedule_prefetch_frame cfg key
                  (_update_hit_rate
                     (set_stats (with_misses (misses (stats c1) + 1)
                                   (stats c1)) c1))) as (F1 & F2 & _).
      destruct (prefetch_enabled cfg); cbn;
        [apply (accounted_frame _ _ F1); [now rewrite F2|]|];
        apply accounted_update_hit_rate;
        (eapply accounted_frame; [| |exact H1]; reflexivity). }
    destruct (enable_disk_cache cfg); [|now apply Hmiss].
    pose proof (accounted_get_from_disk key now c Hac) as Hd.
    destruct (_get_from_disk cfg key now c) as [v c1]. cbn [snd] in Hd.
    assert (Hpromote : accounted
              (snd ((_set_memory cfg pickle_dumps_len key v
                       (default_ttl cfg) now ;;
                     modify (fun c0 =>
                       set_stats (with_hits (hits (stats c0) + 1)
                                    (stats c0)) c0) ;;
                     modify _update_hit_rate ;;
                     ret v) c1))).
    { pose proof (accounted_set_memory key v (default_ttl cfg) now c1 Hd)
        as Hset.
      unfold bind at 1.
      destruct (_set_memory cfg pickle_dumps_len key v (default_ttl cfg)
                  now c1) as [[b|e] c2]; [|exact Hset].
      unfold bind, modify, ret. cbn.
      apply accounted_update_hit_rate.
      eapply accounted_frame; [| |exact Hset]; reflexivity. }
    destruct v; first [now apply Hmiss | exact Hpromote].
Qed.

Lemma accounted_run ops c :
  accounted c -> accounted (run cfg pickle_dumps_len ops c).
Proof.
  revert c. induction ops as [|o ops IH]; intros c Hac; [exact Hac|].
  cbn. apply IH. destruct o; cbn [apply_op].
  - now apply accounted_set.
  - now apply accounted_get.
  - now apply accounted_delete.
  - now apply accounted_cleanup.
  - apply accounted_clear.
Qed.

Lemma accounted_init : accounted init.
Proof.
  split; cbn; [apply NoDup_nil_2 | | lia].
  intros p Hp. apply elem_of_nil in Hp. contradiction.
Qed.

(** Through every sequence of operations the byte counter
    [stats.size_bytes], on which the memory limit is checked, is at least
    the number of bytes the hot tier really holds. *)
Theorem size_counter_never_understates ops :
  let c := run cfg pickle_dumps_len ops init in
  hot_bytes c <= size_bytes (stats c).
Proof.
  intros c. apply ac_counter. apply accounted_run.
  split; cbn; [apply NoDup_nil_2 | | lia].
  intros p Hp. apply elem_of_nil in Hp. contradiction.
Qed.

(** Reading an expired entry removes it from the hot tier without taking
    its bytes off the byte counter: from then on the counter overstates
    the bytes held by the size of that entry, the read counts as a miss and
    the hit rate is not refreshed. *)
Theorem expired_read_leaves_bytes_on_counter key default_value now c entry :
  od_get key (memory_cache c) = Some entry ->
  is_expired now entry = true ->
  let r := get cfg pickle_dumps_len key default_value now c in
  fst r = default_value
  /\ hot_bytes (snd r) = hot_bytes c - e_size_bytes entry
  /\ size_bytes (stats (snd r)) = size_bytes (stats c)
  /\ misses (stats (snd r)) = misses (stats c) + 1
  /\ hit_rate (stats (snd r)) = hit_rate (stats c).
Proof.
  intros Hg He r. subst r. rewrite (get_expired_state _ _ _ _ _ Hg He).
  cbn [fst snd]. rewrite !hot_bytes_sum. cbn.
  rewrite (sum_sizes_del key entry) by exact Hg. auto.
Qed.

End Accounting.

Lemma expired_read_leaves_bytes_on_counter_witness :
  let cfg := demo_config LRU in
  let c := snd (set cfg demo_size "a" (PyInt 5) (Some 1%Q) MEMORY 0 init) in
  let r := get cfg demo_size "a" PyNone 10 c in
  hot_bytes (snd r) = 0 /\ size_bytes (stats (snd r)) = 5.
Proof.
  intros cfg c r.
  destruct (expired_read_leaves_bytes_on_counter cfg demo_size "a" PyNone 10 c
              (mkEntry "a" (PyInt 5) 0 0 0 (Some 1%Q) 5) eq_refl eq_refl)
    as (_ & A & B & _).
  subst r. rewrite A, B. vm_compute. auto.
Defined.

Section Counting.
Variable cfg : Config.
Variable pickle_dumps_len : pyvalue -> option N.

(** The number of [get] calls since the cache was last cleared. *)
Definition reads_since_clear (ops : list op) : Z :=
  fold_left (fun n o =>
    match o with
    | OpGet _ _ _ => n + 1
    | OpClear => 0
    | _ => n
    end) ops 0.

Definition requests (c : IntelligentCache) : Z :=
  hits (stats c) + misses (stats c).

Lemma requests_frame c c' :
  write_frame c' = write_frame c -> requests c' = requests c.
Proof. unfold write_frame, requests. congruence. Qed.

Lemma requests_update_hit_rate c : requests (_update_hit_rate c) = requests c.
Proof. unfold _update_hit_rate. cbv zeta. destruct (0 <? _); reflexivity. Qed.

Lemma evict_entries_returns needed now c :
  strategy cfg <> ADAPTIVE ->
  exists c', _evict_entries cfg needed now c = (Ok tt, c').
Proof.
  intros Hs. unfold _evict_entries, modify.
  destruct (strategy cfg); try congruence; eauto.
Qed.

Lemma set_memory_returns key value ttl now c :
  strategy cfg <> ADAPTIVE ->
  exists c', _set_memory cfg pickle_dumps_len key value ttl now c
             = (Ok true, c').
Proof.
  intros Hs. rewrite set_memory_unfold. unfold bind at 1. unfold gets at 1.
  destruct (_would_exceed_memory_limit cfg _ c).
  - unfold bind at 1.
    destruct (evict_entries_returns (entry_size pickle_dumps_len value) now c
                Hs) as [c1 ->].
    unfold store_entry, bind, modify, ret. eauto.
  - unfold store_entry, bind, modify, ret. eauto.
Qed.

Lemma get_state key default_value now c :
  snd (get cfg pickle_dumps_len key default_value now c)
  = snd (get_body cfg pickle_dumps_len key default_value now c).
Proof.
  unfold get.
  destruct (get_body cfg pickle_dumps_len key default_value now c)
    as [[v|e] c']; reflexivity.
Qed.

Lemma get_requests key default_value now c :
  let c' := snd (get cfg pickle_dumps_len key default_value now c) in
  requests c <= requests c' <= requests c + 1
  /\ (strategy cfg <> ADAPTIVE -> requests c' = requests c + 1).
Proof.
  cbv zeta. rewrite get_state.
  assert (G : forall n, n = requests c + 1 ->
            requests c <= n <= requests c + 1
            /\ (strategy cfg <> ADAPTIVE -> n = requests c + 1))
    by (intros n ->; split; [lia | reflexivity]).
  remember (snd (get_body cfg pickle_dumps_len key default_value now c))
    as c' eqn:Hc'. revert Hc'.
  unfold get_body, sanitize_filename. unfold bind at 1. unfold gets at 1.
  destruct (od_get key (memory_cache c)) as [entry|] eqn:Hg.
  - destruct (is_expired now entry); unfold bind, modify, ret; cbn [snd];
      intros ->; apply G.
    + unfold requests. cbn. lia.
    + rewrite requests_update_hit_rate. unfold requests. cbn. lia.
  - unfold bind at 1. unfold disk_lookup.
    assert (Hmiss : forall c1, requests c1 = requests c ->
              requests
                (snd ((modify (fun c0 =>
                         set_stats (with_misses (misses (stats c0) + 1)
                                      (stats c0)) c0) ;;
                       modify _update_hit_rate ;;
                       (if prefetch_enabled cfg
                        then modify (_schedule_prefetch cfg key)
                        else ret tt) ;;
                       ret default_value) c1)) = requests c + 1).
    { intros c1 H1. unfold bind, modify, ret. cbn.
      destruct (prefetch_enabled cfg); cbn;
        rewrite ?schedule_prefetch_idle, requests_update_hit_rate;
        unfold requests in *; cbn; lia. }
    destruct (enable_disk_cache cfg).
    2:{ intros ->. apply G, Hmiss. reflexivity. }
    pose proof (wf_get_from_disk cfg key now c) as Hd.
    destruct (_get_from_disk cfg key now c) as [v c1]. cbn [snd] in Hd.
    apply requests_frame in Hd.
    assert (Hpromote : forall c2,
              c2 = snd ((_set_memory cfg pickle_dumps_len key v
                           (default_ttl cfg) now ;;
                         modify (fun c0 =>
                           set_stats (with_hits (hits (stats c0) + 1)
                                        (stats c0)) c0) ;;
                         modify _update_hit_rate ;;
                         ret v) c1) ->
              requests c <= requests c2 <= requests c + 1
              /\ (strategy cfg <> ADAPTIVE -> requests c2 = requests c + 1)).
    { intros c2.
      pose proof (requests_frame _ _
                    (wf_set_memory cfg pickle_dumps_len key v
                       (default_ttl cfg) now c1)) as Hs.
      pose proof (set_memory_returns key v (default_ttl cfg) now c1) as Hok.
      unfold bind at 1.
      destruct (_set_memory cfg pickle_dumps_len key v (default_ttl cfg)
                  now c1) as [[b|e] c3]; cbn [snd] in Hs.
      - unfold bind, modify, ret. cbn [snd]. intros ->. apply G.
        rewrite requests_update_hit_rate. unfold requests in *. cbn. lia.
      - cbn [snd]. intros ->. split; [lia|]. intros Hne.
        destruct (Hok Hne) as [c4 [=]]. }
    destruct v;
      first [ exact (Hpromote c') | intros ->; apply G, Hmiss, Hd ].
Qed.

Lemma apply_op_requests o c :
  let c' := apply_op cfg pickle_dumps_len o c in
  match o with
  | OpGet _ _ _ =>
      requests c <= requests c' <= requests c + 1
      /\ (strategy cfg <> ADAPTIVE -> requests c' = requests c + 1)
  | OpClear => requests c' = 0
  | _ => requests c' = requests c
  end.
Proof.
  destruct o; cbn [apply_op]; cbv zeta.
  - apply requests_frame, wf_set.
  - apply get_requests.
  - apply requests_frame, wf_delete.
  - apply requests_frame, wf_cleanup.
  - unfold clear. destruct (enable_disk_cache cfg); reflexivity.
Qed.

(** Every [get] is counted exactly once, as a hit or as a miss: the two
    counters add up to the number of [get] calls since the last [clear].
    Under the adaptive policy a [get] whose promotion from disk fails is
    counted as neither, so there the counters may fall short. *)
Theorem every_get_is_counted_once ops :
  let c := run cfg pickle_dumps_len ops init in
  0 <= hits (stats c) + misses (stats c) <= reads_since_clear ops
  /\ (strategy cfg <> ADAPTIVE ->
      hits (stats c) + misses (stats c) = reads_since_clear ops).
Proof.
  cbv zeta. unfold run, reads_since_clear.
  change (hits (stats ?c) + misses (stats ?c)) with (requests c).
  assert (G : forall c n,
    0 <= requests c <= n /\ (strategy cfg <> ADAPTIVE -> requests c = n) ->
    let c' := fold_left (fun c o => apply_op cfg pickle_dumps_len o c) ops c in
    let n' := fold_left (fun n o =>
                match o with
                | OpGet _ _ _ => n + 1
                | OpClear => 0
                | _ => n
                end) ops n in
    0 <= requests c' <= n' /\ (strategy cfg <> ADAPTIVE -> requests c' = n')).
  { induction ops as [|o ops' IH]; intros c n H; [exact H|].
    cbn [fold_left]. apply IH.
    pose proof (apply_op_requests o c) as Ho. cbv zeta in Ho.
    destruct o; try (rewrite Ho; exact H).
    - destruct Ho as [Ho1 Ho2], H as [H1 H2]. split; [lia|].
      intros Hs. rewrite (Ho2 Hs), (H2 Hs). reflexivity.
    - rewrite Ho. split; [lia | reflexivity]. }
  apply (G init 0). unfold requests. cbn. split; [lia | reflexivity].
Qed.

End Counting.

(** *** The hit rate *)

Section HitRate.
Variable cfg : Config.
Variable pickle_dumps_len : pyvalue -> option N.

(** The percentage of hits among the reads counted so far. *)
Definition hit_percentage (c : IntelligentCache) : Q :=
  (inject_Z (hits (stats c))
   / inject_Z (hits (stats c) + misses (stats c)) * 100)%Q.

Record rated (c : IntelligentCache) : Prop := {
  rt_hits : 0 <= hits (stats c);
  rt_misses : 0 <= misses (stats c);
  rt_rate : (0 <= hit_rate (stats c) /\ hit_rate (stats c) <= 100)%Q
}.

Lemma percentage_bounds h m :
  0 <= h -> 0 <= m -> 0 < h + m ->
  (0 <= inject_Z h / inject_Z (h + m) * 100
   /\ inject_Z h / inject_Z (h + m) * 100 <= 100)%Q.
Proof.
  intros Hh Hm Ht.
  assert (Ht' : (0 < inject_Z (h + m))%Q)
    by (unfold Qlt; cbn; lia).
  assert (H0 : (0 <= inject_Z h / inject_Z (h + m))%Q).
  { apply Qle_shift_div_l; [exact Ht'|]. rewrite Qmult_0_l.
    unfold Qle; cbn; lia. }
  assert (H1 : (inject_Z h / inject_Z (h + m) <= 1)%Q).
  { apply Qle_shift_div_r; [exact Ht'|]. rewrite Qmult_1_l.
    unfold Qle; cbn; lia. }
  split.
  - apply Qmult_le_0_compat; [exact H0 | discriminate].
  - apply Qle_trans with (1 * 100)%Q; [|discriminate].
    apply Qmult_le_compat_r; [exact H1 | discriminate].
Qed.

Lemma rated_frame c c' : write_frame c' = write_frame c -> rated c -> rated c'.
Proof.
  unfold write_frame. intros [= H1 H2 H3 _ _ _] [R1 R2 R3].
  split; rewrite ?H1, ?H2, ?H3; assumption.
Qed.

Lemma rated_update_hit_rate c :
  0 <= hits (stats c) -> 0 <= misses (stats c) ->
  (0 <= hit_rate (stats c) /\ hit_rate (stats c) <= 100)%Q ->
  rated (_update_hit_rate c).
Proof.
  intros Hh Hm Hr. unfold _update_hit_rate. cbv zeta.
  destruct (Z.ltb_spec 0 (hits (stats c) + misses (stats c))) as [Ht|Ht].
  - split; cbn; auto. now apply percentage_bounds.
  - split; auto.
Qed.

(** After [_update_hit_rate] on a cache that has counted a read, the rate
    is the percentage of hits. *)
Lemma update_hit_rate_exact c :
  0 < hits (stats c) + misses (stats c) ->
  hit_rate (stats (_update_hit_rate c)) = hit_percentage c
  /\ hits (stats (_update_hit_rate c)) = hits (stats c)
  /\ misses (stats (_update_hit_rate c)) = misses (stats c).
Proof.
  intros Ht. unfold _update_hit_rate. cbv zeta.
  destruct (Z.ltb_spec 0 (hits (stats c) + misses (stats c))); [|lia].
  repeat split.
Qed.


Lemma hit_percentage_update c :
  hit_percentage (_update_hit_rate c) = hit_percentage c.
Proof.
  unfold hit_percentage, _update_hit_rate. cbv zeta.
  destruct (0 <? _); reflexivity.
Qed.

(** Counting one more read and refreshing the rate. *)
Lemma count_and_refresh c (count : CacheStats -> CacheStats) :
  rated c ->
  (hits (count (stats c)) = hits (stats c) + 1
   /\ misses (count (stats c)) = misses (stats c)
   \/ hits (count (stats c)) = hits (stats c)
      /\ misses (count (stats c)) = misses (stats c) + 1) ->
  hit_rate (count (stats c)) = hit_rate (stats c) ->
  let c' := _update_hit_rate (set_stats (count (stats c)) c) in
  rated c' /\ hit_rate (stats c') = hit_percentage c'
  /\ requests c' = requests c + 1.
Proof.
  intros [R1 R2 R3] Hcount Hrate c'.
  set (c1 := set_stats (count (stats c)) c) in *.
  assert (H1 : 0 <= hits (stats c1)) by (cbn; lia).
  assert (H2 : 0 <= misses (stats c1)) by (cbn; lia).
  assert (H3 : 0 < hits (stats c1) + misses (stats c1)) by (cbn; lia).
  destruct (update_hit_rate_exact c1 H3) as (E1 & E2 & E3).
  split; [|split].
  - apply rated_update_hit_rate; auto. cbn. now rewrite Hrate.
  - subst c'. now rewrite hit_percentage_update.
  - subst c'. rewrite requests_update_hit_rate. unfold requests. cbn. lia.
Qed.

(** What a read does to the counters and to the rate. *)
Lemma get_rates key default_value now c :
  rated c ->
  let r := get_body cfg pickle_dumps_len key default_value now c in
  let c' := snd r in
  rated c'
  /\ match od_get key (memory_cache c) with
     | Some entry =>
         if is_expired now entry
         then hits (stats c') = hits (stats c)
              /\ misses (stats c') = misses (stats c) + 1
              /\ hit_rate (stats c') = hit_rate (stats c)
         else hits (stats c') = hits (stats c) + 1
              /\ misses (stats c') = misses (stats c)
              /\ hit_rate (stats c') = hit_percentage c'
     | None =>
         strategy cfg <> ADAPTIVE \/ (exists v, fst r = Ok v) ->
         requests c' = requests c + 1
         /\ hit_rate (stats c') = hit_percentage c'
     end.
Proof.
  intros Hr. cbv zeta.
  remember (get_body cfg pickle_dumps_len key default_value now c)
    as r eqn:Hres. revert Hres.
  unfold get_body, sanitize_filename. unfold bind at 1. unfold gets at 1.
  destruct (od_get key (memory_cache c)) as [entry|] eqn:Hg.
  - destruct (is_expired now entry); unfold bind, modify, ret; intros ->;
      cbn [snd].
    + split; [|cbn; auto]. destruct Hr as [R1 R2 R3].
      split; cbn; auto; lia.
    + match goal with
      | |- context [_update_hit_rate ?c0] =>
          set (c1 := c0)
      end.
      assert (Hr1 : rated (set_stats (stats c) c1))
        by (destruct Hr; split; assumption).
      destruct (count_and_refresh (set_stats (stats c) c1)
                  (fun st => with_hits (hits st + 1) st) Hr1)
        as (A & B & C); [left; split; reflexivity | reflexivity|].
      cbn in A, B, C. split; [exact A|].
      split; [|split; [|exact B]].
      * destruct (update_hit_rate_exact
                    (set_stats (with_hits (hits (stats c) + 1) (stats c)) c1))
          as (_ & E & _); [destruct Hr; cbn; lia | exact E].
      * destruct (update_hit_rate_exact
                    (set_stats (with_hits (hits (stats c) + 1) (stats c)) c1))
          as (_ & _ & E); [destruct Hr; cbn; lia | exact E].
  - unfold bind at 1. unfold disk_lookup.
    assert (Hmiss : forall c1, write_frame c1 = write_frame c ->
              forall r,
              r = (modify (fun c0 =>
                     set_stats (with_misses (misses (stats c0) + 1)
                                  (stats c0)) c0) ;;
                   modify _update_hit_rate ;;
                   (if prefetch_enabled cfg
                    then modify (_schedule_prefetch cfg key)
                    else ret tt) ;;
                   ret default_value) c1 ->
              rated (snd r)
              /\ (strategy cfg <> ADAPTIVE \/ (exists v, fst r = Ok v) ->
                  requests (snd r) = requests c + 1
                  /\ hit_rate (stats (snd r)) = hit_percentage (snd r))).
    { intros c1 H1 r0 ->.
      pose proof (rated_frame _ _ H1 Hr) as Hr1.
      destruct (count_and_refresh c1
                  (fun st => with_misses (misses st + 1) st) Hr1)
        as (A & B & C); [right; split; reflexivity | reflexivity|].
      rewrite (requests_frame _ _ H1) in C.
      unfold bind, modify, ret.
      destruct (prefetch_enabled cfg); cbn [snd fst];
        rewrite ?schedule_prefetch_idle; auto. }
    destruct (enable_disk_cache cfg).
    2:{ apply Hmiss. reflexivity. }
    pose proof (wf_get_from_disk cfg key now c) as Hd.
    destruct (_get_from_disk cfg key now c) as [v c1]. cbn [snd] in Hd.
    assert (Hpromote : forall r,
              r = (_set_memory cfg pickle_dumps_len key v
                     (default_ttl cfg) now ;;
                   modify (fun c0 =>
                     set_stats (with_hits (hits (stats c0) + 1)
                                  (stats c0)) c0) ;;
                   modify _update_hit_rate ;;
                   ret v) c1 ->
              rated (snd r)
              /\ (strategy cfg <> ADAPTIVE \/ (exists v, fst r = Ok v) ->
                  requests (snd r) = requests c + 1
                  /\ hit_rate (stats (snd r)) = hit_percentage (snd r))).
    { intros r0.
      pose proof (wf_set_memory cfg pickle_dumps_len key v
                    (default_ttl cfg) now c1) as Hs.
      unfold bind at 1.
      pose proof (set_memory_returns cfg pickle_dumps_len key v
                    (default_ttl cfg) now c1) as Hok.
      destruct (_set_memory cfg pickle_dumps_len key v (default_ttl cfg)
                  now c1) as [[b|e] c3]; cbn [snd] in Hs; intros ->.
      - rewrite Hd in Hs. pose proof (rated_frame _ _ Hs Hr) as Hr3.
        destruct (count_and_refresh c3
                    (fun st => with_hits (hits st + 1) st) Hr3)
          as (A & B & C); [left; split; reflexivity | reflexivity|].
        rewrite (requests_frame _ _ Hs) in C.
        unfold bind, modify, ret. cbn [snd fst]. auto.
      - cbn [snd fst]. rewrite Hd in Hs. split; [now apply (rated_frame c)|].
        intros [Hne|[v' [=]]]. destruct (Hok Hne) as [c4 [=]]. }
    destruct v; intros ->;
      first [ now apply Hpromote | now apply (Hmiss c1 Hd) ].
Qed.


Lemma rated_apply_op o c :
  rated c -> rated (apply_op cfg pickle_dumps_len o c).
Proof.
  intros Hr. destruct o; cbn [apply_op].
  - apply (rated_frame c); [apply wf_set | exact Hr].
  - rewrite get_state. now apply get_rates.
  - apply (rated_frame c); [apply wf_delete | exact Hr].
  - apply (rated_frame c); [apply wf_cleanup | exact Hr].
  - unfold clear. destruct (enable_disk_cache cfg);
      (split; cbn; [lia | lia | split; discriminate]).
Qed.

Lemma rated_run ops c :
  rated c -> rated (run cfg pickle_dumps_len ops c).
Proof.
  revert c. induction ops as [|o ops IH]; intros c Hr; [exact Hr|].
  cbn. apply IH. now apply rated_apply_op.
Qed.

Lemma rated_init : rated init.
Proof. split; cbn; [lia | lia | split; discriminate]. Qed.

(** [stats.hit_rate] is a percentage: through every sequence of
    operations it stays between 0 and 100.  A read that finds a live entry
    in the hot tier, and a read that finds none and runs to its end (as it
    always does unless the strategy is ADAPTIVE), leave it equal to the
    percentage of hits among the reads counted so far; a read that finds an
    expired entry leaves it as it was. *)
Theorem hit_rate_is_the_percentage_of_hits ops key default_value now :
  let c := run cfg pickle_dumps_len ops init in
  let r := get_body cfg pickle_dumps_len key default_value now c in
  let c' := snd (get cfg pickle_dumps_len key default_value now c) in
  (0 <= hit_rate (stats c) /\ hit_rate (stats c) <= 100)%Q
  /\ match od_get key (memory_cache c) with
     | Some entry =>
         if is_expired now entry
         then hit_rate (stats c') = hit_rate (stats c)
         else hit_rate (stats c') = hit_percentage c'
     | None =>
         strategy cfg <> ADAPTIVE \/ (exists v, fst r = Ok v) ->
         hit_rate (stats c') = hit_percentage c'
     end.
Proof.
  intros c r c'. pose proof (rated_run ops init rated_init) as Hr.
  fold c in Hr. split; [apply Hr|].
  destruct (get_rates key default_value now c Hr) as [_ H].
  subst c' r. rewrite get_state.
  destruct (od_get key (memory_cache c)) as [entry|].
  - destruct (is_expired now entry); apply H.
  - intros Hok. now apply H.
Qed.

End HitRate.

(** *** The order of eviction *)

(** The entries an eviction loop removes: it walks its list and stops after
    the entry with which the bytes freed reach the bytes needed. *)
Fixpoint victims {A} (size : A -> Z) (L : list A) (freed needed : Z)
  : list A :=
  match L with
  | [] => []
  | x :: rest =>
      x :: (if needed <=? freed + size x then []
            else victims size rest (freed + size x) needed)
  end.

Lemma victims_prefix {A} (size : A -> Z) L freed needed :
  victims size L freed needed `prefix_of` L.
Proof.
  revert freed. induction L as [|x L IH]; intros freed; cbn.
  - reflexivity.
  - apply prefix_cons. destruct (needed <=? freed + size x);
      [apply prefix_nil | apply IH].
Qed.

Lemma victims_nonempty {A} (size : A -> Z) L freed needed :
  L <> [] -> victims size L freed needed <> [].
Proof. destruct L; [congruence | discriminate]. Qed.

Definition od_del_all {V} (ks : list string) (d : list (string * V))
  : list (string * V) :=
  fold_left (fun d k => od_del k d) ks d.

Lemma od_del_all_elem {V} ks (d : list (string * V)) p :
  NoDup (keys d) ->
  p ∈ od_del_all ks d <-> p ∈ d /\ fst p ∉ ks.
Proof.
  revert d. induction ks as [|k ks IH]; intros d Hnd.
  - cbn. split; [intros H; split; [exact H | apply not_elem_of_nil] | tauto].
  - change (od_del_all (k :: ks) d) with (od_del_all ks (od_del k d)).
    rewrite IH by now apply od_del_nodup. rewrite not_elem_of_cons. split.
    + intros [Hp Hk]. split; [eapply od_del_elem; eauto|]. split; [|exact Hk].
      intros Heq. destruct p as [k' v]. cbn in Heq. subst k'.
      assert (Hg : od_get k (od_del k d) = Some v).
      { apply od_get_nodup; [now apply od_del_nodup | exact Hp]. }
      rewrite od_get_del_eq in Hg by exact Hnd. discriminate.
    + intros (Hp & Hne & Hk). split; [|exact Hk].
      now apply od_del_elem_ne.
Qed.

Lemma od_del_all_prefix {V} (pre rest : list (string * V)) :
  NoDup (keys (pre ++ rest)) ->
  od_del_all (keys pre) (pre ++ rest) = rest.
Proof.
  induction pre as [|[k v] pre IH]; intros Hnd; [reflexivity|].
  cbn [keys map fst app] in *.
  change (od_del_all (k :: map fst pre) ((k, v) :: pre ++ rest))
    with (od_del_all (map fst pre) (od_del k ((k, v) :: pre ++ rest))).
  cbn [od_del]. rewrite String.eqb_refl. apply IH.
  now apply NoDup_cons in Hnd as [_ ?].
Qed.

(** Stable insertion sort sorts. *)
Section Sorting.
Context {A : Type} (leb : A -> A -> bool).
Hypothesis leb_total : forall x y, leb x y = false -> leb y x = true.
Hypothesis leb_trans :
  forall x y z, leb x y = true -> leb y z = true -> leb x z = true.

Lemma insert_sorted_elem x l y :
  y ∈ insert_sorted leb x l <-> y = x \/ y ∈ l.
Proof. rewrite sorted_insert_perm. apply elem_of_cons. Qed.

Lemma insert_sorted_sorted x l :
  StronglySorted (fun a b => leb a b = true) l ->
  StronglySorted (fun a b => leb a b = true) (insert_sorted leb x l).
Proof.
  induction 1 as [|y l Hl IH Hy]; cbn.
  - repeat constructor.
  - destruct (leb x y) eqn:Hxy.
    + constructor; [now constructor|]. constructor; [exact Hxy|].
      eapply Forall_impl; [exact Hy|]. cbn. eauto.
    + constructor; [exact IH|]. apply Forall_forall.
      intros z Hz. apply insert_sorted_elem in Hz as [->|Hz].
      * now apply leb_total.
      * rewrite Forall_forall in Hy. now apply Hy.
Qed.

Lemma sorted_sorted l :
  StronglySorted (fun a b => leb a b = true) (sorted leb l).
Proof.
  induction l as [|x l IH]; cbn; [constructor|].
  now apply insert_sorted_sorted.
Qed.

End Sorting.

Lemma sorted_app_le {A} (R : A -> A -> Prop) l1 l2 x y :
  StronglySorted R (l1 ++ l2) -> x ∈ l1 -> y ∈ l2 -> R x y.
Proof.
  induction l1 as [|z l1 IH]; cbn; intros Hs Hx Hy.
  - apply elem_of_nil in Hx. contradiction.
  - apply StronglySorted_inv in Hs as [Hs Hz].
    apply elem_of_cons in Hx as [->|Hx]; [|now apply IH].
    rewrite Forall_forall in Hz. apply Hz, elem_of_app. now right.
Qed.

Lemma same_key_same_entry {V} (d : list (string * V)) p q :
  NoDup (keys d) -> p ∈ d -> q ∈ d -> fst p = fst q -> p = q.
Proof.
  intros Hnd Hp Hq Hk. destruct p as [k v], q as [k' v']. cbn in Hk. subst k'.
  pose proof (od_get_nodup k v d Hnd Hp) as H1.
  pose proof (od_get_nodup k v' d Hnd Hq) as H2. congruence.
Qed.

Section Order.
Variable cfg : Config.

Lemma evict_step_memory save key entry now c :
  memory_cache (evict_step cfg save key entry now c)
  = od_del key (memory_cache c).
Proof.
  unfold evict_step, evict_one, _set_disk.
  destruct save, (negb (enable_disk_cache cfg)); reflexivity.
Qed.

Lemma evict_sorted_memory {B} (entry_of : B -> string * CacheEntry) save L
    freed needed now c :
  memory_cache (evict_sorted cfg entry_of save L freed needed now c)
  = od_del_all
      (keys (map entry_of
               (victims (fun x => e_size_bytes (snd (entry_of x))) L freed
                  needed)))
      (memory_cache c).
Proof.
  revert freed c. induction L as [|x L IH]; intros freed c; [reflexivity|].
  rewrite evict_sorted_cons. cbv zeta. cbn [victims].
  destruct (needed <=? freed + e_size_bytes (snd (entry_of x))).
  - now rewrite evict_step_memory.
  - rewrite IH, evict_step_memory. reflexivity.
Qed.

(** Which entries an eviction over a rearrangement [L] of (part of) the hot
    tier removes, and which it keeps. *)
Lemma evict_sorted_split (L : list (string * CacheEntry)) save needed now c :
  NoDup (keys (memory_cache c)) ->
  (forall p, p ∈ L -> p ∈ memory_cache c) ->
  let c' := evict_sorted cfg (fun x => x) save L 0 needed now c in
  exists V R, L = V ++ R
    /\ (L <> [] -> V <> [])
    /\ (forall p, p ∈ memory_cache c -> p ∉ memory_cache c' -> p ∈ V)
    /\ (forall q, q ∈ memory_cache c' <-> q ∈ memory_cache c /\ q ∉ V).
Proof.
  intros Hnd HL c'.
  set (V := victims (fun x : string * CacheEntry => e_size_bytes (snd x))
              L 0 needed).
  destruct (victims_prefix (fun x : string * CacheEntry =>
                              e_size_bytes (snd x)) L 0 needed) as [R HR].
  fold V in HR. exists V, R. split; [exact HR|].
  assert (Hmem : forall p, p ∈ memory_cache c' <->
                           p ∈ memory_cache c /\ fst p ∉ keys V).
  { intros p. subst c'. rewrite evict_sorted_memory, list_fmap_id.
    now apply od_del_all_elem. }
  assert (HV : forall p, p ∈ V -> p ∈ memory_cache c).
  { intros p Hp. apply HL. rewrite HR. apply elem_of_app. now left. }
  split; [apply victims_nonempty|]. split.
  - intros p Hp Hgone. rewrite Hmem in Hgone.
    destruct (decide (fst p ∈ keys V)) as [Hk|Hk]; [|tauto].
    apply list_elem_of_fmap in Hk as (p' & Hfst & Hp').
    rewrite (same_key_same_entry (memory_cache c) p p'); auto.
  - intros q. rewrite Hmem. split; intros [Hq Hk]; (split; [exact Hq|]).
    + intros HqV. apply Hk. now apply list_elem_of_fmap_2.
    + intros HqV. apply list_elem_of_fmap in HqV as (q' & Hfst & Hq').
      apply Hk. rewrite (same_key_same_entry (memory_cache c) q q'); auto.
Qed.

(** Under LFU an entry is evicted only if every entry that stays has been
    read at least as often. *)
Theorem lfu_evicts_least_read_first needed now c :
  NoDup (keys (memory_cache c)) ->
  let c' := _evict_lfu cfg needed now c in
  forall p q,
    p ∈ memory_cache c -> p ∉ memory_cache c' -> q ∈ memory_cache c' ->
    e_access_count (snd p) <= e_access_count (snd q).
Proof.
  intros Hnd c' p q Hp Hgone Hq. subst c'. unfold _evict_lfu in *.
  cbv zeta in *.
  set (leb := fun x y : string * CacheEntry =>
                e_access_count (snd x) <=? e_access_count (snd y)) in *.
  set (L := sorted leb (memory_cache c)) in *.
  assert (HL : forall x, x ∈ L <-> x ∈ memory_cache c)
    by (intros x; subst L; now rewrite sorted_perm).
  destruct (evict_sorted_split L
              (fun x => enable_disk_cache cfg && (1 <? e_access_count (snd x)))
              needed now c Hnd ltac:(intros x; apply HL))
    as (V & R & HVR & _ & Hout & Hin).
  pose proof (Hout p Hp Hgone) as HpV.
  destruct (proj1 (Hin q) Hq) as [Hqc HqV].
  assert (HqR : q ∈ R).
  { apply HL in Hqc. rewrite HVR in Hqc.
    apply elem_of_app in Hqc as [?|?]; [contradiction | assumption]. }
  assert (Hs : StronglySorted (fun a b => leb a b = true) (V ++ R)).
  { rewrite <- HVR. subst L. apply sorted_sorted.
    - intros x y. subst leb. cbn. rewrite Z.leb_gt, Z.leb_le. lia.
    - intros x y z. subst leb. cbn. rewrite !Z.leb_le. lia. }
  pose proof (sorted_app_le _ V R p q Hs HpV HqR) as Hle.
  subst leb. cbn in Hle. now apply Z.leb_le.
Qed.

(** Under the TTL policy entries without a TTL are never evicted, and an
    entry with a TTL is evicted only if every entry with a TTL that stays
    expires no earlier. *)
Theorem ttl_evicts_soonest_to_expire_first needed now c :
  NoDup (keys (memory_cache c)) ->
  let c' := _evict_ttl cfg needed now c in
  (forall q, q ∈ memory_cache c -> e_ttl (snd q) = None ->
             q ∈ memory_cache c')
  /\ (forall p q t,
        p ∈ memory_cache c -> p ∉ memory_cache c' ->
        q ∈ memory_cache c' -> e_ttl (snd q) = Some t ->
        exists s, e_ttl (snd p) = Some s
          /\ (e_created_at (snd p) + s <= e_created_at (snd q) + t)%Q).
Proof.
  intros Hnd c'. subst c'. unfold _evict_ttl in *. cbv zeta in *.
  set (leb := fun x y : string * CacheEntry =>
                Qle_bool (ttl_sort_key now x) (ttl_sort_key now y)) in *.
  set (F := filter (fun x : string * CacheEntry => e_ttl (snd x) <> None)
              (memory_cache c)) in *.
  set (L := sorted leb F) in *.
  assert (HL : forall x, x ∈ L <->
                         x ∈ memory_cache c /\ e_ttl (snd x) <> None).
  { intros x. subst L F. rewrite sorted_perm, list_elem_of_filter. tauto. }
  destruct (evict_sorted_split L (fun _ => false) needed now c Hnd
              ltac:(intros x Hx; now apply HL in Hx))
    as (V & R & HVR & _ & Hout & Hin).
  assert (HV : forall x, x ∈ V -> e_ttl (snd x) <> None).
  { intros x Hx. apply (HL x). rewrite HVR. apply elem_of_app. now left. }
  split.
  - intros q Hq Hnone. apply Hin. split; [exact Hq|].
    intros HqV. now apply (HV q).
  - intros p q t Hp Hgone Hq Ht.
    pose proof (Hout p Hp Hgone) as HpV.
    destruct (proj1 (Hin q) Hq) as [Hqc HqV].
    assert (HqR : q ∈ R).
    { assert (HqL : q ∈ L) by (apply HL; split; [exact Hqc | congruence]).
      rewrite HVR in HqL.
      apply elem_of_app in HqL as [?|?]; [contradiction | assumption]. }
    assert (Hs : StronglySorted (fun a b => leb a b = true) (V ++ R)).
    { rewrite <- HVR. subst L. apply sorted_sorted.
      - intros x y. subst leb. cbn. intros H.
        apply Qle_bool_iff. apply Qlt_le_weak, Qnot_le_lt.
        intros Hle. apply Qle_bool_iff in Hle. congruence.
      - intros x y z. subst leb. cbn. rewrite !Qle_bool_iff.
        apply Qle_trans. }
    pose proof (sorted_app_le _ V R p q Hs HpV HqR) as Hle.
    subst leb. cbn in Hle. apply Qle_bool_iff in Hle.
    destruct (e_ttl (snd p)) as [s|] eqn:Hsp; [|now apply HV in HpV].
    exists s. split; [reflexivity|].
    unfold ttl_sort_key in Hle. rewrite Hsp, Ht in Hle. cbn in Hle. lra.
Qed.

(** Under LRU the front of the hot tier's order is evicted: what stays is
    a final segment of that order, and at least one entry goes whenever
    there is one. *)
Theorem lru_evicts_from_the_front needed now c :
  NoDup (keys (memory_cache c)) ->
  let c' := _evict_lru cfg needed now c in
  exists gone,
    memory_cache c = gone ++ memory_cache c'
    /\ (memory_cache c <> [] -> gone <> []).
Proof.
  intros Hnd c'. subst c'. rewrite evict_lru_sorted by exact Hnd.
  rewrite evict_sorted_memory, list_fmap_id.
  set (V := victims _ (memory_cache c) 0 needed).
  destruct (victims_prefix (fun x : string * CacheEntry =>
                              e_size_bytes (snd x)) (memory_cache c) 0 needed)
    as [R HR].
  fold V in HR. exists V. split.
  - rewrite HR at 2. rewrite od_del_all_prefix; [exact HR|].
    now rewrite <- HR.
  - apply victims_nonempty.
Qed.

End Order.

(** *** The order of eviction under the ADAPTIVE policy *)

Section AdaptiveOrder.
Variable cfg : Config.

(** The scores attached by the first loop of [_evict_adaptive]. *)
Lemma score_entries_scores now cache items scored x :
  score_entries now cache items = Ok scored -> x ∈ scored ->
  adaptive_score now cache (snd (fst x)) = Ok (snd x).
Proof.
  revert scored. induction items as [|[key entry] items IH]; intros scored;
    cbn; [intros [= <-] H; now apply elem_of_nil in H|].
  destruct (adaptive_score now cache entry) as [score|] eqn:Hs;
    [|discriminate].
  destruct (score_entries now cache items) as [rest|]; [|discriminate].
  intros [= <-] H. apply elem_of_cons in H as [->|H]; [exact Hs|].
  now apply (IH rest).
Qed.

(** Under the ADAPTIVE policy, when the scoring goes through, an entry is
    evicted only if every entry that stays has a composite score at least
    as high. *)
Theorem adaptive_evicts_lowest_score_first needed now c c' :
  NoDup (keys (memory_cache c)) ->
  _evict_adaptive cfg needed now c = (Ok tt, c') ->
  forall p q sp sq,
    p ∈ memory_cache c -> p ∉ memory_cache c' -> q ∈ memory_cache c' ->
    adaptive_score now (memory_cache c) (snd p) = Ok sp ->
    adaptive_score now (memory_cache c) (snd q) = Ok sq ->
    (sp <= sq)%Q.
Proof.
  intros Hnd Hev p q sp sq Hp Hgone Hq Hsp Hsq.
  unfold _evict_adaptive in Hev.
  destruct (score_entries now (memory_cache c) (memory_cache c))
    as [scored|e] eqn:Hsc; [|discriminate].
  cbv zeta in Hev. injection Hev as <-.
  set (leb := fun x y : string * CacheEntry * Q =>
                Qle_bool (snd x) (snd y)) in *.
  set (L := sorted leb scored) in *.
  assert (HL : map fst L ≡ₚ memory_cache c).
  { subst L. rewrite sorted_perm.
    now rewrite (score_entries_items _ _ _ _ Hsc). }
  assert (Hscore : forall x, x ∈ L ->
            adaptive_score now (memory_cache c) (snd (fst x)) = Ok (snd x)).
  { intros x Hx. apply (score_entries_scores now (memory_cache c)
                          (memory_cache c) scored x Hsc).
    subst L. now rewrite sorted_perm in Hx. }
  rewrite evict_sorted_memory in Hgone, Hq.
  set (V := victims (fun x : string * CacheEntry * Q =>
                       e_size_bytes (snd (fst x))) L 0 needed) in *.
  destruct (victims_prefix (fun x : string * CacheEntry * Q =>
                              e_size_bytes (snd (fst x))) L 0 needed)
    as [R HR].
  fold V in HR.
  rewrite od_del_all_elem in Hgone, Hq by exact Hnd.
  destruct Hq as [Hqc Hqk].
  assert (HpV : exists x, x ∈ V /\ fst x = p).
  { destruct (decide (fst p ∈ keys (map fst V))) as [Hk|Hk]; [|tauto].
    apply list_elem_of_fmap in Hk as (p' & Hfst & Hp').
    apply list_elem_of_fmap in Hp' as (x & -> & Hx).
    exists x. split; [exact Hx|]. symmetry.
    apply (same_key_same_entry (memory_cache c)); auto.
    rewrite <- HL. apply list_elem_of_fmap_2. rewrite HR.
    apply elem_of_app. now left. }
  assert (HqR : exists y, y ∈ R /\ fst y = q).
  { rewrite <- HL in Hqc. apply list_elem_of_fmap in Hqc as (y & -> & Hy).
    exists y. split; [|reflexivity]. rewrite HR in Hy.
    apply elem_of_app in Hy as [Hy|Hy]; [|exact Hy].
    exfalso. apply Hqk. apply list_elem_of_fmap_2.
    now apply list_elem_of_fmap_2. }
  destruct HpV as (x & Hx & <-), HqR as (y & Hy & <-).
  assert (Hs : StronglySorted (fun a b => leb a b = true) (V ++ R)).
  { rewrite <- HR. subst L. apply sorted_sorted.
    - intros a b. subst leb. cbn. intros H.
      apply Qle_bool_iff. apply Qlt_le_weak, Qnot_le_lt.
      intros Hle. apply Qle_bool_iff in Hle. congruence.
    - intros a b d. subst leb. cbn. rewrite !Qle_bool_iff.
      apply Qle_trans. }
  pose proof (sorted_app_le _ V R x y Hs Hx Hy) as Hle.
  subst leb. cbn in Hle. apply Qle_bool_iff in Hle.
  rewrite Hscore in Hsp, Hsq;
    [|rewrite HR; apply elem_of_app; now right
     |rewrite HR; apply elem_of_app; now left].
  injection Hsp as <-. injection Hsq as <-. exact Hle.
Qed.

End AdaptiveOrder.

Lemma od_del_set {V} k (v : V) d : od_del k (od_set k v d) = od_del k d.
Proof.
  induction d as [|[k' v'] d IH]; cbn.
  - now rewrite String.eqb_refl.
  - destruct (String.eqb k' k) eqn:E; cbn; rewrite E; [reflexivity|].
    now rewrite IH.
Qed.

Lemma od_set_keys_present {V} k (v v' : V) d :
  od_get k d = Some v' -> keys (od_set k v d) = keys d.
Proof.
  unfold keys. induction d as [|[k' w] d IH]; cbn; [discriminate|].
  destruct (String.eqb k' k); cbn; [reflexivity|].
  intros H. now rewrite IH.
Qed.

Section Recency.
Variable cfg : Config.
Variable pickle_dumps_len : pyvalue -> option N.

(** A read that hits moves the entry to the back of the hot tier's order,
    the end from which LRU evicts last.  A write to a key that is already
    there (and needs no eviction) replaces the entry where it stands: it
    does not make the key any more recent. *)
Theorem get_refreshes_recency_but_set_does_not
    key entry default_value value ttl now c :
  od_get key (memory_cache c) = Some entry ->
  (is_expired now entry = false ->
   memory_cache (snd (get cfg pickle_dumps_len key default_value now c))
   = od_del key (memory_cache c) ++ [(key, touch now entry)])
  /\ (_would_exceed_memory_limit cfg (entry_size pickle_dumps_len value) c
      = false ->
      let c' := snd (set cfg pickle_dumps_len key value ttl MEMORY now c) in
      keys (memory_cache c') = keys (memory_cache c)
      /\ exists stored,
           od_get key (memory_cache c') = Some stored
           /\ e_value stored = value /\ e_created_at stored = now).
Proof.
  intros Hg. split.
  - intros He. rewrite get_state.
    unfold get_body, sanitize_filename, bind, gets, modify, ret.
    rewrite Hg, He. cbn [snd].
    assert (Hm : forall c0, memory_cache (_update_hit_rate c0)
                            = memory_cache c0).
    { intros c0. unfold _update_hit_rate. cbv zeta.
      destruct (0 <? _); reflexivity. }
    rewrite Hm. cbn. unfold od_move_to_end.
    now rewrite od_get_set, od_del_set.
  - intros Hex c'.
    assert (Hm : memory_cache c'
                 = od_set key
                     (mkEntry key value now now 0
                        match ttl with
                        | None => default_ttl cfg
                        | Some _ => ttl
                        end (entry_size pickle_dumps_len value))
                     (memory_cache c)).
    { subst c'. unfold set, sanitize_filename. cbv zeta.
      rewrite set_memory_unfold. unfold bind at 1. unfold gets at 1.
      rewrite Hex. unfold store_entry, bind, modify, ret. cbn.
      now rewrite Hg. }
    rewrite Hm. split; [eapply od_set_keys_present; eauto|].
    eexists. split; [apply od_get_set|]. split; reflexivity.
Qed.

End Recency.

Lemma get_refreshes_recency_but_set_does_not_witness :
  let cfg := demo_config LRU in
  let c := snd (set cfg demo_size "b" (PyInt 2) None MEMORY 1
             (snd (set cfg demo_size "a" (PyInt 1) None MEMORY 0 init))) in
  keys (memory_cache (snd (get cfg demo_size "a" PyNone 2 c)))
  = ["b"; "a"]%string
  /\ keys (memory_cache
             (snd (set cfg demo_size "a" (PyInt 3) None MEMORY 2 c)))
     = ["a"; "b"]%string.
Proof.
  intros cfg c.
  destruct (get_refreshes_recency_but_set_does_not cfg demo_size "a"
              (mkEntry "a" (PyInt 1) 0 0 0 (Some 3600%Q) 1)
              PyNone (PyInt 3) None 2 c eq_refl) as [Hget Hset].
  split.
  - rewrite Hget by reflexivity. reflexivity.
  - destruct (Hset eq_refl) as [Hk _]. rewrite Hk. reflexivity.
Defined.

(** *** Cache keys *)

Lemma string_leb_trans a b c :
  String.leb a b = true -> String.leb b c = true -> String.leb a c = true.
Proof.
  unfold String.leb.
  revert b c. induction a as [|x a IH]; intros [|y b] [|z c]; cbn;
    try congruence.
  unfold Ascii.compare.
  destruct (N.compare_spec (N_of_ascii x) (N_of_ascii y)) as [Hxy|Hxy|Hxy];
  destruct (N.compare_spec (N_of_ascii y) (N_of_ascii z)) as [Hyz|Hyz|Hyz];
  destruct (N.compare_spec (N_of_ascii x) (N_of_ascii z)) as [Hxz|Hxz|Hxz];
  try congruence; try lia; try (intros; reflexivity).
  apply IH.
Qed.

Lemma sorted_unique {V} (R : string * V -> string * V -> Prop) l1 l2 :
  (forall x y, R x y -> R y x -> fst x = fst y) ->
  StronglySorted R l1 -> StronglySorted R l2 ->
  l1 ≡ₚ l2 -> NoDup (keys l1) -> l1 = l2.
Proof.
  intros Hanti. revert l2.
  induction l1 as [|x l1 IH]; intros l2 H1 H2 Hp Hnd.
  - destruct l2 as [|y l2]; [reflexivity|].
    apply Permutation_length in Hp. discriminate.
  - destruct l2 as [|y l2];
      [apply Permutation_length in Hp; discriminate|].
    apply StronglySorted_inv in H1 as [H1 Hx].
    apply StronglySorted_inv in H2 as [H2 Hy].
    rewrite Forall_forall in Hx, Hy.
    assert (Hxy : x = y).
    { assert (Hx2 : x ∈ y :: l2)
        by (rewrite <- Hp; apply elem_of_cons; now left).
      assert (Hy1 : y ∈ x :: l1)
        by (rewrite Hp; apply elem_of_cons; now left).
      apply elem_of_cons in Hx2 as [?|Hx2]; [assumption|].
      apply elem_of_cons in Hy1 as [?|Hy1]; [congruence|].
      apply (same_key_same_entry (x :: l1)); auto.
      - apply elem_of_cons. now left.
      - apply elem_of_cons. now right. }
    subst y. f_equal. apply IH; auto.
    + eapply Permutation_cons_inv; eauto.
    + cbn in Hnd. now apply NoDup_cons in Hnd as [_ ?].
Qed.

Section Keys.
Variable sha256_hexdigest : string -> string.

(** The order in which keyword arguments are passed does not change the
    cache key. *)
Theorem cache_key_ignores_keyword_order args kwargs kwargs' :
  NoDup (keys kwargs) -> kwargs ≡ₚ kwargs' ->
  cache_key_from_params sha256_hexdigest args kwargs
  = cache_key_from_params sha256_hexdigest args kwargs'.
Proof.
  intros Hnd Hp. unfold cache_key_from_params.
  set (leb := fun x y : string * pyvalue => String.leb (fst x) (fst y)).
  assert (Hs : forall l, StronglySorted (fun a b => leb a b = true)
                           (sorted leb l)).
  { intros l. apply sorted_sorted.
    - intros x y H. subst leb. cbn in *.
      destruct (String.leb_total (fst x) (fst y)); congruence.
    - intros x y z. subst leb. cbn. apply string_leb_trans. }
  assert (Heq : sorted leb kwargs = sorted leb kwargs').
  { apply (sorted_unique (fun a b => leb a b = true)); auto.
    - intros x y. subst leb. cbn. apply String.leb_antisym.
    - now rewrite !sorted_perm.
    - unfold keys. now rewrite sorted_perm. }
  now rewrite Heq.
Qed.

(** The key keeps neither the types of the arguments nor the boundaries
    between them: an argument and its rendering as a string, one argument
    containing ["|"] and two arguments, a positional ["k=v"] and a keyword
    argument all get the same key. *)
Theorem cache_key_confuses_distinct_calls (a b k : string) (v : pyvalue) :
  cache_key_from_params sha256_hexdigest [v] []
  = cache_key_from_params sha256_hexdigest [PyStr (py_str v)] []
  /\ cache_key_from_params sha256_hexdigest [PyStr a; PyStr b] []
     = cache_key_from_params sha256_hexdigest [PyStr (a ++ "|" ++ b)] []
  /\ cache_key_from_params sha256_hexdigest [] [(k, v)]
     = cache_key_from_params sha256_hexdigest
         [PyStr (k ++ "=" ++ py_str v)] [].
Proof. repeat split. Qed.

End Keys.

Lemma cache_key_ignores_keyword_order_witness :
  cache_key_from_params (fun s => s) [PyInt 1]
    [("b"%string, PyInt 2); ("a"%string, PyBool true)]
  = cache_key_from_params (fun s => s) [PyInt 1]
      [("a"%string, PyBool true); ("b"%string, PyInt 2)].
Proof.
  apply cache_key_ignores_keyword_order.
  - apply (bool_decide_unpack _). vm_compute. exact I.
  - apply Permutation_swap.
Defined.

(** *** The caching decorator *)

Section Decorator.
Variable sha256_hexdigest : string -> string.
Variable cfg : Config.
Variable pickle_dumps_len : pyvalue -> option N.

Abbreviation cached := (cached sha256_hexdigest cfg pickle_dumps_len).
Abbreviation key_of := (cache_key_from_params sha256_hexdigest).

Definition stored_ttl (ttl : option Q) : option Q :=
  match ttl with None => default_ttl cfg | Some _ => ttl end.

Lemma set_stores key value ttl now c :
  strategy cfg <> ADAPTIVE ->
  od_get key
    (memory_cache (snd (set cfg pickle_dumps_len key value ttl MEMORY now c)))
  = Some (mkEntry key value now now 0 (stored_ttl ttl)
            (entry_size pickle_dumps_len value)).
Proof.
  intros Hs. unfold set, sanitize_filename. cbv zeta. fold (stored_ttl ttl).
  destruct (set_memory_returns cfg pickle_dumps_len key value
              (stored_ttl ttl) now c Hs) as [c' Hc'].
  rewrite Hc'. cbn [snd].
  now destruct (set_memory_stores _ _ _ _ _ _ _ _ _ Hc').
Qed.

(** A result other than [None] is stored under the call's key, and until
    its TTL has run out every call that maps to the same key is answered
    with it, without the wrapped function being called: this holds for a
    repetition of the call, and equally for any other arguments, and any
    other function of the same name, that yield the same key. *)
Theorem cached_answers_every_call_with_the_same_key
    ttl key_prefix func_name func func' args kwargs args' kwargs'
    now later now' later' c v :
  strategy cfg <> ADAPTIVE ->
  key_of args' kwargs' = key_of args kwargs ->
  fst (get cfg pickle_dumps_len
         (key_prefix ++ func_name ++ "_" ++ key_of args kwargs)%string
         PyNone now c) = PyNone ->
  func args kwargs = Ok v ->
  v <> PyNone ->
  match stored_ttl ttl with
  | Some t => (now' - later <= t)%Q
  | None => True
  end ->
  let first := cached ttl key_prefix func_name func args kwargs now later c in
  let second :=
    cached ttl key_prefix func_name func' args' kwargs' now' later'
      (snd first) in
  fst first = (Ok v, true) /\ fst second = (Ok v, false).
Proof.
  intros Hs Hkey Hmiss Hf Hv Hfresh first second.
  subst first second. unfold CacheTools.cached. rewrite Hkey.
  set (key := (key_prefix ++ func_name ++ "_" ++ key_of args kwargs)%string)
    in *.
  destruct (get cfg pickle_dumps_len key PyNone now c) as [r c1] eqn:Hg.
  cbn [fst] in Hmiss. subst r. rewrite Hf.
  pose proof (set_stores key v ttl later c1 Hs) as Hst.
  destruct (set cfg pickle_dumps_len key v ttl MEMORY later c1) as [b c2].
  cbn [fst snd] in *. split; [reflexivity|].
  assert (Hget : fst (get cfg pickle_dumps_len key PyNone now' c2) = v).
  { rewrite (get_fresh cfg pickle_dumps_len key PyNone now' c2 _ Hst);
      [reflexivity|].
    unfold is_expired. cbn [e_ttl e_created_at].
    destruct (stored_ttl ttl) as [t|]; [|reflexivity].
    now apply Qgtb_false. }
  destruct (get cfg pickle_dumps_len key PyNone now' c2) as [r c3].
  cbn [fst] in Hget. subst r. destruct v; [congruence | reflexivity..].
Qed.

(** [None] is no result as far as the decorator is concerned: a function
    that returns [None] is called again by the very next call. *)
Theorem cached_never_remembers_none
    ttl key_prefix func_name func args kwargs now later now' later' c :
  strategy cfg <> ADAPTIVE ->
  func args kwargs = Ok PyNone ->
  let first := cached ttl key_prefix func_name func args kwargs now later c in
  let second :=
    cached ttl key_prefix func_name func args kwargs now' later' (snd first) in
  snd (fst first) = true -> fst second = (Ok PyNone, true).
Proof.
  intros Hs Hf first second. subst first second.
  unfold CacheTools.cached.
  set (key := (key_prefix ++ func_name ++ "_" ++ key_of args kwargs)%string).
  destruct (get cfg pickle_dumps_len key PyNone now c) as [r c1].
  destruct r; cbn [fst snd]; try discriminate. intros _. rewrite Hf.
  pose proof (set_stores key PyNone ttl later c1 Hs) as Hst.
  destruct (set cfg pickle_dumps_len key PyNone ttl MEMORY later c1)
    as [b c2]. cbn [fst snd] in *.
  assert (Hget : fst (get cfg pickle_dumps_len key PyNone now' c2) = PyNone).
  { destruct (is_expired now'
                (mkEntry key PyNone later later 0 (stored_ttl ttl)
                   (entry_size pickle_dumps_len PyNone))) eqn:He.
    - now rewrite (get_expired cfg pickle_dumps_len key PyNone now' c2 _
                     Hst He).
    - now rewrite (get_fresh cfg pickle_dumps_len key PyNone now' c2 _
                     Hst He). }
  destruct (get cfg pickle_dumps_len key PyNone now' c2) as [r c3].
  cbn [fst] in Hget. subst r.
  destruct (set cfg pickle_dumps_len key PyNone ttl MEMORY later' c3).
  reflexivity.
Qed.

End Decorator.

Lemma cached_answers_every_call_with_the_same_key_witness :
  let cfg := demo_config LRU in
  let square := fun (args : list pyvalue) (_ : list (string * pyvalue)) =>
                  Ok (PyInt 49) : outcome pyvalue in
  let other := fun (_ : list pyvalue) (_ : list (string * pyvalue)) =>
                  Ok (PyInt 0) : outcome pyvalue in
  let first := CacheTools.cached (fun s => s) cfg demo_size (Some 60%Q)
                 "m." "f" square [PyInt 7] [] 0 1 init in
  let second := CacheTools.cached (fun s => s) cfg demo_size (Some 60%Q)
                  "m." "f" other [PyStr "7"] [] 30 31 (snd first) in
  fst first = (Ok (PyInt 49), true) /\ fst second = (Ok (PyInt 49), false).
Proof.
  intros cfg square other.
  apply (cached_answers_every_call_with_the_same_key (fun s => s) cfg
           demo_size (Some 60%Q) "m." "f" square other [PyInt 7] []
           [PyStr "7"] [] 0 1 30 31 init (PyInt 49)).
  - discriminate.
  - reflexivity.
  - reflexivity.
  - reflexivity.
  - discriminate.
  - cbn. lra.
Defined.

Lemma cached_never_remembers_none_witness :
  let cfg := demo_config LFU in
  let f := fun (_ : list pyvalue) (_ : list (string * pyvalue)) =>
             Ok PyNone : outcome pyvalue in
  let first := CacheTools.cached (fun s => s) cfg demo_size None
                 "" "f" f [PyInt 7] [] 0 1 init in
  fst (CacheTools.cached (fun s => s) cfg demo_size None "" "f" f
         [PyInt 7] [] 2 3 (snd first)) = (Ok PyNone, true).
Proof.
  intros cfg f first.
  apply (cached_never_remembers_none (fun s => s) cfg demo_size None
           "" "f" f [PyInt 7] [] 0 1 2 3 init).
  - discriminate.
  - reflexivity.
  - reflexivity.
Defined.

(** *** The memory report *)

Lemma fold_add_shift l a : fold_left Z.add l a = a + fold_left Z.add l 0.
Proof.
  revert a. induction l as [|x l IH]; intros a; cbn; [lia|].
  rewrite (IH (a + x)), (IH (0 + x)). lia.
Qed.

Lemma list_sum_sizes d :
  list_sum (map (fun p : string * CacheEntry => e_size_bytes (snd p)) d)
  = sum_sizes d.
Proof.
  unfold list_sum. induction d as [|p d IH]; cbn; [reflexivity|].
  rewrite fold_add_shift, IH. reflexivity.
Qed.

Lemma list_max_bounds x l :
  x <= list_max x l /\ (forall y, y ∈ l -> y <= list_max x l).
Proof.
  unfold list_max. revert x. induction l as [|z l IH]; intros x; cbn.
  - split; [lia|]. intros y Hy. apply elem_of_nil in Hy. contradiction.
  - destruct (IH (Z.max x z)) as [H1 H2]. split; [lia|].
    intros y Hy. apply elem_of_cons in Hy as [->|Hy]; [lia | auto].
Qed.

Lemma list_min_bounds x l :
  list_min x l <= x /\ (forall y, y ∈ l -> list_min x l <= y).
Proof.
  unfold list_min. revert x. induction l as [|z l IH]; intros x; cbn.
  - split; [lia|]. intros y Hy. apply elem_of_nil in Hy. contradiction.
  - destruct (IH (Z.min x z)) as [H1 H2]. split; [lia|].
    intros y Hy. apply elem_of_cons in Hy as [->|Hy]; [lia | auto].
Qed.

Lemma sum_between lo hi (l : list Z) :
  (forall y, y ∈ l -> lo <= y <= hi) ->
  Z.of_nat (length l) * lo <= fold_left Z.add l 0
  <= Z.of_nat (length l) * hi.
Proof.
  induction l as [|x l IH]; intros H; [cbn; lia|].
  cbn [fold_left length]. rewrite fold_add_shift.
  assert (Hx : lo <= x <= hi) by (apply H, elem_of_cons; now left).
  assert (Hl : forall y, y ∈ l -> lo <= y <= hi)
    by (intros y Hy; apply H, elem_of_cons; now right).
  specialize (IH Hl). lia.
Qed.

Section Report.
Variable cfg : Config.
Variable pickle_dumps_len : pyvalue -> option N.

(** [get_memory_usage] fails with [ZeroDivisionError] exactly when the
    configured limit is 0.  Otherwise, after any sequence of operations, its
    report gives the number of entries; an average entry size that lies
    between the smallest and the largest size and, multiplied by the number
    of entries, gives the bytes really held; and a total, taken from the
    byte counter, that is at least the bytes really held. *)
Theorem memory_usage_report ops :
  let c := run cfg pickle_dumps_len ops init in
  match get_memory_usage cfg c with
  | Raise e => e = ZeroDivisionError /\ max_memory_mb cfg = 0
  | Ok u =>
      max_memory_mb cfg <> 0
      /\ total_entries u = Z.of_nat (length (memory_cache c))
      /\ (average_entry_size u * inject_Z (total_entries u)
          == inject_Z (hot_bytes c))%Q
      /\ (memory_cache c <> [] ->
          (inject_Z (smallest_entry_size u) <= average_entry_size u
           /\ average_entry_size u <= inject_Z (largest_entry_size u))%Q)
      /\ total_size_bytes u = size_bytes (stats c)
      /\ hot_bytes c <= total_size_bytes u
  end.
Proof.
  intros c.
  pose proof (ac_counter _ (accounted_run cfg pickle_dumps_len ops init
                              accounted_init)) as Hc.
  fold c in Hc. unfold get_memory_usage. cbv zeta.
  unfold py_div.
  destruct (Qeq_bool (inject_Z (max_memory_mb cfg * 1024 * 1024)) 0) eqn:Hz.
  { split; [reflexivity|]. apply Qeq_bool_iff in Hz.
    unfold Qeq in Hz. cbn in Hz. lia. }
  assert (Hnz : max_memory_mb cfg <> 0).
  { intros H0. rewrite H0 in Hz. discriminate. }
  cbn [total_entries average_entry_size smallest_entry_size
       largest_entry_size total_size_bytes].
  rewrite hot_bytes_sum in *. rewrite <- list_sum_sizes in *.
  set (sizes := map (fun p : string * CacheEntry => e_size_bytes (snd p))
                  (memory_cache c)) in *.
  assert (Hlen : length sizes = length (memory_cache c))
    by (subst sizes; apply length_map).
  repeat split; auto.
  - destruct sizes as [|x l] eqn:Hs.
    + destruct (memory_cache c); [|discriminate]. reflexivity.
    + rewrite <- Hlen. field. intros H. unfold Qeq in H. cbn in H. lia.
  - destruct sizes as [|x l] eqn:Hs.
    { intros _. destruct (memory_cache c); [congruence | discriminate]. }
    destruct (list_min_bounds x l) as [M1 M2].
    destruct (list_max_bounds x l) as [X1 X2].
    pose proof (sum_between (list_min x l) (list_max x l) (x :: l)) as Hb.
    apply Qle_shift_div_l.
    { unfold Qlt. cbn. lia. }
    rewrite <- inject_Z_mult, <- Zle_Qle. unfold list_sum.
    assert (forall y, y ∈ x :: l -> list_min x l <= y <= list_max x l).
    { intros y Hy. apply elem_of_cons in Hy as [->|Hy]; split; auto. }
    specialize (Hb H0). lia.
  - destruct sizes as [|x l] eqn:Hs.
    { destruct (memory_cache c); [congruence | discriminate]. }
    destruct (list_min_bounds x l) as [M1 M2].
    destruct (list_max_bounds x l) as [X1 X2].
    pose proof (sum_between (list_min x l) (list_max x l) (x :: l)) as Hb.
    apply Qle_shift_div_r.
    { unfold Qlt. cbn. lia. }
    rewrite <- inject_Z_mult, <- Zle_Qle. unfold list_sum.
    assert (forall y, y ∈ x :: l -> list_min x l <= y <= list_max x l).
    { intros y Hy. apply elem_of_cons in Hy as [->|Hy]; split; auto. }
    specialize (Hb H0). lia.
Qed.

End Report.

(** *** Further examples *)

Lemma every_get_is_counted_once_witness :
  let ops := [OpSet "a" (PyInt 5) None MEMORY 0;
              OpGet "a" PyNone 1; OpGet "b" PyNone 2] in
  let c := run (demo_config LRU) demo_size ops init in
  hits (stats c) + misses (stats c) = 2.
Proof.
  intros ops c.
  destruct (every_get_is_counted_once (demo_config LRU) demo_size ops)
    as [_ H].
  apply H. discriminate.
Defined.

(** Three entries: ["b"] never read, ["a"] read twice and ["c"], which has
    no TTL, read once. *)
Definition entry_a : CacheEntry := mkEntry "a" (PyInt 5) 0 4 2 (Some 50%Q) 5.
Definition entry_b : CacheEntry := mkEntry "b" (PyInt 6) 1 1 0 (Some 10%Q) 6.
Definition entry_c : CacheEntry := mkEntry "c" (PyInt 7) 2 5 1 None 7.

Definition three_entries : IntelligentCache :=
  set_stats (with_size_bytes 18 empty_stats)
    (set_memory_cache
       [("b"%string, entry_b); ("a"%string, entry_a); ("c"%string, entry_c)]
       init).

Lemma three_entries_nodup : NoDup (keys (memory_cache three_entries)).
Proof. apply (bool_decide_unpack _). vm_compute. exact I. Qed.

Lemma lfu_evicts_least_read_first_witness :
  e_access_count entry_b <= e_access_count entry_c.
Proof.
  apply (lfu_evicts_least_read_first (demo_config LFU) 6 9 three_entries
           three_entries_nodup ("b"%string, entry_b) ("c"%string, entry_c)).
  - apply elem_of_cons. now left.
  - assert (E : memory_cache (_evict_lfu (demo_config LFU) 6 9 three_entries)
                = [("a"%string, entry_a); ("c"%string, entry_c)])
      by (vm_compute; reflexivity).
    rewrite E. intros H.
    apply elem_of_cons in H as [H|H]; [discriminate H|].
    apply elem_of_cons in H as [H|H]; [discriminate H|].
    apply elem_of_nil in H. exact H.
  - assert (E : memory_cache (_evict_lfu (demo_config LFU) 6 9 three_entries)
                = [("a"%string, entry_a); ("c"%string, entry_c)])
      by (vm_compute; reflexivity).
    rewrite E. apply elem_of_cons. right. apply elem_of_cons. now left.
Defined.

Lemma ttl_evicts_soonest_to_expire_first_witness :
  ("c"%string, entry_c)
  ∈ memory_cache (_evict_ttl (demo_config TTL) 100 9 three_entries).
Proof.
  apply (proj1 (ttl_evicts_soonest_to_expire_first (demo_config TTL) 100 9
                  three_entries three_entries_nodup)).
  - apply elem_of_cons. right. apply elem_of_cons. right.
    apply elem_of_cons. now left.
  - reflexivity.
Defined.

Lemma lru_evicts_from_the_front_witness :
  exists gone,
    memory_cache three_entries
    = gone ++ memory_cache (_evict_lru (demo_config LRU) 6 9 three_entries)
    /\ gone <> [].
Proof.
  destruct (lru_evicts_from_the_front (demo_config LRU) 6 9 three_entries
              three_entries_nodup) as (gone & H1 & H2).
  exists gone. split; [exact H1|]. apply H2. discriminate.
Defined.

Lemma memory_usage_report_witness :
  let ops := [OpSet "a" (PyInt 5) (Some 1%Q) MEMORY 0;
              OpSet "b" (PyInt 7) None MEMORY 1;
              OpGet "a" PyNone 5] in
  let c := run (demo_config LRU) demo_size ops init in
  exists u, get_memory_usage (demo_config LRU) c = Ok u
            /\ hot_bytes c <= total_size_bytes u
            /\ (inject_Z (smallest_entry_size u) <= average_entry_size u)%Q.
Proof.
  intros ops c.
  pose proof (memory_usage_report (demo_config LRU) demo_size ops) as H.
  cbv zeta in H. fold c in H.
  destruct (get_memory_usage (demo_config LRU) c) as [u|e].
  - destruct H as (_ & _ & _ & H4 & _ & H6). exists u.
    split; [reflexivity|]. split; [exact H6|]. apply H4. discriminate.
  - destruct H as [_ H]. discriminate H.
Defined.


Lemma adaptive_evicts_lowest_score_first_witness :
  match adaptive_score 9 (memory_cache three_entries) entry_b,
        adaptive_score 9 (memory_cache three_entries) entry_c with
  | Ok sp, Ok sq => (sp <= sq)%Q
  | _, _ => False
  end.
Proof.
  destruct (adaptive_score 9 (memory_cache three_entries) entry_b)
    as [sp|] eqn:Hb; [|vm_compute in Hb; discriminate Hb].
  destruct (adaptive_score 9 (memory_cache three_entries) entry_c)
    as [sq|] eqn:Hc; [|vm_compute in Hc; discriminate Hc].
  assert (E : memory_cache
                (snd (_evict_adaptive (demo_config ADAPTIVE) 6 9 three_entries))
              = [("a"%string, entry_a); ("c"%string, entry_c)])
    by (vm_compute; reflexivity).
  apply (adaptive_evicts_lowest_score_first (demo_config ADAPTIVE) 6 9
           three_entries
           (snd (_evict_adaptive (demo_config ADAPTIVE) 6 9 three_entries))
           three_entries_nodup) with (p := ("b"%string, entry_b))
                                     (q := ("c"%string, entry_c)).
  - vm_compute. reflexivity.
  - apply elem_of_cons. now left.
  - rewrite E. intros H.
    apply elem_of_cons in H as [H|H]; [discriminate H|].
    apply elem_of_cons in H as [H|H]; [discriminate H|].
    apply elem_of_nil in H. exact H.
  - rewrite E. apply elem_of_cons. right. apply elem_of_cons. now left.
  - exact Hb.
  - exact Hc.
Defined.

End CacheLaws.
